(** * Graph view of the vault: neighbourhood, graph data, hover, frame loop,
      popover and zoom of [renderGraph]

    A shallow embedding of the client graph script (the second document of
    [quartz/util/theme.ts], Quartz's graph script extended with topic
    categories, a modifier-key popover and a self-stopping frame loop).

    Conventions.
    - A slug, a tag and a path are [string]s; JavaScript compares them by
      content, and so does [String.eqb].
    - A JavaScript [Set] iterated in insertion order is a duplicate-free
      list that grows at its end ([Js.set_add]).
    - A [Map] iterated in insertion order is an association list.
    - A number is a double. Its value is a rational ([Q]) or, where it
      holds an integer, an integer ([Z]); [Float.double] rounds the exact
      result of an operation to the nearest double.
    - [depth] is an integer written in the configuration. [Neighbourhood]
      has the loop with [depth--] as the exact [depth - 1], which is what
      the double gives from 0 up to 2^53; [Doubles] has it with the
      decrement of the double, and the two agree up to 2^53.
    - The while loop of the neighbourhood is a step function iterated with
      fuel; that enough fuel exists, where it does, is a theorem.
    - [Runtime.showGraphPopover] is the call of [showGraphPopover] run to
      its end in one step; [Async] has the part before its first [await]
      and the part after apart, with other events in between. *)

From Stdlib Require Import List String Ascii Bool ZArith QArith Qminmax Qround Qpower
  Lia Lqa Arith DecimalString Permutation.
Import ListNotations.

Local Close Scope Q_scope.
Local Open Scope string_scope.
Local Open Scope list_scope.

(** ** JavaScript strings, arrays and sets *)

Module Js.

(** [s.startsWith(p)] *)
Definition startsWith (s p : string) : bool := String.prefix p s.

(** [s.includes(p)] *)
Fixpoint includes (s p : string) : bool :=
  String.prefix p s ||
  match s with
  | EmptyString => false
  | String _ s' => includes s' p
  end.

(** [s.substring(n)] *)
Definition substringFrom (n : nat) (s : string) : string :=
  String.substring n (String.length s - n) s.

(** [arr.includes(x)] and [set.has(x)] on strings *)
Definition mem (x : string) (l : list string) : bool :=
  existsb (String.eqb x) l.

(** [set.add(x)]: insertion order is kept, a present element stays where
    it is. *)
Definition set_add (x : string) (s : list string) : list string :=
  if mem x s then s else s ++ [x].

(** [xs.forEach((x) => set.add(x))] *)
Definition set_add_all (xs s : list string) : list string :=
  fold_left (fun acc x => set_add x acc) xs s.

(** [new Set(xs)] *)
Definition set_of (xs : list string) : list string := set_add_all xs [].

End Js.

(** ** Doubles *)

Module Float.

(** [2^e] *)
Definition pow2 (e : Z) : Q := Qpower 2 e.

(** The exponent of a positive rational: [2^e <= x < 2^(e+1)]. *)
Definition exponent (x : Q) : Z :=
  let e := (Z.log2 (Qnum x) - Z.log2 (Zpos (Qden x)))%Z in
  if Qle_bool (pow2 e) x then e else (e - 1)%Z.

(** The integer nearest to [m], a tie going to the even one. *)
Definition nearestEven (m : Q) : Z :=
  let q := Qfloor m in
  match ((m - inject_Z q) ?= 1 # 2)%Q with
  | Lt => q
  | Gt => (q + 1)%Z
  | Eq => if Z.even q then q else (q + 1)%Z
  end.

(** The gap between the doubles around the positive [x]: 52 binary
    places below its exponent, and 2^-1074 for the subnormal ones. *)
Definition ulp (x : Q) : Q := pow2 (Z.max (exponent x) (-1022) - 52).

(** The double nearest to the positive [x]. *)
Definition magnitude (x : Q) : Q := (inject_Z (nearestEven (x / ulp x)) * ulp x)%Q.

(** The double nearest to [x], a tie going to the even mantissa: the
    result that IEEE 754 gives to an operation whose exact result is [x].
    Past the greatest double IEEE 754 gives an infinity, where this has a
    greater number. *)
Definition double (x : Q) : Q :=
  match (x ?= 0)%Q with
  | Eq => 0%Q
  | Gt => magnitude x
  | Lt => (- magnitude (- x))%Q
  end.

End Float.

(** ** The content index and the configuration *)

Module Index.

(** [ContentDetails] of the content index, the fields the script reads.
  [links] may be missing ([details.links ?? []]), [filePath] is
  optional. *)
Record ContentDetails := mkDetails {
title : string;
links : option (list string);
tags : list string;
filePath : option string
}.

(** [D3Config], parsed from the container's [data-cfg]. *)
Record D3Config := mkConfig {
drag : bool;
zoom : bool;
depth : Z;
scale : Q;
repelForce : Q;
centerForce : Q;
linkDistance : Q;
fontSize : Q;
opacityScale : Q;
removeTags : list string;
showTags : bool;
focusOnHover : bool;
enableRadial : bool
}.

(** The entries of the [data] map, keys already simplified, in insertion
  order. *)
Definition ContentIndex := list (string * ContentDetails).

(** [data.get(url)] *)
Definition get (data : ContentIndex) (url : string) : option ContentDetails :=
option_map snd (find (fun e => String.eqb (fst e) url) data).

End Index.

(** ** Building the link list and the neighbourhood *)

Module Neighbourhood.

Import Index.

(** [SimpleLinkData] *)
Record SimpleLinkData := mkLink {
  source : string;
  target : string
}.

Definition SENTINEL : string := "__SENTINEL".

Section Links.

(** [simplifySlug] of [util/path], applied to ["tags/" + tag]. *)
Variable simplifySlug : string -> string.

(** The local state of the loop over [data.entries()]. *)
Record LinkAcc := mkAcc {
  accLinks : list SimpleLinkData;
  accTags : list string
}.

(** The tags of one page that are drawn. *)
Definition localTags (cfg : D3Config) (details : ContentDetails) : list string :=
  map (fun tag => simplifySlug ("tags/" ++ tag))
      (filter (fun tag => negb (Js.mem tag (removeTags cfg))) (tags details)).

(** One iteration of [for (const [source, details] of data.entries())]. *)
Definition addEntry (cfg : D3Config) (validLinks : list string)
           (acc : LinkAcc) (entry : string * ContentDetails) : LinkAcc :=
  let (src, details) := entry in
  let outgoing := match links details with Some l => l | None => [] end in
  let links1 :=
    accLinks acc ++
    map (fun dest => mkLink src dest)
        (filter (fun dest => Js.mem dest validLinks) outgoing) in
  if showTags cfg then
    let lt := localTags cfg details in
    mkAcc (links1 ++ map (fun tag => mkLink src tag) lt)
          (accTags acc ++ filter (fun tag => negb (Js.mem tag (accTags acc))) lt)
  else mkAcc links1 (accTags acc).

Definition validLinks (data : ContentIndex) : list string :=
  Js.set_of (map fst data).

Definition buildLinks (cfg : D3Config) (data : ContentIndex) : LinkAcc :=
  fold_left (addEntry cfg (validLinks data)) data (mkAcc [] []).

End Links.

(** *** The worklist loop *)

Record BfsState := mkBfs {
  bfsDepth : Z;
  wl : list string;
  neighbourhood : list string
}.

Definition outgoingOf (links : list SimpleLinkData) (cur : string) : list string :=
  map target (filter (fun l => String.eqb (source l) cur) links).

Definition incomingOf (links : list SimpleLinkData) (cur : string) : list string :=
  map source (filter (fun l => String.eqb (target l) cur) links).

(** What one non-sentinel entry pushes. *)
Definition pushed (links : list SimpleLinkData) (cur : string) : list string :=
  outgoingOf links cur ++ incomingOf links cur.

(** One iteration of [while (depth >= 0 && wl.length > 0)]; [None] when
    the condition fails. [depth--] is taken as the exact [depth - 1]: so
    it is on a double that holds an integer from 0 to 2^53. *)
Definition bfs_step (links : list SimpleLinkData) (st : BfsState) : option BfsState :=
  if (0 <=? bfsDepth st)%Z then
    match wl st with
    | [] => None
    | cur :: rest =>
        if String.eqb cur SENTINEL then
          Some (mkBfs (bfsDepth st - 1) (rest ++ [SENTINEL]) (neighbourhood st))
        else
          Some (mkBfs (bfsDepth st) (rest ++ pushed links cur)
                      (Js.set_add cur (neighbourhood st)))
    end
  else None.

(** The loop, with a bound on the number of iterations: [Some] of the
    state at loop exit, [None] when the bound is reached first. *)
Fixpoint bfs_run (fuel : nat) (links : list SimpleLinkData) (st : BfsState)
  : option BfsState :=
  match bfs_step links st with
  | None => Some st
  | Some st' =>
      match fuel with
      | O => None
      | S fuel' => bfs_run fuel' links st'
      end
  end.

Definition bfs_init (slug : string) (d : Z) : BfsState :=
  mkBfs d [slug; SENTINEL] [].

(** A number of iterations that is always enough: a round (up to and
    with a sentinel) takes at most as many iterations as the worklist is
    long, and multiplies its length by at most [1 + 2 * |links|]. *)
Fixpoint rounds_fuel (m rounds n : nat) : nat :=
  match rounds with
  | O => O
  | S r => n + rounds_fuel m r (n * (1 + m))
  end.

Definition bfs_fuel (links : list SimpleLinkData) (d : Z) : nat :=
  rounds_fuel (2 * List.length links) (Z.to_nat (d + 1)) 2.

Section Compute.

Variable simplifySlug : string -> string.

(** Lines 348-367: the neighbourhood of [slug]; [None] only if the
    worklist loop did not finish within [bfs_fuel]. *)
Definition computeNeighbourhood (cfg : D3Config) (data : ContentIndex)
           (slug : string) : option (list string) :=
  let acc := buildLinks simplifySlug cfg data in
  if (0 <=? depth cfg)%Z then
    option_map neighbourhood
      (bfs_run (bfs_fuel (accLinks acc) (depth cfg)) (accLinks acc)
               (bfs_init slug (depth cfg)))
  else
    let nb := Js.set_add_all (validLinks data) [] in
    Some (if showTags cfg then Js.set_add_all (accTags acc) nb else nb).

End Compute.

End Neighbourhood.

(** ** Nodes and graph data *)

Module Graph.

Import Index.

(** [NodeData], without the fields the simulation adds. *)
Record NodeData := mkNodeData {
  id : string;
  text : string;
  tags : list string;
  sourcePath : option string;
  isContentNode : bool;
  isConceptTopicNode : bool;
  isDatasetTopicNode : bool;
  isLibraryTopicNode : bool;
  isModelTopicNode : bool;
  isPlatformTopicNode : bool;
  isToolTopicNode : bool
}.

(** [LinkData]: the endpoints are nodes, not slugs. *)
Record LinkData := mkLinkData {
  source : NodeData;
  target : NodeData
}.

Record GraphData := mkGraphData {
  nodes : list NodeData;
  links : list LinkData
}.

(** [!!filePath && (filePath.startsWith(dir + "/") ||
    filePath.includes("/" + dir + "/"))], the test the seven flags
    share; [dir] is ["contents"], ["Concept"], ..., ["Tool"]. *)
Definition underFolder (dir : string) (filePath : option string) : bool :=
  match filePath with
  | None => false
  | Some p =>
      negb (String.eqb p EmptyString) &&
      (Js.startsWith p (dir ++ "/")%string ||
       Js.includes p ("/" ++ dir ++ "/")%string)
  end.

(** The callback of [[...neighbourhood].map], lines 369-401. *)
Definition mkNode (data : ContentIndex) (url : string) : NodeData :=
  let details := Index.get data url in
  let text :=
    if Js.startsWith url "tags/" then ("#" ++ Js.substringFrom 5 url)%string
    else match details with Some d => title d | None => url end in
  let filePath := match details with Some d => filePath d | None => None end in
  mkNodeData url text
    (match details with Some d => Index.tags d | None => [] end)
    filePath
    (underFolder "contents" filePath)
    (underFolder "Concept" filePath)
    (underFolder "Dataset" filePath)
    (underFolder "Library" filePath)
    (underFolder "Model" filePath)
    (underFolder "Platform" filePath)
    (underFolder "Tool" filePath).

(** [isTagNode], line 818. *)
Definition isTagNode (n : NodeData) : bool := Js.startsWith (id n) "tags/".

(** [nodeMap.get(slug)] on [new Map(nodes.map((n) => [n.id, n]))] *)
Definition nodeMap_get (nodes : list NodeData) (slug : string) : option NodeData :=
  find (fun n => String.eqb (id n) slug) nodes.

(** The links of [graphData], lines 405-410. An endpoint that [nodeMap]
    does not hold would be [undefined], and the loop over
    [graphData.links] that follows (line 416) would throw on it: [None]. *)
Fixpoint resolveLinks (nodes : list NodeData) (ls : list Neighbourhood.SimpleLinkData)
  : option (list LinkData) :=
  match ls with
  | [] => Some []
  | l :: ls' =>
      match nodeMap_get nodes (Neighbourhood.source l),
            nodeMap_get nodes (Neighbourhood.target l),
            resolveLinks nodes ls' with
      | Some s, Some t, Some r => Some (mkLinkData s t :: r)
      | _, _, _ => None
      end
  end.

(** [links.filter((l) => neighbourhood.has(l.source) &&
    neighbourhood.has(l.target))] *)
Definition keptLinks (links : list Neighbourhood.SimpleLinkData)
           (neighbourhood : list string) : list Neighbourhood.SimpleLinkData :=
  filter (fun l => Js.mem (Neighbourhood.source l) neighbourhood &&
                   Js.mem (Neighbourhood.target l) neighbourhood) links.

Definition graphData (data : ContentIndex) (links : list Neighbourhood.SimpleLinkData)
           (neighbourhood : list string) : option GraphData :=
  let nodes := map (mkNode data) neighbourhood in
  option_map (mkGraphData nodes) (resolveLinks nodes (keptLinks links neighbourhood)).

(** The link of [graphData] that a kept link becomes when both ends are
    found. *)
Definition resolved (data : ContentIndex) (l : Neighbourhood.SimpleLinkData) : LinkData :=
  mkLinkData (mkNode data (Neighbourhood.source l)) (mkNode data (Neighbourhood.target l)).

(** [p] has the folder [dir] on its way: [dir/] starts it or follows a
    slash. *)
Definition hasSegment (dir p : string) : Prop :=
  exists pre post,
    p = (pre ++ dir ++ "/" ++ post)%string /\
    (pre = EmptyString \/ exists pre', pre = (pre' ++ "/")%string).

(** A model topic and no other topic. *)
Definition onlyModelTopic (n : NodeData) : Prop :=
  isModelTopicNode n = true /\
  isConceptTopicNode n = false /\ isDatasetTopicNode n = false /\
  isLibraryTopicNode n = false /\ isPlatformTopicNode n = false /\
  isToolTopicNode n = false.

(** The strings [color] picks from: the entries of [computedStyleMap] it
    reads and [contentFillColor]. *)
Record Palette := mkPalette {
  secondary : string;
  tertiary : string;
  gray : string;
  contentFillColor : string;
  conceptTopicNode : string;
  datasetTopicNode : string;
  libraryTopicNode : string;
  modelTopicNode : string;
  platformTopicNode : string;
  toolTopicNode : string
}.

(** [color], lines 476-501. *)
Definition color (pal : Palette) (slug : string) (visited : list string)
           (d : NodeData) : string :=
  if String.eqb (id d) slug then secondary pal
  else if Js.startsWith (id d) "tags/" then tertiary pal
  else if Js.mem (id d) visited then tertiary pal
  else if isContentNode d then contentFillColor pal
  else if isConceptTopicNode d then conceptTopicNode pal
  else if isDatasetTopicNode d then datasetTopicNode pal
  else if isLibraryTopicNode d then libraryTopicNode pal
  else if isModelTopicNode d then modelTopicNode pal
  else if isPlatformTopicNode d then platformTopicNode pal
  else if isToolTopicNode d then toolTopicNode pal
  else gray pal.

Section Build.

Variable simplifySlug : string -> string.

(** The build of [renderGraph] up to [graphData]: the outer [None]
    is a worklist loop that did not finish, the inner one an undefined
    link endpoint. *)
Definition buildGraph (cfg : D3Config) (data : ContentIndex) (slug : string)
  : option (option GraphData) :=
  option_map
    (graphData data (Neighbourhood.accLinks (Neighbourhood.buildLinks simplifySlug cfg data)))
    (Neighbourhood.computeNeighbourhood simplifySlug cfg data slug).

End Build.

End Graph.

(** ** The worklist loop with [depth] as the double it is held in *)

Module Doubles.

Import Index Neighbourhood.

(** Up to [safe] = 2^53 in absolute value every integer is a double. *)
Definition safe : Z := 2 ^ 53.

(** The double that [JSON.parse] gives for the integer literal [x]: the
    nearest one, which holds an integer. *)
Definition nearest (x : Z) : Z := Qfloor (Float.double (inject_Z x)).

(** [depth--] on a double that holds the integer [d]: the double nearest
    to [d - 1]. *)
Definition decrement (d : Z) : Z := Qfloor (Float.double (inject_Z d - 1)).

(** One iteration of [while (depth >= 0 && wl.length > 0)]; [None] when
    the condition fails. *)
Definition bfs_step (links : list SimpleLinkData) (st : BfsState) : option BfsState :=
  if (0 <=? bfsDepth st)%Z then
    match wl st with
    | [] => None
    | cur :: rest =>
        if String.eqb cur SENTINEL then
          Some (mkBfs (decrement (bfsDepth st)) (rest ++ [SENTINEL]) (neighbourhood st))
        else
          Some (mkBfs (bfsDepth st) (rest ++ pushed links cur)
                      (Js.set_add cur (neighbourhood st)))
    end
  else None.

(** The loop, with a bound on the number of iterations: [Some] of the
    state at loop exit, [None] when the bound is reached first. *)
Fixpoint bfs_run (fuel : nat) (links : list SimpleLinkData) (st : BfsState)
  : option BfsState :=
  match bfs_step links st with
  | None => Some st
  | Some st' =>
      match fuel with
      | O => None
      | S fuel' => bfs_run fuel' links st'
      end
  end.

(** The states the loop passes through from [st0]. *)
Inductive reachable (links : list SimpleLinkData) (st0 : BfsState) : BfsState -> Prop :=
| reach_start : reachable links st0 st0
| reach_next : forall st st',
    reachable links st0 st -> bfs_step links st = Some st' ->
    reachable links st0 st'.

Section Compute.

Variable simplifySlug : string -> string.

(** Lines 348-367, from the integer [depth cfg] written in [data-cfg]:
    [None] only if the worklist loop did not finish within [bfs_fuel]. *)
Definition computeNeighbourhood (cfg : D3Config) (data : ContentIndex)
           (slug : string) : option (list string) :=
  let acc := buildLinks simplifySlug cfg data in
  let d := nearest (depth cfg) in
  if (0 <=? d)%Z then
    option_map neighbourhood
      (bfs_run (bfs_fuel (accLinks acc) d) (accLinks acc) (bfs_init slug d))
  else
    let nb := Js.set_add_all (validLinks data) [] in
    Some (if showTags cfg then Js.set_add_all (accTags acc) nb else nb).

(** The build of [renderGraph] up to [graphData]. *)
Definition buildGraph (cfg : D3Config) (data : ContentIndex) (slug : string)
  : option (option Graph.GraphData) :=
  option_map
    (Graph.graphData data (accLinks (buildLinks simplifySlug cfg data)))
    (computeNeighbourhood cfg data slug).

End Compute.

End Doubles.

(** ** Hover state *)

Module Hover.

Import Graph.

(** [GraphicsInfo & { simulationData }]: [LinkRenderData] is
    [RenderData LinkData], [NodeRenderData] is [RenderData NodeData]
    (the Pixi objects [gfx] and [label] play no part in the flags). *)
Record RenderData (D : Type) := mkRender {
  simulationData : D;
  color : string;
  alpha : Q;
  active : bool
}.
Arguments mkRender {D}.
Arguments simulationData {D}.
Arguments color {D}.
Arguments alpha {D}.
Arguments active {D}.

Definition setActive {D} (b : bool) (r : RenderData D) : RenderData D :=
  mkRender (simulationData r) (color r) (alpha r) b.

Record HoverState := mkHover {
  hoveredNodeId : option string;
  hoveredNeighbours : list string;
  linkRenderData : list (RenderData LinkData);
  nodeRenderData : list (RenderData NodeData)
}.

(** [linkData.source.id === newHoveredId || linkData.target.id === newHoveredId] *)
Definition touches (newHoveredId : string) (linkData : LinkData) : bool :=
  String.eqb (id (source linkData)) newHoveredId ||
  String.eqb (id (target linkData)) newHoveredId.

(** The [hoveredNeighbours] the loop over [linkRenderData] collects. *)
Definition collectNeighbours (newHoveredId : string)
           (ls : list (RenderData LinkData)) : list string :=
  fold_left
    (fun acc l =>
       let linkData := simulationData l in
       if touches newHoveredId linkData
       then Js.set_add (id (target linkData)) (Js.set_add (id (source linkData)) acc)
       else acc)
    ls [].

(** [updateHoverInfo], lines 511-539. *)
Definition updateHoverInfo (newHoveredId : option string) (st : HoverState)
  : HoverState :=
  match newHoveredId with
  | None =>
      mkHover None []
              (map (setActive false) (linkRenderData st))
              (map (setActive false) (nodeRenderData st))
  | Some h =>
      let nbs := collectNeighbours h (linkRenderData st) in
      mkHover (Some h) nbs
              (map (fun l => setActive (touches h (simulationData l)) l)
                   (linkRenderData st))
              (map (fun n => setActive (Js.mem (id (simulationData n)) nbs) n)
                   (nodeRenderData st))
  end.

(** The end of a link away from [a]. *)
Definition otherEnd (a : string) (l : LinkData) : string :=
  if String.eqb (id (source l)) a then id (target l) else id (source l).

End Hover.

(** ** Frame loop, popover and teardown *)

Module Runtime.

(** A tween group of tween.js, as far as the loop sees it: the end times
    of its tweens that still run. [update(time)] drops the finished ones,
    [stop()] drops all. *)
Definition TweenNode := list nat.

Definition tween_update (time : nat) (g : TweenNode) : TweenNode :=
  filter (fun e => Nat.ltb time e) g.

Definition tween_stop (g : TweenNode) : TweenNode := [].

(** [count] tweens started at [now] that last [duration]. *)
Definition tween_start (now duration count : nat) : TweenNode :=
  repeat (now + duration) count.

(** The variables of [renderGraph] that the frame loop reads and
    writes. [frameRequests] counts the [animate] callbacks handed to
    [requestAnimationFrame] and not yet run. *)
Record Loop := mkLoop {
  tweens : list (string * TweenNode);
  animationRunning : bool;
  stopAnimation : bool;
  frameRequests : nat;
  dragging : bool
}.

(** [tweens.get(key)?.stop()] *)
Definition tweens_stop (key : string) (m : list (string * TweenNode))
  : list (string * TweenNode) :=
  map (fun e => if String.eqb (fst e) key then (fst e, tween_stop (snd e)) else e) m.

(** [tweens.set(key, g)] *)
Definition tweens_set (key : string) (g : TweenNode) (m : list (string * TweenNode))
  : list (string * TweenNode) :=
  if existsb (fun e => String.eqb (fst e) key) m
  then map (fun e => if String.eqb (fst e) key then (key, g) else e) m
  else m ++ [(key, g)].

Definition restartTweens (key : string) (g : TweenNode) (st : Loop) : Loop :=
  mkLoop (tweens_set key g (tweens_stop key (tweens st)))
         (animationRunning st) (stopAnimation st) (frameRequests st) (dragging st).

(** [renderNodes], [renderLinks], [renderLabels]: one tween per record. *)
Definition renderNodes (now nodeCount : nat) : Loop -> Loop :=
  restartTweens "hover" (tween_start now 200 nodeCount).

Definition renderLinks (now linkCount : nat) : Loop -> Loop :=
  restartTweens "link" (tween_start now 200 linkCount).

Definition renderLabels (now nodeCount : nat) : Loop -> Loop :=
  restartTweens "label" (tween_start now 100 nodeCount).

(** [ensureAnimating], lines 1020-1025. *)
Definition ensureAnimating (st : Loop) : Loop :=
  if negb (animationRunning st) && negb (stopAnimation st) then
    mkLoop (tweens st) true (stopAnimation st) (S (frameRequests st)) (dragging st)
  else st.

(** [renderPixiFromD3], lines 637-642. *)
Definition renderPixiFromD3 (now nodeCount linkCount : nat) (st : Loop) : Loop :=
  ensureAnimating
    (renderLabels now nodeCount
       (renderLinks now linkCount (renderNodes now nodeCount st))).

(** What the [pointerover] and [pointerleave] handlers do to the loop. *)
Definition onHoverChange (now nodeCount linkCount : nat) (st : Loop) : Loop :=
  if dragging st then st else renderPixiFromD3 now nodeCount linkCount st.

(** [simulation.alpha() < simulation.alphaMin()] *)
Definition cooled (alpha alphaMin : Q) : bool := negb (Qle_bool alphaMin alpha).

(** [animate], lines 984-1018; [alpha] and [alphaMin] are what the
    simulation answers when the frame runs. Positions and strokes are not
    part of the state. *)
Definition animate (time : nat) (alpha alphaMin : Q) (st : Loop) : Loop :=
  if stopAnimation st then
    mkLoop (tweens st) false (stopAnimation st) (frameRequests st) (dragging st)
  else
    let tw := map (fun e => (fst e, tween_update time (snd e))) (tweens st) in
    if cooled alpha alphaMin && (List.length tw =? 0)%nat then
      mkLoop tw false (stopAnimation st) (frameRequests st) (dragging st)
    else
      mkLoop tw (animationRunning st) (stopAnimation st) (S (frameRequests st))
             (dragging st).

(** The browser runs one requested frame. *)
Definition frame (time : nat) (alpha alphaMin : Q) (st : Loop) : Loop :=
  match frameRequests st with
  | O => st
  | S n =>
      animate time alpha alphaMin
        (mkLoop (tweens st) (animationRunning st) (stopAnimation st) n (dragging st))
  end.

(** Frames in a row, each with its time and the simulation's answers. *)
Definition runFrames (fs : list (nat * (Q * Q))) (st : Loop) : Loop :=
  fold_left (fun s f => frame (fst f) (fst (snd f)) (snd (snd f)) s) fs st.

(** The loop when [renderGraph] returns: [tweens] cleared (line 775),
    one frame requested (lines 1032-1033). *)
Definition mounted : Loop := mkLoop [] true false 1 false.

(** A tween of a group is still running. *)
Definition pendingTweens (st : Loop) : bool :=
  existsb (fun e => negb (List.length (snd e) =? 0)%nat) (tweens st).

(** The loop after a hover: the three groups are set, none of their
    tweens ends after [bound], and one frame is requested. *)
Definition keepsRunning (bound : nat) (st : Loop) : Prop :=
  map fst (tweens st) = ["hover"; "link"; "label"] /\
  animationRunning st = true /\ stopAnimation st = false /\ frameRequests st = 1 /\
  Forall (fun e => Forall (fun t => t <= bound) (snd e)) (tweens st).

(** *** Popover *)

Record Popovers := mkPopovers {
  popoverTimeout : option nat;
  hideTimeout : option nat;
  activePopover : option string;
  bodyPopovers : list string
}.

(** [clearGraphPopover], lines 681-694: [bodyPopovers] are the ids of
    the popover elements in the document. *)
Definition clearGraphPopover (st : Popovers) : Popovers :=
  mkPopovers None None None
    (match activePopover st with
     | Some el => filter (fun e => negb (String.eqb e el)) (bodyPopovers st)
     | None => bodyPopovers st
     end).

(** What [fetchCanonical] resolves with. [hints] are the elements of
    class [popover-hint] of the parsed body, [None] when reading the
    body fails. *)
Record Response := mkResponse {
  status : Z;
  contentTypeHeader : option string;
  hints : option (list string)
}.

Inductive Fetched :=
| FetchRejected
| FetchResolved (r : Response).

Inductive Outcome :=
| Returned (st : Popovers)
| Rejected (st : Popovers).

(** [h.split(";")[0]] *)
Fixpoint firstField (h : string) : string :=
  match h with
  | EmptyString => EmptyString
  | String c h' => if Ascii.eqb c ";" then EmptyString else String c (firstField h')
  end.

(** [response.ok] *)
Definition ok (r : Response) : bool := (200 <=? status r)%Z && (status r <=? 299)%Z.

(** [response.headers.get("Content-Type")?.split(";")[0] ?? EmptyString] *)
Definition contentTypeOf (response : Response) : string :=
  match contentTypeHeader response with
  | Some h => firstField h
  | None => EmptyString
  end.

(** [showGraphPopover], lines 710-754, for the target whose URL has the
    path [pathname]; [fetched] is the answer of [fetchCanonical], read
    only when the fetch is made. The call is run to its end in one step:
    nothing else runs while it waits for the fetch. *)
Definition showGraphPopover (pathname : string) (fetched : Fetched) (st : Popovers)
  : Outcome :=
  let st1 := clearGraphPopover st in
  let popoverId := ("graph-popover-" ++ pathname)%string in
  if Js.mem popoverId (bodyPopovers st1) then
    Returned (mkPopovers (popoverTimeout st1) (hideTimeout st1) (Some popoverId)
                         (bodyPopovers st1))
  else
    match fetched with
    | FetchRejected => Returned st1
    | FetchResolved response =>
        let contentType := contentTypeOf response in
        if negb (Js.startsWith contentType "text/html") then Returned st1
        else
          match hints response with
          | None => Rejected st1
          | Some elts =>
              if (List.length elts =? 0)%nat then Returned st1
              else Returned (mkPopovers (popoverTimeout st1) (hideTimeout st1)
                                        (Some popoverId)
                                        (bodyPopovers st1 ++ [popoverId]))
          end
    end.

(** *** Teardown *)

(** One mounted graph: [keyListeners] are the listeners the mount holds
    on [document], [destroyCalls] counts the calls of [app.destroy()]. *)
Record Instance := mkInstance {
  loop : Loop;
  popovers : Popovers;
  keyListeners : list string;
  destroyCalls : nat
}.

Definition removeEventListener (ev : string) (ls : list string) : list string :=
  filter (fun e => negb (String.eqb e ev)) ls.

(** The closure [renderGraph] returns, lines 1034-1040. *)
Definition cleanup (i : Instance) : Instance :=
  mkInstance
    (mkLoop (tweens (loop i)) (animationRunning (loop i)) true
            (frameRequests (loop i)) (dragging (loop i)))
    (clearGraphPopover (popovers i))
    (removeEventListener "keyup" (removeEventListener "keydown" (keyListeners i)))
    (S (destroyCalls i)).

Definition mountedInstance : Instance :=
  mkInstance mounted (mkPopovers None None None []) ["keydown"; "keyup"] 0.

End Runtime.

(** ** Zoom *)

Module Zoom.

Record Transform := mkTransform {
  k : Q;
  x : Q;
  y : Q
}.

(** A label of [labelsContainer]; [handle] is its identity as an
    object. *)
Record Text := mkText {
  handle : nat;
  alpha : Q;
  labelScale : Q
}.

(** [NodeRenderData] as the handler reads it: the flag and the label
    object. *)
Record NodeRender := mkNodeRender {
  active : bool;
  label : nat
}.

Record ZoomState := mkZoom {
  currentTransform : Transform;
  stageScale : Q * Q;
  stagePosition : Q * Q;
  children : list Text;
  nodeRenderData : list NodeRender
}.

(** [.scaleExtent([0.25, 4])]: the range in which d3-zoom keeps the
    scale of the transforms it hands to the handler. *)
Definition scaleExtent : Q * Q := ((1 # 4)%Q, (4 # 1)%Q).

(** [Math.max((zoomScale - 1) / 3.75, 0)] with
    [zoomScale = transform.k * opacityScale], each operation rounded to
    a double. *)
Definition scaleOpacity (opacityScale zoomK : Q) : Q :=
  let zoomScale := Float.double (zoomK * opacityScale)%Q in
  Qmax (Float.double (Float.double (zoomScale - 1) / (15 # 4)))%Q 0%Q.

(** The ["zoom"] handler, lines 957-977; the label scale
    [1 / (scale * transform.k)] is the one of a product that is not 0. *)
Definition onZoom (cfg : Index.D3Config) (transform : Transform) (st : ZoomState)
  : ZoomState :=
  let opacity := scaleOpacity (Index.opacityScale cfg) (k transform) in
  let activeNodes := map label (filter active (nodeRenderData st)) in
  let newScale := Float.double (1 / Float.double (Index.scale cfg * k transform))%Q in
  mkZoom transform
         (k transform, k transform)
         (x transform, y transform)
         (map (fun l =>
                 mkText (handle l)
                        (if existsb (Nat.eqb (handle l)) activeNodes
                         then alpha l else opacity)
                        newScale)
              (children st))
         (nodeRenderData st).

(** [h] is the label of a node whose flag is set. *)
Definition labelOfActive (st : ZoomState) (h : nat) : Prop :=
  exists n, In n (nodeRenderData st) /\ active n = true /\ label n = h.

End Zoom.

(** ** Reachability in the link graph, for the statements *)

Module Reach.

Import Neighbourhood.

(** A link joins [u] and [v], in either direction. *)
Definition adjacent (links : list SimpleLinkData) (u v : string) : Prop :=
  exists l, In l links /\
            ((source l = u /\ target l = v) \/ (target l = u /\ source l = v)).



(** The entries of the worklist between the sentinels of round [k] and
    [k + 1], when the first round holds [w]. *)
Fixpoint layerAt (links : list SimpleLinkData) (k : nat) (w : list string) : list string :=
  match k with
  | O => w
  | S k' => layerAt links k' (flat_map (pushed links) w)
  end.

(** The entries of the first [r] rounds, in the order they are taken. *)
Fixpoint layers (links : list SimpleLinkData) (r : nat) (w : list string) : list string :=
  match r with
  | O => []
  | S r' => w ++ layers links r' (flat_map (pushed links) w)
  end.

(** No link has the marker of the worklist as an endpoint. *)
Definition markerFree (links : list SimpleLinkData) : Prop :=
  forall l, In l links -> source l <> SENTINEL /\ target l <> SENTINEL.

Definition markerFreeb (links : list SimpleLinkData) : bool :=
  forallb (fun l => negb (String.eqb (source l) SENTINEL) &&
                    negb (String.eqb (target l) SENTINEL)) links.

(** Every link starts at a key and ends at a key or at a collected
    tag. *)
Definition endpointsFrom (keys : list string) (acc : LinkAcc) : Prop :=
  forall l, In l (accLinks acc) ->
            In (source l) keys /\ (In (target l) keys \/ In (target l) (accTags acc)).

(** The states the loop passes through from [st0]. *)
Inductive reachable (links : list SimpleLinkData) (st0 : BfsState) : BfsState -> Prop :=
| reach_start : reachable links st0 st0
| reach_next : forall st st',
    reachable links st0 st -> bfs_step links st = Some st' ->
    reachable links st0 st'.


(** [x] is the slug of a tag of some page that [removeTags] keeps. *)
Definition drawnTag (simplifySlug : string -> string) (cfg : Index.D3Config)
           (data : Index.ContentIndex) (x : string) : Prop :=
  exists src details tag,
    In (src, details) data /\ In tag (Index.tags details) /\
    ~ In tag (Index.removeTags cfg) /\ x = simplifySlug ("tags/" ++ tag)%string.

End Reach.

(** ** Small inputs *)

Module Examples.

Import Index.

Definition page (ls tgs : list string) (path : string) : ContentDetails :=
  mkDetails "t" (Some ls) tgs (Some path).

(** The index [{A: links=[B], B: links=[A,C], C: links=[]}]. *)
Definition abc : ContentIndex :=
  [("A", page ["B"] ["x"] "contents/A.md");
   ("B", page ["A"; "C"] [] "Topics/Model/B.md");
   ("C", page [] ["x"] "Topics/Concept/C.md")].

Definition config (d : Z) (withTags : bool) : D3Config :=
  mkConfig true true d 1%Q 1%Q 1%Q 1%Q 1%Q 1%Q [] withTags true false.

Definition keepSlug (s : string) : string := s.

Definition abcLinks : list Neighbourhood.SimpleLinkData :=
  Neighbourhood.accLinks (Neighbourhood.buildLinks keepSlug (config 1 false) abc).

(** A page filed under two topic folders. *)
Definition nested : ContentIndex :=
  [("bert", page [] [] "Topics/Concept/Model/bert.md")].

Definition nodeA : Graph.NodeData := Graph.mkNode abc "A".
Definition nodeB : Graph.NodeData := Graph.mkNode abc "B".

(** Two nodes and the link between them, nothing hovered. *)
Definition pair : Hover.HoverState :=
  Hover.mkHover None []
    [Hover.mkRender (Graph.mkLinkData nodeA nodeB) "lightgray" 1%Q false]
    [Hover.mkRender nodeA "gray" 1%Q false; Hover.mkRender nodeB "gray" 1%Q false].

(** A page that is not found, served as HTML with a preview element. *)
Definition notFound : Runtime.Response :=
  Runtime.mkResponse 404 (Some "text/html; charset=utf-8") (Some ["<article>"]).

Definition plainText : Runtime.Response :=
  Runtime.mkResponse 200 (Some "text/plain") (Some []).

Definition noPopovers : Runtime.Popovers := Runtime.mkPopovers None None None [].

(** Two labels, the first of an active node. *)
Definition twoLabels : Zoom.ZoomState :=
  Zoom.mkZoom (Zoom.mkTransform 1%Q 0%Q 0%Q) (1%Q, 1%Q) (0%Q, 0%Q)
    [Zoom.mkText 0 1%Q 1%Q; Zoom.mkText 1 0%Q 1%Q]
    [Zoom.mkNodeRender true 0; Zoom.mkNodeRender false 1].

Definition wideOpacity : D3Config :=
  mkConfig true true 1 1%Q 1%Q 1%Q 1%Q 1%Q 2%Q [] false true false.

End Examples.

(** ** What the link list holds *)

Module LinkSpec.

Import Index Neighbourhood.

(** [l] is a link that the page [entry] contributes: to a link target
    that is a key of the index, or to one of its drawn tags. *)
Definition fromEntry (simplifySlug : string -> string) (cfg : D3Config)
           (keys : list string) (entry : string * ContentDetails)
           (l : SimpleLinkData) : Prop :=
  source l = fst entry /\
  ((exists outgoing, links (snd entry) = Some outgoing /\
                     In (target l) outgoing /\ In (target l) keys) \/
   (showTags cfg = true /\ In (target l) (localTags simplifySlug cfg (snd entry)))).

(** The configuration with another [depth]. *)
Definition withDepth (d : Z) (cfg : D3Config) : D3Config :=
  mkConfig (drag cfg) (zoom cfg) d (scale cfg) (repelForce cfg) (centerForce cfg)
           (linkDistance cfg) (fontSize cfg) (opacityScale cfg) (removeTags cfg)
           (showTags cfg) (focusOnHover cfg) (enableRadial cfg).

(** [x] is an end of a link. *)
Definition endpoint (ls : list SimpleLinkData) (x : string) : Prop :=
  exists l, In l ls /\ (source l = x \/ target l = x).


(** Every entry is the focal slug, the marker or an end of a link, and
    the marker is never taken into the neighbourhood. *)
Definition fromLinks (ls : list SimpleLinkData) (slug : string) (st : BfsState) : Prop :=
  (forall x, In x (wl st) -> x = slug \/ x = SENTINEL \/ endpoint ls x) /\
  (forall x, In x (neighbourhood st) -> x <> SENTINEL /\ (x = slug \/ endpoint ls x)).

End LinkSpec.

(** ** The visited set *)

Module Visited.

(** The item ["graph-visited"] of [localStorage]: [None] when it is
    absent, else the array of slugs that [JSON.parse] reads back from what
    [JSON.stringify] wrote. *)
Definition Storage := option (list string).

(** [getVisited], lines 279-281. *)
Definition getVisited (store : Storage) : list string :=
  Js.set_of (match store with Some xs => xs | None => [] end).

(** [addToVisited], lines 283-287. *)
Definition addToVisited (slug : string) (store : Storage) : Storage :=
  Some (Js.set_add slug (getVisited store)).

End Visited.

(** ** Link counts and collision iterations *)

Module Counts.

Import Graph.

(** [linkCounts.get(key) ?? 0] *)
Definition get (m : list (string * nat)) (key : string) : nat :=
  match find (fun e => String.eqb (fst e) key) m with
  | Some e => snd e
  | None => 0
  end.

(** [linkCounts.set(key, v)] *)
Definition set (key : string) (v : nat) (m : list (string * nat)) : list (string * nat) :=
  if existsb (fun e => String.eqb (fst e) key) m
  then map (fun e => if String.eqb (fst e) key then (key, v) else e) m
  else m ++ [(key, v)].

(** The body of the loop of lines 415-418. *)
Definition countLink (m : list (string * nat)) (l : LinkData) : list (string * nat) :=
  let m1 := set (id (source l)) (get m (id (source l)) + 1) m in
  set (id (target l)) (get m1 (id (target l)) + 1) m1.

Definition linkCounts (links : list LinkData) : list (string * nat) :=
  fold_left countLink links [].

(** The sum of the values of the map. *)
Definition total (m : list (string * nat)) : nat :=
  fold_right (fun e acc => snd e + acc) 0 m.

(** How many links leave [key] and how many arrive at it. *)
Definition degree (links : list LinkData) (key : string) : nat :=
  List.length (filter (fun l => String.eqb (id (source l)) key) links) +
  List.length (filter (fun l => String.eqb (id (target l)) key) links).

(** [collideIterations], line 425. *)
Definition collideIterations (nodeCount : nat) : nat :=
  if Nat.ltb 500 nodeCount then 1 else if Nat.ltb 200 nodeCount then 2 else 3.

End Counts.

(** ** What a hover asks of the tweens *)

Module Highlight.

Import Graph Hover.

(** [if (hoveredNodeId)]: a string counts unless it is empty. *)
Definition truthy (hovered : option string) : bool :=
  match hovered with
  | Some h => negb (String.eqb h EmptyString)
  | None => false
  end.

(** The [alpha] that [renderLinks] sends a link to, lines 550-559. *)
Definition linkAlpha (st : HoverState) (l : RenderData LinkData) : Q :=
  if truthy (hoveredNodeId st) then (if active l then 1%Q else (2 # 10)%Q) else 1%Q.

(** The colour [renderLinks] gives a link, line 558. *)
Definition linkColor (gray lightgray : string) (l : RenderData LinkData) : string :=
  if active l then gray else lightgray.

(** The [alpha] that [renderNodes] sends a node to, lines 617-625. *)
Definition nodeAlpha (focusOnHover : bool) (st : HoverState) (n : RenderData NodeData) : Q :=
  if (match hoveredNodeId st with Some _ => true | None => false end) && focusOnHover
  then (if active n then 1%Q else (2 # 10)%Q)
  else 1%Q.

(** [a] is an end of a link of [ls]. *)
Definition onLink (a : string) (ls : list (RenderData LinkData)) : Prop :=
  exists l, In l ls /\ touches a (simulationData l) = true.

(** [x] is an end of a link of [ls] that touches [a]. *)
Definition besideHovered (a x : string) (ls : list (RenderData LinkData)) : Prop :=
  exists l, In l ls /\ touches a (simulationData l) = true /\
            (x = id (source (simulationData l)) \/ x = id (target (simulationData l))).

End Highlight.

(** ** The events of one mounted graph *)

Module Session.

Import Runtime.

Inductive Event :=
| Frame (time : nat) (alpha alphaMin : Q)
| HoverChange (now nodeCount linkCount : nat)
| Request
| DragStart
| DragEnd
| Teardown.

Definition onLoop (f : Loop -> Loop) (i : Instance) : Instance :=
  mkInstance (f (loop i)) (popovers i) (keyListeners i) (destroyCalls i).

(** [dragging = b], lines 916 and 927. *)
Definition setDragging (b : bool) (st : Loop) : Loop :=
  mkLoop (tweens st) (animationRunning st) (stopAnimation st) (frameRequests st) b.

(** What an event does to the instance: a frame of the browser, a
    [pointerover] or [pointerleave], a zoom event or a tick of the
    simulation ([Request]: both call [ensureAnimating]), the start and the
    end of a drag, the teardown. *)
Definition handle (ev : Event) (i : Instance) : Instance :=
  match ev with
  | Frame time alpha alphaMin => onLoop (frame time alpha alphaMin) i
  | HoverChange now nodeCount linkCount =>
      onLoop (onHoverChange now nodeCount linkCount) i
  | Request => onLoop ensureAnimating i
  | DragStart => onLoop (setDragging true) i
  | DragEnd => onLoop (setDragging false) i
  | Teardown => cleanup i
  end.

Definition run (evs : list Event) (i : Instance) : Instance :=
  fold_left (fun s ev => handle ev s) evs i.

Definition isFrame (ev : Event) : bool :=
  match ev with Frame _ _ _ => true | _ => false end.

(** One chain of frames at most: a frame is requested exactly while
    [animationRunning] is set. *)
Definition oneChain (st : Loop) : Prop :=
  frameRequests st = if animationRunning st then 1 else 0.

(** The stop flag is set. *)
Definition halted (i : Instance) : Prop :=
  stopAnimation (loop i) = true /\ oneChain (loop i).

End Session.

(** ** The popover with its timers and its fetch *)

Module Async.

(** What a timer does when it fires. *)
Inductive Action :=
| Hide
| Show.

(** A popover element of the document: [object] is its identity as an
    object, [elementId] its [id]. *)
Record Element := mkElement {
  object : nat;
  elementId : string
}.

(** The variables of one mounted graph and what they refer to.
    [activePopover] is an element, in the document or not; [body] are the
    popover elements of the document in document order, whoever made
    them; [live] are the timers of this graph set and neither fired nor
    cleared, with their handles; [nextTimer] is the handle [setTimeout]
    gives next (handles are positive, so that [if (hideTimeout)] tests for
    null); [nextObject] is an identity that no element has yet;
    [inFlight] are the paths of the calls of [showGraphPopover] that wait
    for their fetch. *)
Record State := mkState {
  popoverTimeout : option nat;
  hideTimeout : option nat;
  activePopover : option nat;
  body : list Element;
  live : list (nat * Action);
  nextTimer : nat;
  nextObject : nat;
  inFlight : list string
}.

(** [if (t) clearTimeout(t)] *)
Definition clearTimeout (t : option nat) (l : list (nat * Action)) : list (nat * Action) :=
  match t with
  | Some h => filter (fun e => negb (Nat.eqb (fst e) h)) l
  | None => l
  end.

(** [el.remove()] *)
Definition remove (o : nat) (els : list Element) : list Element :=
  filter (fun e => negb (Nat.eqb (object e) o)) els.

(** [clearGraphPopover], lines 681-694. *)
Definition clearGraphPopover (st : State) : State :=
  mkState None None None
          (match activePopover st with
           | Some o => remove o (body st)
           | None => body st
           end)
          (clearTimeout (hideTimeout st) (clearTimeout (popoverTimeout st) (live st)))
          (nextTimer st) (nextObject st) (inFlight st).

(** [scheduleHidePopover], lines 696-701. *)
Definition scheduleHidePopover (st : State) : State :=
  mkState (popoverTimeout st) (Some (nextTimer st)) (activePopover st) (body st)
          ((nextTimer st, Hide) :: clearTimeout (hideTimeout st) (live st))
          (S (nextTimer st)) (nextObject st) (inFlight st).

(** [cancelHidePopover], lines 703-708. *)
Definition cancelHidePopover (st : State) : State :=
  mkState (popoverTimeout st) None (activePopover st) (body st)
          (clearTimeout (hideTimeout st) (live st))
          (nextTimer st) (nextObject st) (inFlight st).

(** [clearGraphPopover(); popoverTimeout = setTimeout(() =>
    showGraphPopover(...), 300)], lines 665-668 and 836-842. *)
Definition scheduleShow (st : State) : State :=
  let st1 := clearGraphPopover st in
  mkState (Some (nextTimer st1)) (hideTimeout st1) (activePopover st1) (body st1)
          ((nextTimer st1, Show) :: live st1)
          (S (nextTimer st1)) (nextObject st1) (inFlight st1).

(** [document.getElementById(id)], among the popover elements. *)
Definition getElementById (id : string) (els : list Element) : option Element :=
  find (fun e => String.eqb (elementId e) id) els.

Definition popoverId (pathname : string) : string := "graph-popover-" ++ pathname.

(** [showGraphPopover] up to its first [await], lines 711-724. [target]
    is the path of the URL made from the node id, [None] when making it
    throws; a call that finds no element with its id starts a fetch. *)
Definition showStart (target : option string) (st : State) : State :=
  let st1 := clearGraphPopover st in
  match target with
  | None => st1
  | Some pathname =>
      match getElementById (popoverId pathname) (body st1) with
      | Some existing =>
          mkState (popoverTimeout st1) (hideTimeout st1) (Some (object existing))
                  (body st1) (live st1) (nextTimer st1) (nextObject st1) (inFlight st1)
      | None =>
          mkState (popoverTimeout st1) (hideTimeout st1) (activePopover st1)
                  (body st1) (live st1) (nextTimer st1) (nextObject st1)
                  (inFlight st1 ++ [pathname])
      end
  end.

(** The tests of lines 725-740 on what the fetch gave: a response whose
    content type starts with [text/html] and whose body, once read, has
    an element of class [popover-hint]. *)
Definition previewable (fetched : Runtime.Fetched) : bool :=
  match fetched with
  | Runtime.FetchRejected => false
  | Runtime.FetchResolved response =>
      Js.startsWith (Runtime.contentTypeOf response) "text/html" &&
      match Runtime.hints response with
      | Some elts => negb (List.length elts =? 0)%nat
      | None => false
      end
  end.

(** One call fewer waits for [pathname]. *)
Fixpoint answered (pathname : string) (calls : list string) : list string :=
  match calls with
  | [] => []
  | p :: rest => if String.eqb p pathname then rest else p :: answered pathname rest
  end.

(** [showGraphPopover] from its first [await] on, lines 725-753, run
    when the fetch of a waiting call is answered and its body read: no
    variable is read on the way, the element is made, appended and made
    the active popover. *)
Definition showFinish (pathname : string) (fetched : Runtime.Fetched) (st : State) : State :=
  if Js.mem pathname (inFlight st) then
    if previewable fetched then
      mkState (popoverTimeout st) (hideTimeout st) (Some (nextObject st))
              (body st ++ [mkElement (nextObject st) (popoverId pathname)])
              (live st) (nextTimer st) (S (nextObject st))
              (answered pathname (inFlight st))
    else
      mkState (popoverTimeout st) (hideTimeout st) (activePopover st) (body st)
              (live st) (nextTimer st) (nextObject st)
              (answered pathname (inFlight st))
  else st.

(** An identity above [n] and above those of [els]. *)
Definition fresh (els : list Element) (n : nat) : nat :=
  fold_left Nat.max (map (fun e => S (object e)) els) n.

(** What happens to a mounted graph: the pointer comes over a node or
    leaves it, Alt goes down, the pointer enters or leaves a popover, the
    timer [h] fires (a show then computes [target]), the fetch of a call
    for [pathname] is answered, the graph is torn down; and other code,
    such as another graph of the page, leaves the popover elements [els]
    in the document. *)
Inductive Event :=
| PointerOver (altKeyDown : bool)
| PointerLeave
| KeyDownAlt (onNode : bool)
| PopoverEnter
| PopoverLeave
| Fire (h : nat) (target : option string)
| Answer (pathname : string) (fetched : Runtime.Fetched)
| Teardown
| Elsewhere (els : list Element).

(** The action of the live timer [h]. *)
Definition actionOf (h : nat) (l : list (nat * Action)) : option Action :=
  option_map snd (find (fun e => Nat.eqb (fst e) h) l).

Definition handle (ev : Event) (st : State) : State :=
  match ev with
  | PointerOver altKeyDown => if altKeyDown then scheduleShow st else st
  | PointerLeave => scheduleHidePopover st
  | KeyDownAlt onNode =>
      match onNode, activePopover st with
      | true, None => scheduleShow st
      | _, _ => st
      end
  | PopoverEnter => cancelHidePopover st
  | PopoverLeave => scheduleHidePopover st
  | Fire h target =>
      match actionOf h (live st) with
      | None => st
      | Some act =>
          let st1 :=
            mkState (popoverTimeout st) (hideTimeout st) (activePopover st) (body st)
                    (filter (fun e => negb (Nat.eqb (fst e) h)) (live st))
                    (nextTimer st) (nextObject st) (inFlight st) in
          match act with
          | Hide => clearGraphPopover st1
          | Show => showStart target st1
          end
      end
  | Answer pathname fetched => showFinish pathname fetched st
  | Teardown => clearGraphPopover st
  | Elsewhere els =>
      mkState (popoverTimeout st) (hideTimeout st) (activePopover st) els (live st)
              (nextTimer st) (fresh els (nextObject st)) (inFlight st)
  end.

Definition run (evs : list Event) (st : State) : State :=
  fold_left (fun s ev => handle ev s) evs st.

Definition start : State := mkState None None None [] [] 1 0 [].

(** Every live timer is the one a variable holds, with the action of
    that variable; handles are distinct and below [nextTimer]. *)
Definition tracked (st : State) : Prop :=
  (forall h a, In (h, a) (live st) ->
               (popoverTimeout st = Some h /\ a = Show) \/
               (hideTimeout st = Some h /\ a = Hide)) /\
  NoDup (map fst (live st)) /\
  (forall h a, In (h, a) (live st) -> h < nextTimer st).

(** [ev] is the answer of a fetch. *)
Definition isAnswer (ev : Event) : Prop :=
  match ev with
  | Answer _ _ => True
  | _ => False
  end.

End Async.

(** ** Headers *)

Module Header.

(** No semicolon in [p]. *)
Fixpoint plain (p : string) : bool :=
  match p with
  | EmptyString => true
  | String c p' => negb (Ascii.eqb c ";") && plain p'
  end.

End Header.

(** ** Placing the popover *)

Module Place.

(** [Math.round]: the integer nearest to a double, a tie going up. *)
Definition round (x : Q) : Z := Qfloor (x + (1 # 2))%Q.

(** [x + size > limit], the sum rounded to a double. *)
Definition overflows (x size : Q) (limit : Z) : bool :=
  negb (Qle_bool (Float.double (x + size))%Q (inject_Z limit)).

(** [positionGraphPopover], lines 756-772: the two numbers of the
    [translate(...)] it writes, for a window of [innerWidth] by
    [innerHeight]; every sum and difference is rounded to a double. *)
Definition positionGraphPopover (innerWidth innerHeight : Z) (clientX clientY : Q)
  : Z * Z :=
  let popoverWidth := 400%Q in
  let popoverMaxHeight := 300%Q in
  let margin := 10%Q in
  let x := Float.double (clientX + margin)%Q in
  let y := Float.double (clientY + margin)%Q in
  let x := if overflows x popoverWidth innerWidth
           then Float.double (Float.double (clientX - popoverWidth) - margin)%Q else x in
  let y := if overflows y popoverMaxHeight innerHeight
           then Float.double (Float.double (clientY - popoverMaxHeight) - margin)%Q else y in
  (round x, round y).

End Place.

(** ** The registries of teardown callbacks *)

Module Registry.

(** The two module variables and the renders under way. A mounted graph
    is known by the number of its teardown callback. [localArray] is the
    identity of the array that [localGraphCleanups] is bound to and
    [localGraphCleanups] what it holds, and so for the global one; an
    array that a variable no longer refers to is never read again, and
    [lost] are the callbacks pushed to such arrays. A render under way is
    the array that [X.push(await renderGraph(..))] took from the variable
    before the [await], with the number of containers still to come in
    its loop. [calls] are the callbacks called, in order. *)
Record State := mkState {
  localArray : nat;
  localGraphCleanups : list nat;
  globalArray : nat;
  globalGraphCleanups : list nat;
  nextArray : nat;
  nextCallback : nat;
  localRenders : list (nat * nat);
  globalRenders : list (nat * nat);
  lost : list nat;
  calls : list nat
}.

(** [cleanupLocalGraphs], lines 1046-1051. *)
Definition cleanupLocalGraphs (st : State) : State :=
  mkState (nextArray st) [] (globalArray st) (globalGraphCleanups st)
          (S (nextArray st)) (nextCallback st) (localRenders st) (globalRenders st)
          (lost st) (calls st ++ localGraphCleanups st).

(** [cleanupGlobalGraphs], lines 1053-1058. *)
Definition cleanupGlobalGraphs (st : State) : State :=
  mkState (localArray st) (localGraphCleanups st) (nextArray st) []
          (S (nextArray st)) (nextCallback st) (localRenders st) (globalRenders st)
          (lost st) (calls st ++ globalGraphCleanups st).

(** [renderLocalGraph] up to its first [await], lines 1064-1069, on a
    page with [containers] graph containers. *)
Definition renderLocalGraph (containers : nat) (st : State) : State :=
  let st1 := cleanupLocalGraphs st in
  match containers with
  | O => st1
  | S more =>
      mkState (localArray st1) (localGraphCleanups st1) (globalArray st1)
              (globalGraphCleanups st1) (nextArray st1) (nextCallback st1)
              (localRenders st1 ++ [(localArray st1, more)]) (globalRenders st1)
              (lost st1) (calls st1)
  end.

(** [renderGlobalGraph] up to its first [await], lines 1083-1098, with
    [containers] global graph containers. *)
Definition renderGlobalGraph (containers : nat) (st : State) : State :=
  match containers with
  | O => st
  | S more =>
      mkState (localArray st) (localGraphCleanups st) (globalArray st)
              (globalGraphCleanups st) (nextArray st) (nextCallback st)
              (localRenders st) (globalRenders st ++ [(globalArray st, more)])
              (lost st) (calls st)
  end.

(** The list without its entry at [i]. *)
Fixpoint without {A : Type} (i : nat) (l : list A) : list A :=
  match l, i with
  | [], _ => []
  | _ :: rest, O => rest
  | x :: rest, S j => x :: without j rest
  end.

(** The [await renderGraph(..)] of the local render at [i] is over: the
    callback is pushed to the array taken before the [await], and the
    loop goes on to the next container, taking the array from the
    variable again. *)
Definition localRendered (i : nat) (st : State) : State :=
  match nth_error (localRenders st) i with
  | None => st
  | Some (array, more) =>
      let callback := nextCallback st in
      let renders :=
        without i (localRenders st) ++
        match more with
        | O => []
        | S more' => [(localArray st, more')]
        end in
      if Nat.eqb array (localArray st) then
        mkState (localArray st) (localGraphCleanups st ++ [callback]) (globalArray st)
                (globalGraphCleanups st) (nextArray st) (S callback)
                renders (globalRenders st) (lost st) (calls st)
      else
        mkState (localArray st) (localGraphCleanups st) (globalArray st)
                (globalGraphCleanups st) (nextArray st) (S callback)
                renders (globalRenders st) (lost st ++ [callback]) (calls st)
  end.

(** The same for the global render at [i]. *)
Definition globalRendered (i : nat) (st : State) : State :=
  match nth_error (globalRenders st) i with
  | None => st
  | Some (array, more) =>
      let callback := nextCallback st in
      let renders :=
        without i (globalRenders st) ++
        match more with
        | O => []
        | S more' => [(globalArray st, more')]
        end in
      if Nat.eqb array (globalArray st) then
        mkState (localArray st) (localGraphCleanups st) (globalArray st)
                (globalGraphCleanups st ++ [callback]) (nextArray st) (S callback)
                (localRenders st) renders (lost st) (calls st)
      else
        mkState (localArray st) (localGraphCleanups st) (globalArray st)
                (globalGraphCleanups st) (nextArray st) (S callback)
                (localRenders st) renders (lost st ++ [callback]) (calls st)
  end.

(** [hideGlobalGraph], lines 1101-1110, as far as the registry goes. *)
Definition hideGlobalGraph (st : State) : State := cleanupGlobalGraphs st.

(** The cleanup registered at line 1128, run when the page is left. *)
Definition leavePage (st : State) : State := cleanupGlobalGraphs (cleanupLocalGraphs st).

(** A navigation or a theme change renders the local graphs, the icon or
    the shortcut opens or hides the global graph, a render comes to its
    end, the page is left. *)
Inductive Event :=
| Render (containers : nat)
| OpenGlobal (containers : nat)
| HideGlobal
| LocalRendered (i : nat)
| GlobalRendered (i : nat)
| LeavePage.

Definition handle (ev : Event) (st : State) : State :=
  match ev with
  | Render containers => renderLocalGraph containers st
  | OpenGlobal containers => renderGlobalGraph containers st
  | HideGlobal => hideGlobalGraph st
  | LocalRendered i => localRendered i st
  | GlobalRendered i => globalRendered i st
  | LeavePage => leavePage st
  end.

Definition run (evs : list Event) (st : State) : State :=
  fold_left (fun s ev => handle ev s) evs st.

Definition start : State := mkState 0 [] 1 [] 2 0 [] [] [] [].

(** Where the callbacks made so far are: in a registry, lost, or
    called. *)
Definition everywhere (st : State) : list nat :=
  localGraphCleanups st ++ globalGraphCleanups st ++ lost st ++ calls st.

(** Every callback below [nextCallback] is in one place and one only. *)
Definition accounted (st : State) : Prop :=
  NoDup (everywhere st) /\
  forall c, In c (everywhere st) <-> c < nextCallback st.

End Registry.

(** ** Where a page is filed *)

Module NodeSpec.

Import Index Graph.

(** The index has [url], with a path that has the folder [dir] on its
    way. *)
Definition filedUnder (data : ContentIndex) (url dir : string) : Prop :=
  exists details p,
    Index.get data url = Some details /\ filePath details = Some p /\ hasSegment dir p.

(** The node of a slug that the index does not have. *)
Definition bareNode (url : string) : NodeData :=
  mkNodeData url
    (if Js.startsWith url "tags/" then ("#" ++ Js.substringFrom 5 url)%string else url)
    [] None false false false false false false false.

End NodeSpec.

(** ** Fonts *)

Module Fonts.

(** [FontSpecification]; weights are whole numbers. *)
Inductive FontSpecification :=
| FontName (name : string)
| FontObject (name : string) (weights : option (list nat)) (includeItalic : option bool).

Inductive FontType := title | header | body | code.

(** [getFontSpecificationName], lines 54-60. *)
Definition getFontSpecificationName (spec : FontSpecification) : string :=
  match spec with
  | FontName name => name
  | FontObject name _ _ => name
  end.

(** A number in a template literal. *)
Definition showNumber (n : nat) : string := NilZero.string_of_uint (Nat.to_uint n).

(** [xs.sort()] on strings: by code unit. *)
Fixpoint insert (x : string) (xs : list string) : list string :=
  match xs with
  | [] => [x]
  | y :: ys => if String.leb x y then x :: xs else y :: insert x ys
  end.

Definition sort (xs : list string) : list string := fold_right insert [] xs.

Definition isHeader (type : FontType) : bool :=
  match type with header => true | _ => false end.

Definition isBody (type : FontType) : bool :=
  match type with body => true | _ => false end.

(** The weights and the italic flag in force, lines 70-73. *)
Definition weightsOf (type : FontType) (spec : FontSpecification) : list nat :=
  match spec with
  | FontObject _ (Some ws) _ => ws
  | _ => if isHeader type then [400; 700] else [400; 600]
  end.

Definition italicOf (type : FontType) (spec : FontSpecification) : bool :=
  match spec with
  | FontObject _ _ (Some b) => b
  | _ => isBody type
  end.

(** The list [features], lines 75-89. *)
Definition features (type : FontType) (spec : FontSpecification) : list string :=
  let weights := weightsOf type spec in
  let italic := italicOf type spec in
  (if italic then ["ital"] else []) ++
  (if Nat.ltb 1 (List.length weights) then
     let weightSpec :=
       if italic then
         String.concat ";"
           (sort (flat_map (fun w => [("0," ++ showNumber w)%string;
                                       ("1," ++ showNumber w)%string]) weights))
       else String.concat ";" (map showNumber weights) in
     [("wght@" ++ weightSpec)%string]
   else []).

(** [formatFontSpecification], lines 62-96. *)
Definition formatFontSpecification (type : FontType) (spec : FontSpecification) : string :=
  let fs := features type spec in
  if Nat.ltb 0 (List.length fs)
  then (getFontSpecificationName spec ++ ":" ++ String.concat "," fs)%string
  else getFontSpecificationName spec.

(** [googleFontHref], lines 98-105, of the three fonts of
    [theme.typography]. *)
Definition googleFontHref (headerFont bodyFont codeFont : FontSpecification) : string :=
  ("https://fonts.googleapis.com/css2?family=" ++
   formatFontSpecification header headerFont ++ "&family=" ++
   formatFontSpecification body bodyFont ++ "&family=" ++
   formatFontSpecification code codeFont ++ "&display=swap")%string.

End Fonts.

(** ** More small inputs *)

Module Samples.

Import Index Examples.

(** A loop that has stopped, before any hover. *)
Definition idleLoop : Runtime.Loop := Runtime.mkLoop [] false false 0 false.

Definition htmlPage : Runtime.Response :=
  Runtime.mkResponse 200 (Some "text/html; charset=utf-8") (Some ["<article>"]).

(** A call of [showGraphPopover] for [/B] that waits for its fetch when
    the graph is torn down. *)
Definition tornDownInFlight : Async.State :=
  Async.run [Async.PointerOver true; Async.Fire 1 (Some "/B"); Async.Teardown] Async.start.

(** A document in which another graph of the page has left the popover
    of [/B]. *)
Definition leftInDocument : Async.State :=
  Async.run [Async.Elsewhere [Async.mkElement 7 "graph-popover-/B"]] Async.start.

Definition aToB : Neighbourhood.SimpleLinkData := Neighbourhood.mkLink "A" "B".

End Samples.

(** * Facts about sets as lists *)

Section JsFacts.

Lemma mem_In : forall x l, Js.mem x l = true <-> In x l.
Proof.
  intros x l. unfold Js.mem. rewrite existsb_exists. split.
  - intros [y [Hy Heq]]. apply String.eqb_eq in Heq. now subst.
  - intros H. exists x. split; [assumption | apply String.eqb_refl].
Qed.

Lemma mem_false : forall x l, Js.mem x l = false <-> ~ In x l.
Proof.
  intros x l. rewrite <- mem_In. destruct (Js.mem x l); split; congruence.
Qed.

Lemma set_add_In : forall x s y, In y (Js.set_add x s) <-> y = x \/ In y s.
Proof.
  intros x s y. unfold Js.set_add. destruct (Js.mem x s) eqn:E.
  - apply mem_In in E. split; [tauto | intros [-> | H]; assumption].
  - rewrite in_app_iff. simpl. intuition congruence.
Qed.

Lemma set_add_all_In : forall xs s y,
    In y (Js.set_add_all xs s) <-> In y xs \/ In y s.
Proof.
  unfold Js.set_add_all. induction xs as [|x xs IH]; intros s y; simpl.
  - tauto.
  - rewrite IH, set_add_In. intuition congruence.
Qed.

Lemma set_add_all_app : forall xs ys s,
    Js.set_add_all (xs ++ ys) s = Js.set_add_all ys (Js.set_add_all xs s).
Proof. intros. unfold Js.set_add_all. apply fold_left_app. Qed.

Lemma set_of_In : forall xs y, In y (Js.set_of xs) <-> In y xs.
Proof. intros. unfold Js.set_of. rewrite set_add_all_In. simpl. tauto. Qed.

End JsFacts.

(** * The worklist loop *)

Section Worklist.

Import Neighbourhood Reach.

Variable links : list SimpleLinkData.

Lemma bfs_step_stop : forall st, (bfsDepth st < 0)%Z -> bfs_step links st = None.
Proof.
  intros st H. unfold bfs_step.
  destruct (0 <=? bfsDepth st)%Z eqn:E; [apply Z.leb_le in E; lia | reflexivity].
Qed.

Lemma bfs_run_more : forall f st fin,
    bfs_run f links st = Some fin ->
    forall f', f <= f' -> bfs_run f' links st = Some fin.
Proof.
  induction f as [|f IH]; intros st fin H f' Hle.
  - simpl in H. destruct (bfs_step links st) eqn:E; [discriminate|].
    destruct f'; simpl; rewrite E; assumption.
  - destruct f' as [|f']; [lia|]. simpl in *.
    destruct (bfs_step links st) eqn:E; [|assumption].
    apply IH with (f' := f') in H; [assumption | lia].
Qed.

Lemma bfs_run_det : forall f1 f2 st a b,
    bfs_run f1 links st = Some a -> bfs_run f2 links st = Some b -> a = b.
Proof.
  intros f1 f2 st a b Ha Hb.
  apply bfs_run_more with (f' := Nat.max f1 f2) in Ha; [|lia].
  apply bfs_run_more with (f' := Nat.max f1 f2) in Hb; [|lia].
  congruence.
Qed.

(** A round: the entries before the first sentinel, then the sentinel. *)
Lemma bfs_round : forall pre post d nb f,
    (0 <= d)%Z -> ~ In SENTINEL pre ->
    bfs_run (List.length pre + 1 + f) links (mkBfs d (pre ++ SENTINEL :: post) nb) =
    bfs_run f links
            (mkBfs (d - 1) (post ++ flat_map (pushed links) pre ++ [SENTINEL])
                   (Js.set_add_all pre nb)).
Proof.
  induction pre as [|c pre IH]; intros post d nb f Hd Hpre.
  - simpl. unfold bfs_step at 1. simpl.
    destruct (0 <=? d)%Z eqn:E; [|apply Z.leb_gt in E; lia].
    reflexivity.
  - simpl List.length. simpl Nat.add.
    change (bfs_run (S (List.length pre + 1 + f)) links
                    (mkBfs d ((c :: pre) ++ SENTINEL :: post) nb))
      with (match bfs_step links (mkBfs d ((c :: pre) ++ SENTINEL :: post) nb) with
            | None => Some (mkBfs d ((c :: pre) ++ SENTINEL :: post) nb)
            | Some st' => bfs_run (List.length pre + 1 + f) links st'
            end).
    unfold bfs_step. simpl.
    destruct (0 <=? d)%Z eqn:E; [|apply Z.leb_gt in E; lia].
    destruct (String.eqb c SENTINEL) eqn:Ec.
    + apply String.eqb_eq in Ec. exfalso. apply Hpre. now left.
    + rewrite <- app_assoc. simpl.
      rewrite IH; [|assumption | intros H; apply Hpre; now right].
      unfold Js.set_add_all at 2. simpl.
      rewrite <- !app_assoc. reflexivity.
Qed.

Lemma first_sentinel : forall l,
    In SENTINEL l ->
    exists pre post, l = pre ++ SENTINEL :: post /\ ~ In SENTINEL pre.
Proof.
  induction l as [|c l IH]; intros H; [destruct H|].
  destruct (string_dec c SENTINEL) as [->|Hc].
  - exists [], l. split; [reflexivity | intros []].
  - destruct H as [H|H]; [congruence|].
    destruct (IH H) as [pre [post [-> Hp]]].
    exists (c :: pre), post. split; [reflexivity|].
    intros [E|E]; [congruence | contradiction].
Qed.

Lemma pushed_length : forall c, List.length (pushed links c) <= 2 * List.length links.
Proof.
  intros c. unfold pushed, outgoingOf, incomingOf.
  rewrite length_app, !length_map.
  pose proof (filter_length_le (fun l => String.eqb (source l) c) links).
  pose proof (filter_length_le (fun l => String.eqb (target l) c) links).
  lia.
Qed.

Lemma flat_pushed_length : forall w,
    List.length (flat_map (pushed links) w) <= List.length w * (2 * List.length links).
Proof.
  induction w as [|c w IH]; simpl; [lia|].
  rewrite length_app. pose proof (pushed_length c). lia.
Qed.

Lemma rounds_fuel_mono : forall m r n n',
    n <= n' -> rounds_fuel m r n <= rounds_fuel m r n'.
Proof.
  induction r as [|r IH]; intros n n' H; simpl; [lia|].
  assert (rounds_fuel m r (n * S m) <= rounds_fuel m r (n' * S m)).
  { apply IH. nia. }
  lia.
Qed.

(** The loop ends within [rounds_fuel] iterations, whatever the worklist
    holds, as long as a sentinel is in it. *)
Lemma bfs_run_ends : forall r d l nb n,
    (d + 1 <= Z.of_nat r)%Z -> In SENTINEL l -> List.length l <= n ->
    exists fin,
      bfs_run (rounds_fuel (2 * List.length links) r n) links (mkBfs d l nb) = Some fin /\
      (bfsDepth fin < 0)%Z.
Proof.
  induction r as [|r IH]; intros d l nb n Hd Hin Hlen.
  - exists (mkBfs d l nb). simpl. rewrite bfs_step_stop; simpl; [split|]; [reflexivity|lia|lia].
  - destruct (Z_lt_ge_dec d 0) as [Hneg|Hpos].
    + exists (mkBfs d l nb). split; [|assumption].
      destruct (rounds_fuel _ _ _); simpl; rewrite bfs_step_stop; auto.
    + destruct (first_sentinel l Hin) as [pre [post [-> Hpre]]].
      rewrite length_app in Hlen. simpl in Hlen.
      set (m := 2 * List.length links) in *.
      destruct (IH (d - 1)%Z (post ++ flat_map (pushed links) pre ++ [SENTINEL])
                   (Js.set_add_all pre nb) (n * (1 + m))) as [fin [Hrun Hfin]].
      * lia.
      * rewrite !in_app_iff. right. right. now left.
      * rewrite !length_app. simpl.
        pose proof (flat_pushed_length pre). fold m in H. nia.
      * exists fin. split; [|assumption].
        apply bfs_run_more with (f := List.length pre + 1 + rounds_fuel m r (n * (1 + m))).
        -- rewrite bfs_round; [assumption | lia | assumption].
        -- simpl. lia.
Qed.

Lemma bfs_terminates_from : forall slug d,
    exists fin,
      bfs_run (bfs_fuel links d) links (bfs_init slug d) = Some fin /\
      (bfsDepth fin < 0)%Z.
Proof.
  intros slug d. unfold bfs_fuel, bfs_init.
  apply bfs_run_ends.
  - destruct (Z_lt_ge_dec (d + 1) 0); [lia|]. rewrite Z2Nat.id; lia.
  - simpl. right. now left.
  - simpl. lia.
Qed.

End Worklist.

Section Layers.

Import Neighbourhood Reach.

Variable links : list SimpleLinkData.

Lemma pushed_adjacent : forall u v, In v (pushed links u) <-> adjacent links u v.
Proof.
  intros u v. unfold pushed, outgoingOf, incomingOf, adjacent.
  rewrite in_app_iff, !in_map_iff. split.
  - intros [[l [Hv Hl]] | [l [Hv Hl]]]; apply filter_In in Hl;
      destruct Hl as [Hl He]; apply String.eqb_eq in He; exists l; auto.
  - intros [l [Hl [[Hs Ht] | [Ht Hs]]]]; [left | right]; exists l;
      (split; [assumption|]); apply filter_In; (split; [assumption|]);
      apply String.eqb_eq; assumption.
Qed.


Lemma layers_In : forall r w x,
    In x (layers links r w) <-> exists k, k < r /\ In x (layerAt links k w).
Proof.
  induction r as [|r IH]; intros w x; simpl.
  - split; [intros [] | intros [k [Hk _]]; lia].
  - rewrite in_app_iff, IH. split.
    + intros [H | [k [Hk H]]].
      * exists 0. split; [lia | assumption].
      * exists (S k). split; [lia | assumption].
    + intros [[|k] [Hk H]].
      * left. assumption.
      * right. exists k. split; [lia | assumption].
Qed.

Lemma markerFree_pushed : markerFree links -> forall c, ~ In SENTINEL (pushed links c).
Proof.
  intros Hfree c H. apply pushed_adjacent in H.
  destruct H as [l [Hl [[_ Ht] | [_ Hs]]]]; destruct (Hfree l Hl); congruence.
Qed.

Lemma markerFree_layerAt : markerFree links ->
    forall k w, ~ In SENTINEL w -> ~ In SENTINEL (layerAt links k w).
Proof.
  intros Hfree. induction k as [|k IH]; intros w Hw; simpl; [assumption|].
  apply IH. intros H. apply in_flat_map in H. destruct H as [c [_ Hc]].
  exact (markerFree_pushed Hfree c Hc).
Qed.

(** The state at loop exit when no entry of the first [r] rounds is the
    marker: every round takes exactly the entries of its layer. *)
Lemma bfs_layers : forall r w d nb,
    d = (Z.of_nat r - 1)%Z ->
    (forall k, k < r -> ~ In SENTINEL (layerAt links k w)) ->
    exists f,
      bfs_run f links (mkBfs d (w ++ [SENTINEL]) nb) =
      Some (mkBfs (-1) (layerAt links r w ++ [SENTINEL])
                  (Js.set_add_all (layers links r w) nb)).
Proof.
  induction r as [|r IH]; intros w d nb Hd Hfree.
  - exists 0. subst d. simpl. reflexivity.
  - destruct (IH (flat_map (pushed links) w) (d - 1)%Z (Js.set_add_all w nb))
      as [f Hf].
    + lia.
    + intros k Hk. apply (Hfree (S k)). lia.
    + exists (List.length w + 1 + f).
      rewrite bfs_round; [| lia | apply (Hfree 0); lia].
      simpl. rewrite set_add_all_app. exact Hf.
Qed.

(** The loop from [[slug; SENTINEL]], by rounds. *)
Lemma bfs_init_layers : forall slug d fin f,
    (0 <= d)%Z ->
    (forall k, k < Z.to_nat (d + 1) -> ~ In SENTINEL (layerAt links k [slug])) ->
    bfs_run f links (bfs_init slug d) = Some fin ->
    neighbourhood fin = Js.set_of (layers links (Z.to_nat (d + 1)) [slug]).
Proof.
  intros slug d fin f Hd Hfree Hrun.
  destruct (bfs_layers (Z.to_nat (d + 1)) [slug] d [] ) as [f' Hf']; [lia | assumption |].
  change ([slug] ++ [SENTINEL]) with [slug; SENTINEL] in Hf'.
  unfold bfs_init in Hrun.
  rewrite (bfs_run_det links _ _ _ _ _ Hrun Hf'). reflexivity.
Qed.


(** *** Invariants of the worklist *)






Lemma entry_pop : forall st st' c rest,
    bfs_step links st = Some st' -> wl st = c :: rest -> c <> SENTINEL ->
    bfsDepth st' = bfsDepth st.
Proof.
  intros st st' c rest Hstep Hwl Hc. unfold bfs_step in Hstep. rewrite Hwl in Hstep.
  destruct (0 <=? bfsDepth st)%Z; [|discriminate].
  apply String.eqb_neq in Hc. rewrite Hc in Hstep. inversion Hstep; subst. reflexivity.
Qed.

End Layers.

(** * The link list *)

Section LinkList.

Import Index Neighbourhood Reach.

Variable simplifySlug : string -> string.
Variable cfg : D3Config.

Lemma localTags_In : forall details t,
    In t (localTags simplifySlug cfg details) <->
    exists tag, In tag (tags details) /\ ~ In tag (removeTags cfg) /\
                t = simplifySlug ("tags/" ++ tag)%string.
Proof.
  intros details t. unfold localTags. rewrite in_map_iff. split.
  - intros [tag [Ht Hin]]. apply filter_In in Hin. destruct Hin as [Hin Hk].
    exists tag. repeat split; [assumption | | congruence].
    apply mem_false. destruct (Js.mem tag (removeTags cfg)); [discriminate | reflexivity].
  - intros [tag [Hin [Hk Ht]]]. exists tag. split; [congruence|].
    apply filter_In. split; [assumption|].
    apply mem_false in Hk. rewrite Hk. reflexivity.
Qed.

Lemma addEntry_tags : forall vl acc e t,
    In t (accTags (addEntry simplifySlug cfg vl acc e)) <->
    In t (accTags acc) \/
    (showTags cfg = true /\ In t (localTags simplifySlug cfg (snd e))).
Proof.
  intros vl acc [src details] t. unfold addEntry. simpl snd.
  destruct (showTags cfg); simpl.
  - rewrite in_app_iff, filter_In. split.
    + intros [H | [H _]]; auto.
    + intros [H | [_ H]]; [now left|].
      destruct (Js.mem t (accTags acc)) eqn:E.
      * left. apply mem_In. assumption.
      * right. split; [assumption | reflexivity].
  - split; [auto | intros [H | [H _]]; [assumption | discriminate]].
Qed.

Lemma fold_addEntry_tags : forall vl entries acc t,
    In t (accTags (fold_left (addEntry simplifySlug cfg vl) entries acc)) <->
    In t (accTags acc) \/
    (showTags cfg = true /\
     exists e, In e entries /\ In t (localTags simplifySlug cfg (snd e))).
Proof.
  intros vl. induction entries as [|e entries IH]; intros acc t; simpl.
  - split; [auto | intros [H | [_ [e [[] _]]]]; assumption].
  - rewrite IH, addEntry_tags. split.
    + intros [[H | [Hs H]] | [Hs [e' [He' H]]]]; auto.
      * right. split; [assumption|]. exists e. auto.
      * right. split; [assumption|]. exists e'. auto.
    + intros [H | [Hs [e' [[<- | He'] H]]]]; auto.
      right. split; [assumption|]. exists e'. auto.
Qed.

Lemma accTags_drawn : forall data t,
    In t (accTags (buildLinks simplifySlug cfg data)) <->
    showTags cfg = true /\ drawnTag simplifySlug cfg data t.
Proof.
  intros data t. unfold buildLinks. rewrite fold_addEntry_tags. simpl.
  unfold drawnTag. split.
  - intros [[] | [Hs [[src details] [He H]]]]. split; [assumption|].
    apply localTags_In in H. destruct H as [tag [H1 [H2 H3]]].
    exists src, details, tag. auto.
  - intros [Hs [src [details [tag [He [H1 [H2 H3]]]]]]]. right. split; [assumption|].
    exists (src, details). split; [assumption|].
    apply localTags_In. exists tag. auto.
Qed.

Lemma addEntry_endpoints : forall keys vl acc e,
    (forall x, In x vl -> In x keys) -> In (fst e) keys ->
    endpointsFrom keys acc ->
    endpointsFrom keys (addEntry simplifySlug cfg vl acc e).
Proof.
  intros keys vl acc e Hvl Hsrc Hacc l Hl.
  assert (Htags : forall t, In t (accTags acc) ->
                            In t (accTags (addEntry simplifySlug cfg vl acc e))).
  { intros t Ht. apply addEntry_tags. now left. }
  assert (Hlt : showTags cfg = true ->
                forall t, In t (localTags simplifySlug cfg (snd e)) ->
                          In t (accTags (addEntry simplifySlug cfg vl acc e))).
  { intros Hs t Ht. apply addEntry_tags. right. auto. }
  destruct e as [src details]. simpl in Hsrc, Hlt. unfold addEntry in Hl.
  assert (Hcontent : forall l0,
             In l0 (accLinks acc ++
                    map (fun dest => mkLink src dest)
                        (filter (fun dest => Js.mem dest vl)
                                (match links details with Some l1 => l1 | None => [] end))) ->
             In (source l0) keys /\
             (In (target l0) keys \/
              In (target l0) (accTags (addEntry simplifySlug cfg vl acc (src, details))))).
  { intros l0 H0. apply in_app_iff in H0. destruct H0 as [H0 | H0].
    - destruct (Hacc l0 H0) as [Hs [Ht | Ht]]; auto.
    - apply in_map_iff in H0. destruct H0 as [dest [<- Hd]]. simpl.
      apply filter_In in Hd. destruct Hd as [_ Hd]. apply mem_In in Hd. auto. }
  destruct (showTags cfg) eqn:Es; simpl in Hl.
  - apply in_app_iff in Hl. destruct Hl as [Hl | Hl]; [apply Hcontent; assumption|].
    apply in_map_iff in Hl. destruct Hl as [tag [<- Ht]]. cbn [source target].
    split; [assumption | right].
    unfold addEntry. rewrite Es. exact (Hlt eq_refl tag Ht).
  - apply Hcontent. assumption.
Qed.

Lemma fold_addEntry_endpoints : forall keys vl entries acc,
    (forall x, In x vl -> In x keys) ->
    (forall e, In e entries -> In (fst e) keys) ->
    endpointsFrom keys acc ->
    endpointsFrom keys (fold_left (addEntry simplifySlug cfg vl) entries acc).
Proof.
  intros keys vl. induction entries as [|e entries IH]; intros acc Hvl Hk Hacc; simpl.
  - assumption.
  - apply IH; [assumption | intros e' He'; apply Hk; now right |].
    apply addEntry_endpoints; [assumption | apply Hk; now left | assumption].
Qed.

Lemma buildLinks_endpoints : forall data,
    endpointsFrom (map fst data) (buildLinks simplifySlug cfg data).
Proof.
  intros data. unfold buildLinks. apply fold_addEntry_endpoints.
  - intros x Hx. unfold validLinks in Hx. rewrite set_of_In in Hx. assumption.
  - intros e He. apply in_map. assumption.
  - intros l [].
Qed.

(** A slug that is neither a page nor a drawn tag is on no link. *)
Lemma stranger_pushes_nothing : forall data slug,
    ~ In slug (map fst data) ->
    ~ (showTags cfg = true /\ drawnTag simplifySlug cfg data slug) ->
    pushed (accLinks (buildLinks simplifySlug cfg data)) slug = [] /\
    forall l, In l (accLinks (buildLinks simplifySlug cfg data)) -> source l <> slug.
Proof.
  intros data slug Hkey Htag.
  assert (Hno : forall l, In l (accLinks (buildLinks simplifySlug cfg data)) ->
                          source l <> slug /\ target l <> slug).
  { intros l Hl. destruct (buildLinks_endpoints data l Hl) as [Hs Ht]. split.
    - intros E. apply Hkey. congruence.
    - intros E. destruct Ht as [Ht | Ht].
      + apply Hkey. congruence.
      + apply Htag. apply accTags_drawn. congruence. }
  split; [|intros l Hl; apply (Hno l Hl)].
  destruct (pushed _ slug) as [|v rest] eqn:E; [reflexivity|].
  assert (Hv : In v (pushed (accLinks (buildLinks simplifySlug cfg data)) slug))
    by (rewrite E; now left).
  apply pushed_adjacent in Hv. destruct Hv as [l [Hl [[Hs _] | [Ht _]]]];
    destruct (Hno l Hl); contradiction.
Qed.

End LinkList.

Section Rounds.

Import Neighbourhood Reach.

Variable links : list SimpleLinkData.

Lemma layerAt_nil : forall k, layerAt links k [] = [].
Proof. induction k as [|k IH]; simpl; [reflexivity | assumption]. Qed.

Lemma layers_nil : forall r, layers links r [] = [].
Proof. induction r as [|r IH]; simpl; [reflexivity | assumption]. Qed.

Lemma layers_alone : forall r slug,
    pushed links slug = [] -> layers links (S r) [slug] = [slug].
Proof.
  intros r slug H. simpl. rewrite H. simpl. rewrite layers_nil. reflexivity.
Qed.

Lemma layerAt_alone : forall k slug,
    pushed links slug = [] -> slug <> SENTINEL -> ~ In SENTINEL (layerAt links k [slug]).
Proof.
  intros [|k] slug H Hs; simpl.
  - intros [E | []]. congruence.
  - rewrite H. simpl. rewrite layerAt_nil. intros [].
Qed.

End Rounds.

Section NeighbourhoodTheorems.

Import Index Neighbourhood Reach.

Lemma computeNeighbourhood_loop : forall simplifySlug cfg data slug,
    (0 <= depth cfg)%Z ->
    exists fin,
      bfs_run (bfs_fuel (accLinks (buildLinks simplifySlug cfg data)) (depth cfg))
              (accLinks (buildLinks simplifySlug cfg data))
              (bfs_init slug (depth cfg)) = Some fin /\
      computeNeighbourhood simplifySlug cfg data slug = Some (neighbourhood fin).
Proof.
  intros ss cfg data slug Hd.
  destruct (bfs_terminates_from (accLinks (buildLinks ss cfg data)) slug (depth cfg))
    as [fin [Hrun _]].
  exists fin. split; [assumption|].
  unfold computeNeighbourhood.
  destruct (0 <=? depth cfg)%Z eqn:E; [|apply Z.leb_gt in E; lia].
  rewrite Hrun. reflexivity.
Qed.

Lemma computeNeighbourhood_all : forall simplifySlug cfg data slug,
    (depth cfg < 0)%Z ->
    exists nb,
      computeNeighbourhood simplifySlug cfg data slug = Some nb /\
      forall x, In x nb <->
                In x (map fst data) \/
                (showTags cfg = true /\ drawnTag simplifySlug cfg data x).
Proof.
  intros ss cfg data slug Hd. unfold computeNeighbourhood.
  destruct (0 <=? depth cfg)%Z eqn:E; [apply Z.leb_le in E; lia|].
  eexists. split; [reflexivity|]. intros x.
  destruct (showTags cfg) eqn:Es.
  - rewrite !set_add_all_In, accTags_drawn, Es. unfold validLinks.
    rewrite set_of_In. simpl. tauto.
  - rewrite set_add_all_In. unfold validLinks. rewrite set_of_In. simpl.
    split; [intros [H | []]; auto | intros [H | [H _]]; [auto | discriminate]].
Qed.

Lemma computeNeighbourhood_total : forall simplifySlug cfg data slug,
    exists nb, computeNeighbourhood simplifySlug cfg data slug = Some nb.
Proof.
  intros ss cfg data slug. destruct (Z_lt_ge_dec (depth cfg) 0) as [H | H].
  - destruct (computeNeighbourhood_all ss cfg data slug H) as [nb [Hnb _]]. eauto.
  - destruct (computeNeighbourhood_loop ss cfg data slug) as [fin [_ Hnb]]; [lia | eauto].
Qed.

End NeighbourhoodTheorems.

Section GraphData.

Import Index Graph.

Variable data : ContentIndex.

Lemma mkNode_id : forall url, id (mkNode data url) = url.
Proof. reflexivity. Qed.

Lemma nodeMap_get_node : forall nb s,
    In s nb -> nodeMap_get (map (mkNode data) nb) s = Some (mkNode data s).
Proof.
  unfold nodeMap_get. induction nb as [|u nb IH]; intros s Hs; [destruct Hs|].
  simpl. destruct (String.eqb u s) eqn:E.
  - apply String.eqb_eq in E. now subst.
  - apply IH. destruct Hs as [Hs | Hs]; [|assumption].
    subst. rewrite String.eqb_refl in E. discriminate.
Qed.

Lemma resolveLinks_kept : forall nb ls,
    (forall l, In l ls -> In (Neighbourhood.source l) nb /\ In (Neighbourhood.target l) nb) ->
    resolveLinks (map (mkNode data) nb) ls = Some (map (resolved data) ls).
Proof.
  intros nb. induction ls as [|l ls IH]; intros H; simpl; [reflexivity|].
  destruct (H l (or_introl eq_refl)) as [Hs Ht].
  rewrite (nodeMap_get_node nb _ Hs), (nodeMap_get_node nb _ Ht), IH.
  - reflexivity.
  - intros l' Hl'. apply H. now right.
Qed.

Lemma graphData_built : forall links nb,
    graphData data links nb =
    Some (mkGraphData (map (mkNode data) nb) (map (resolved data) (keptLinks links nb))).
Proof.
  intros links nb. unfold graphData.
  rewrite resolveLinks_kept; [reflexivity|].
  intros l Hl. unfold keptLinks in Hl. apply filter_In in Hl. destruct Hl as [_ Hl].
  apply andb_true_iff in Hl. destruct Hl as [Hs Ht].
  split; apply mem_In; assumption.
Qed.

Lemma keptLinks_none : forall ls slug,
    (forall l, In l ls -> Neighbourhood.source l <> slug) ->
    keptLinks ls [slug] = [].
Proof.
  unfold keptLinks. induction ls as [|l ls IH]; intros slug H; [reflexivity|].
  simpl. assert (Hl : Neighbourhood.source l <> slug) by (apply H; now left).
  apply String.eqb_neq in Hl. rewrite Hl. simpl. apply IH.
  intros l' Hl'. apply H. now right.
Qed.

End GraphData.

Section GraphTheorems.

Import Index Graph Reach.

(** C2: the build always yields graph data, and every link of it has
    its source and its target, as nodes of the graph, in the computed
    neighbourhood. *)
Theorem rendered_links_in_neighbourhood :
  forall (simplifySlug : string -> string) cfg data slug,
  exists nb g,
    Neighbourhood.computeNeighbourhood simplifySlug cfg data slug = Some nb /\
    buildGraph simplifySlug cfg data slug = Some (Some g) /\
    nodes g = map (mkNode data) nb /\
    forall l, In l (links g) ->
              In (id (source l)) nb /\ In (id (target l)) nb /\
              In (source l) (nodes g) /\ In (target l) (nodes g).
Proof.
  intros ss cfg data slug.
  destruct (computeNeighbourhood_total ss cfg data slug) as [nb Hnb].
  exists nb. eexists. split; [assumption|]. split; [|split].
  - unfold buildGraph. rewrite Hnb. simpl. rewrite graphData_built. reflexivity.
  - reflexivity.
  - simpl. intros l Hl. apply in_map_iff in Hl. destruct Hl as [sl [<- Hsl]].
    unfold keptLinks in Hsl. apply filter_In in Hsl. destruct Hsl as [_ Hsl].
    apply andb_true_iff in Hsl. destruct Hsl as [Hs Ht].
    apply mem_In in Hs. apply mem_In in Ht. simpl.
    repeat split; try assumption; apply in_map; assumption.
Qed.

End GraphTheorems.

(** * Strings *)

Section StringFacts.

Lemma prefix_append : forall p s,
    String.prefix p s = true <-> exists r, s = (p ++ r)%string.
Proof.
  induction p as [|c p IH]; intros s.
  - destruct s; simpl; (split; [intros _; eexists; reflexivity | intros _; reflexivity]).
  - destruct s as [|c' s]; simpl.
    + split; [discriminate | intros [r H]; discriminate].
    + destruct (ascii_dec c c') as [->|Hc].
      * rewrite IH. split; intros [r H]; exists r; congruence.
      * split; [discriminate | intros [r H]; congruence].
Qed.

Lemma includes_unfold : forall s p,
    Js.includes s p =
    String.prefix p s ||
    match s with EmptyString => false | String _ s' => Js.includes s' p end.
Proof. intros [|c s] p; reflexivity. Qed.

Lemma includes_append : forall s p,
    Js.includes s p = true <-> exists a b, s = (a ++ p ++ b)%string.
Proof.
  induction s as [|c s IH]; intros p; rewrite includes_unfold.
  - rewrite orb_false_r, prefix_append. split.
    + intros [r H]. exists EmptyString, r. assumption.
    + intros [[|a0 a] [b H]]; [exists b; assumption | discriminate].
  - rewrite orb_true_iff, IH, prefix_append. split.
    + intros [[r H] | [a [b H]]].
      * exists EmptyString, r. assumption.
      * exists (String c a), b. simpl. congruence.
    + intros [[|a0 a] [b H]].
      * left. exists b. assumption.
      * right. simpl in H. exists a, b. congruence.
Qed.

Lemma append_assoc : forall a b c : string, ((a ++ b) ++ c = a ++ (b ++ c))%string.
Proof. induction a as [|x a IH]; intros b c; simpl; [reflexivity | now rewrite IH]. Qed.

Lemma append_nil_r : forall a : string, (a ++ EmptyString)%string = a.
Proof. induction a as [|x a IH]; simpl; [reflexivity | now rewrite IH]. Qed.

End StringFacts.

(** * Categories *)

Section Categories.

Import Index Graph.

(** The test of the flags is the test for a folder on the path. *)
Lemma underFolder_segment : forall dir p,
    underFolder dir (Some p) = true <-> hasSegment dir p.
Proof.
  intros dir p. unfold underFolder, hasSegment, Js.startsWith.
  rewrite andb_true_iff, orb_true_iff, negb_true_iff, prefix_append, includes_append.
  split.
  - intros [_ [[r H] | [a [b H]]]].
    + exists EmptyString, r. split; [|now left]. rewrite H. simpl. apply append_assoc.
    + exists (a ++ "/")%string, b. split; [|right; exists a; reflexivity].
      rewrite H. rewrite !append_assoc. reflexivity.
  - intros [pre [post [H Hpre]]]. split.
    + apply String.eqb_neq. intros E. subst p.
      destruct pre; [destruct dir|]; discriminate.
    + destruct Hpre as [-> | [pre' ->]].
      * left. exists post. rewrite H. simpl. symmetry. apply append_assoc.
      * right. exists pre', post. rewrite H. rewrite !append_assoc. reflexivity.
Qed.

Lemma underFolder_iff : forall dir p b,
    underFolder dir (Some p) = b -> (b = true <-> hasSegment dir p).
Proof. intros dir p b <-. apply underFolder_segment. Qed.

(** C6 (amended): a node whose source path has the folder [Model] on
    its way has the model flag; each other topic flag is set exactly when
    the path has that folder on its way as well, so the model topic is the
    only one exactly when no other topic folder is on the path; a node
    whose id starts with ["tags/"] is a tag node. *)
Theorem model_flag_and_tag_nodes :
  (forall data url details p,
      Index.get data url = Some details -> filePath details = Some p ->
      hasSegment "Model" p ->
      let n := mkNode data url in
      sourcePath n = Some p /\
      isModelTopicNode n = true /\
      (isConceptTopicNode n = true <-> hasSegment "Concept" p) /\
      (isDatasetTopicNode n = true <-> hasSegment "Dataset" p) /\
      (isLibraryTopicNode n = true <-> hasSegment "Library" p) /\
      (isPlatformTopicNode n = true <-> hasSegment "Platform" p) /\
      (isToolTopicNode n = true <-> hasSegment "Tool" p)) /\
  (forall data url,
      Js.startsWith url "tags/" = true ->
      isTagNode (mkNode data url) = true /\
      text (mkNode data url) = ("#" ++ Js.substringFrom 5 url)%string).
Proof.
  split.
  - intros data url details p Hget Hpath Hseg n. subst n. unfold mkNode.
    rewrite Hget, Hpath. cbn [sourcePath isModelTopicNode isConceptTopicNode
      isDatasetTopicNode isLibraryTopicNode isPlatformTopicNode isToolTopicNode].
    split; [reflexivity|]. split; [apply underFolder_segment; assumption|].
    repeat split; apply underFolder_segment.
  - intros data url H. unfold isTagNode, mkNode. cbn [id text]. rewrite H. split; reflexivity.
Qed.

End Categories.

(** * Hover *)

Section HoverFacts.

Import Graph Hover.

Lemma collect_from_In : forall a ls acc x,
    In x (fold_left
            (fun acc l =>
               let linkData := simulationData l in
               if touches a linkData
               then Js.set_add (id (target linkData)) (Js.set_add (id (source linkData)) acc)
               else acc) ls acc) <->
    In x acc \/
    exists l, In l ls /\ touches a (simulationData l) = true /\
              (x = id (source (simulationData l)) \/ x = id (target (simulationData l))).
Proof.
  intros a. induction ls as [|l ls IH]; intros acc x; simpl.
  - split; [auto | intros [H | [l [[] _]]]; assumption].
  - rewrite IH. destruct (touches a (simulationData l)) eqn:E.
    + rewrite !set_add_In. split.
      * intros [[H | [H | H]] | [l' [Hl' H]]]; auto.
        -- right. exists l. auto.
        -- right. exists l. auto.
        -- right. exists l'. auto.
      * intros [H | [l' [[<- | Hl'] [Ht [H | H]]]]]; auto.
        -- right. exists l'. auto.
        -- right. exists l'. auto.
    + split.
      * intros [H | [l' [Hl' H]]]; auto. right. exists l'. auto.
      * intros [H | [l' [[<- | Hl'] [Ht H]]]]; auto.
        -- congruence.
        -- right. exists l'. auto.
Qed.

Lemma collectNeighbours_In : forall a ls x,
    In x (collectNeighbours a ls) <->
    exists l, In l ls /\ touches a (simulationData l) = true /\
              (x = id (source (simulationData l)) \/ x = id (target (simulationData l))).
Proof.
  intros a ls x. unfold collectNeighbours. rewrite collect_from_In. simpl. tauto.
Qed.

(** C5 (amended): hovering [a] keeps the records, flags exactly the
    links with an end at [a] and exactly the nodes that are an end of
    such a link (the far ends, and [a] itself as soon as one link touches
    it); a hover id of null clears every flag. *)
Theorem hover_flags :
  forall st a,
    let st' := updateHoverInfo (Some a) st in
    let off := updateHoverInfo None st in
    map simulationData (linkRenderData st') = map simulationData (linkRenderData st) /\
    map simulationData (nodeRenderData st') = map simulationData (nodeRenderData st) /\
    (forall l, In l (linkRenderData st') ->
               (active l = true <->
                id (source (simulationData l)) = a \/ id (target (simulationData l)) = a)) /\
    (forall n, In n (nodeRenderData st') ->
               (active n = true <->
                exists l, In l (linkRenderData st) /\
                          touches a (simulationData l) = true /\
                          (id (simulationData n) = id (source (simulationData l)) \/
                           id (simulationData n) = id (target (simulationData l))))) /\
    hoveredNodeId off = None /\
    (forall l, In l (linkRenderData off) -> active l = false) /\
    (forall n, In n (nodeRenderData off) -> active n = false).
Proof.
  intros st a st' off. subst st' off. simpl.
  repeat match goal with |- _ /\ _ => split end.
  - rewrite map_map. reflexivity.
  - rewrite map_map. reflexivity.
  - intros l Hl. apply in_map_iff in Hl. destruct Hl as [l0 [<- _]]. simpl.
    unfold touches. rewrite orb_true_iff, !String.eqb_eq. tauto.
  - intros n Hn. apply in_map_iff in Hn. destruct Hn as [n0 [<- _]]. simpl.
    rewrite mem_In. apply collectNeighbours_In.
  - reflexivity.
  - intros l Hl. apply in_map_iff in Hl. destruct Hl as [l0 [<- _]]. reflexivity.
  - intros n Hn. apply in_map_iff in Hn. destruct Hn as [n0 [<- _]]. reflexivity.
Qed.

End HoverFacts.

(** * The frame loop *)

Section FrameLoop.

Import Runtime.

Lemma tweens_stop_keys : forall key m, map fst (tweens_stop key m) = map fst m.
Proof.
  intros key m. unfold tweens_stop. rewrite map_map. apply map_ext.
  intros e. destruct (String.eqb (fst e) key); reflexivity.
Qed.

Lemma animate_keys : forall time alpha alphaMin st,
    map fst (tweens (animate time alpha alphaMin st)) = map fst (tweens st).
Proof.
  intros time alpha alphaMin st. unfold animate.
  destruct (stopAnimation st); [reflexivity|].
  destruct (cooled alpha alphaMin && _); simpl; rewrite map_map; reflexivity.
Qed.

(** No function of the loop takes a key out of [tweens]. *)
Lemma frame_keys : forall time alpha alphaMin st,
    map fst (tweens (frame time alpha alphaMin st)) = map fst (tweens st).
Proof.
  intros time alpha alphaMin st. unfold frame.
  destruct (frameRequests st); [reflexivity|]. rewrite animate_keys. reflexivity.
Qed.

Lemma tween_update_bounded : forall time bound g,
    Forall (fun t => t <= bound) g -> Forall (fun t => t <= bound) (tween_update time g).
Proof.
  intros time bound g H. unfold tween_update. rewrite Forall_forall in *.
  intros t Ht. apply filter_In in Ht. apply H. tauto.
Qed.

Lemma tween_update_over : forall time bound g,
    Forall (fun t => t <= bound) g -> bound <= time -> tween_update time g = [].
Proof.
  intros time bound g H Hb. unfold tween_update.
  induction H as [|t g Ht _ IH]; simpl; [reflexivity|].
  destruct (Nat.ltb time t) eqn:E; [apply Nat.ltb_lt in E; lia | assumption].
Qed.

Lemma frame_keepsRunning : forall bound time alpha alphaMin st,
    keepsRunning bound st -> keepsRunning bound (frame time alpha alphaMin st).
Proof.
  intros bound time alpha alphaMin st [Hk [Hr [Hs [Hf Hb]]]].
  unfold keepsRunning. rewrite frame_keys. split; [assumption|].
  unfold frame. rewrite Hf. unfold animate. simpl. rewrite Hs.
  rewrite length_map. rewrite <- (length_map fst), Hk. simpl.
  rewrite andb_false_r. simpl. repeat split; try assumption.
  apply Forall_map. simpl. eapply Forall_impl; [|exact Hb].
  intros e He. apply tween_update_bounded. assumption.
Qed.

Lemma runFrames_keepsRunning : forall bound fs st,
    keepsRunning bound st -> keepsRunning bound (runFrames fs st).
Proof.
  intros bound. unfold runFrames. induction fs as [|f fs IH]; intros st H; simpl; [assumption|].
  apply IH. apply frame_keepsRunning. assumption.
Qed.

Lemma updated_groups_empty : forall bound time (m : list (string * TweenNode)),
    Forall (fun e => Forall (fun t => t <= bound) (snd e)) m -> bound <= time ->
    existsb (fun e => negb (List.length (snd e) =? 0)%nat)
            (map (fun e => (fst e, tween_update time (snd e))) m) = false.
Proof.
  intros bound time m Hall Hb. induction Hall as [|e m He _ IH]; [reflexivity|].
  destruct e as [key g]. cbn [map existsb fst snd] in *.
  rewrite (tween_update_over time bound g He Hb). simpl. assumption.
Qed.

(** Once every tween is over, every group is empty and still the next
    frame is requested. *)
Lemma frame_after_tweens : forall bound time alpha alphaMin st,
    keepsRunning bound st -> bound <= time ->
    pendingTweens (frame time alpha alphaMin st) = false /\
    frameRequests (frame time alpha alphaMin st) = 1.
Proof.
  intros bound time alpha alphaMin st H Hb.
  split; [|apply (frame_keepsRunning bound time alpha alphaMin st H)].
  destruct H as [Hk [Hr [Hs [Hf Hall]]]].
  unfold frame. rewrite Hf. unfold animate. cbn [stopAnimation tweens]. rewrite Hs.
  rewrite length_map. rewrite <- (length_map fst), Hk.
  cbn [List.length Nat.eqb]. rewrite andb_false_r. unfold pendingTweens. cbn [tweens].
  apply updated_groups_empty with (bound := bound); assumption.
Qed.

(** Before any hover the loop stops on its own: the first frame of a
    cooled simulation requests no other. *)
Lemma mounted_loop_stops : forall time alpha alphaMin,
    cooled alpha alphaMin = true ->
    frame time alpha alphaMin mounted = mkLoop [] false false 0 false.
Proof. intros time alpha alphaMin H. unfold frame, animate. simpl. rewrite H. reflexivity. Qed.

Lemma render_flags : forall now n l st,
    let s := renderLabels now n (renderLinks now l (renderNodes now n st)) in
    animationRunning s = animationRunning st /\ stopAnimation s = stopAnimation st /\
    frameRequests s = frameRequests st /\ dragging s = dragging st.
Proof. intros now n l st s. subst s. repeat split. Qed.

Lemma renderPixiFromD3_flags : forall now n l st,
    let s := renderPixiFromD3 now n l st in
    stopAnimation s = stopAnimation st /\ dragging s = dragging st /\
    (stopAnimation st = false -> animationRunning s = true) /\
    frameRequests s =
    (if negb (animationRunning st) && negb (stopAnimation st)
     then S (frameRequests st) else frameRequests st).
Proof.
  intros now n l st s. subst s. unfold renderPixiFromD3.
  destruct (render_flags now n l st) as [Hr [Hs [Hf Hd]]].
  unfold ensureAnimating. rewrite Hr, Hs.
  destruct (animationRunning st) eqn:Er; destruct (stopAnimation st) eqn:Es;
    cbn [negb andb animationRunning stopAnimation frameRequests dragging];
    rewrite ?Hr, ?Hs, ?Hf, ?Hd; repeat split; congruence.
Qed.

(** A hover on a stopped loop requests exactly one frame, and a second
    hover before that frame requests no other. *)
Lemma hover_restarts_one_chain : forall now now' n l st,
    animationRunning st = false -> stopAnimation st = false -> dragging st = false ->
    frameRequests (onHoverChange now n l st) = S (frameRequests st) /\
    animationRunning (onHoverChange now n l st) = true /\
    frameRequests (onHoverChange now' n l (onHoverChange now n l st)) = S (frameRequests st).
Proof.
  intros now now' n l st Hr Hs Hd.
  assert (Ho : onHoverChange now n l st = renderPixiFromD3 now n l st)
    by (unfold onHoverChange; rewrite Hd; reflexivity).
  rewrite Ho.
  destruct (renderPixiFromD3_flags now n l st) as [Hs1 [Hd1 [Hr1 Hf1]]].
  rewrite Hr, Hs in Hf1. cbn [negb andb] in Hf1.
  specialize (Hr1 Hs). rewrite Hs in Hs1. rewrite Hd in Hd1.
  split; [assumption|]. split; [assumption|].
  unfold onHoverChange. rewrite Hd1.
  destruct (renderPixiFromD3_flags now' n l (renderPixiFromD3 now n l st)) as [_ [_ [_ Hf2]]].
  rewrite Hf2, Hr1. cbn [negb andb]. assumption.
Qed.

(** C4 (what the code does): after the first frame has let the loop of
    a cooled simulation stop and a hover has restarted it, every later
    frame requests the next one, whatever the time and the energy: the
    three groups stay in [tweens] once their tweens are over, so its size
    is never 0 again. *)
Theorem finished_tweens_keep_the_loop_running :
  forall fs : list (nat * (Q * Q)),
    let stopped := frame 16 0%Q (1 # 1000)%Q mounted in
    let st := runFrames fs (onHoverChange 1000 2 1 stopped) in
    animationRunning stopped = false /\ frameRequests stopped = 0 /\
    map fst (tweens st) = ["hover"; "link"; "label"] /\
    animationRunning st = true /\ frameRequests st = 1 /\
    pendingTweens (frame 5000 0%Q (1 # 1000)%Q st) = false /\
    frameRequests (frame 5000 0%Q (1 # 1000)%Q st) = 1.
Proof.
  intros fs stopped st.
  assert (H : keepsRunning 1200 st).
  { apply runFrames_keepsRunning. unfold keepsRunning. simpl.
    repeat split; repeat constructor. }
  destruct (frame_after_tweens 1200 5000 0%Q (1 # 1000)%Q st H) as [Hp Hq]; [lia|].
  destruct H as [Hk [Hr [Hs [Hf _]]]].
  repeat split; assumption.
Qed.

End FrameLoop.

(** * Teardown *)

Section Teardown.

Import Runtime.

Lemma clearGraphPopover_twice : forall p,
    clearGraphPopover (clearGraphPopover p) = clearGraphPopover p.
Proof. intros p. reflexivity. Qed.

Lemma removeEventListener_swap : forall a b ls,
    removeEventListener a (removeEventListener b ls) =
    removeEventListener b (removeEventListener a ls).
Proof.
  intros a b. unfold removeEventListener. induction ls as [|e ls IH]; simpl; [reflexivity|].
  destruct (String.eqb e b) eqn:Eb; destruct (String.eqb e a) eqn:Ea; simpl;
    rewrite ?Eb, ?Ea; simpl; congruence.
Qed.

Lemma removeEventListener_twice : forall a ls,
    removeEventListener a (removeEventListener a ls) = removeEventListener a ls.
Proof.
  intros a. unfold removeEventListener. induction ls as [|e ls IH]; simpl; [reflexivity|].
  destruct (String.eqb e a) eqn:Ea; simpl; rewrite ?Ea; simpl; congruence.
Qed.

(** C7 (amended): a second call of the teardown leaves the loop
    variables, the popover state and the listeners as the first call
    left them, and calls [app.destroy()] once more; after any call the
    stop flag is set, so that a requested frame returns without
    requesting another and [ensureAnimating] requests none. *)
Theorem cleanup_twice :
  forall i,
    let once := cleanup i in
    let twice := cleanup once in
    loop twice = loop once /\
    popovers twice = popovers once /\
    keyListeners twice = keyListeners once /\
    destroyCalls twice = S (destroyCalls once) /\
    destroyCalls once = S (destroyCalls i) /\
    stopAnimation (loop twice) = true /\
    ensureAnimating (loop twice) = loop twice /\
    forall time alpha alphaMin,
      frameRequests (frame time alpha alphaMin (loop twice)) =
      Nat.pred (frameRequests (loop twice)) /\
      (frameRequests (loop twice) <> 0 ->
       animationRunning (frame time alpha alphaMin (loop twice)) = false).
Proof.
  intros i once twice. subst once twice.
  split; [reflexivity|]. split; [reflexivity|]. split.
  - unfold cleanup. cbn [keyListeners].
    rewrite (removeEventListener_swap "keydown" "keyup").
    rewrite !removeEventListener_twice. reflexivity.
  - split; [reflexivity|]. split; [reflexivity|]. split; [reflexivity|]. split.
    + unfold ensureAnimating. simpl. rewrite andb_false_r. reflexivity.
    + intros time alpha alphaMin. unfold frame. simpl.
      destruct (frameRequests (loop i)); simpl; split; congruence.
Qed.

End Teardown.

(** * Popover *)

Section PopoverFacts.

Import Runtime.

(** C8 (amended): when no popover of the target is in the document
    and the fetch rejects, or the content type does not start with
    [text/html], or the body has no element of class [popover-hint], the
    call returns with no popover shown or mounted; the status of the
    response is not read. *)
Theorem popover_aborts_silently :
  forall pathname fetched st,
    Js.mem ("graph-popover-" ++ pathname)%string
           (bodyPopovers (clearGraphPopover st)) = false ->
    (fetched = FetchRejected \/
     exists r, fetched = FetchResolved r /\
               (Js.startsWith (contentTypeOf r) "text/html" = false \/
                hints r = Some [])) ->
    showGraphPopover pathname fetched st = Returned (clearGraphPopover st) /\
    activePopover (clearGraphPopover st) = None /\
    (forall el, In el (bodyPopovers (clearGraphPopover st)) -> In el (bodyPopovers st)) /\
    forall r code,
      showGraphPopover pathname (FetchResolved r) st =
      showGraphPopover pathname
        (FetchResolved (mkResponse code (contentTypeHeader r) (hints r))) st.
Proof.
  intros pathname fetched st Hnew Hcase.
  split; [|split; [reflexivity|split]].
  - unfold showGraphPopover. rewrite Hnew.
    destruct Hcase as [-> | [r [-> [Hct | Hh]]]].
    + reflexivity.
    + rewrite Hct. reflexivity.
    + destruct (Js.startsWith (contentTypeOf r) "text/html"); [|reflexivity].
      rewrite Hh. reflexivity.
  - intros el. unfold clearGraphPopover. simpl.
    destruct (activePopover st); [|auto]. intros H. apply filter_In in H. tauto.
  - intros r code. reflexivity.
Qed.

End PopoverFacts.

(** * Rounding to doubles *)

Section FloatFacts.

Import Float.

Local Open Scope Q_scope.

Lemma pow2_pos : forall e, 0 < pow2 e.
Proof. intros e. apply Qpower_0_lt. reflexivity. Qed.

Lemma pow2_add : forall a b, pow2 (a + b) == pow2 a * pow2 b.
Proof. intros a b. apply Qpower_plus. discriminate. Qed.

Lemma pow2_le : forall a b, (a <= b)%Z -> pow2 a <= pow2 b.
Proof. intros a b H. apply Qpower_le_compat_l; [assumption | discriminate]. Qed.

Lemma pow2_lt_inv : forall a b, pow2 a < pow2 b -> (a < b)%Z.
Proof. intros a b H. apply (Qpower_lt_compat_l_inv 2); [assumption | reflexivity]. Qed.

Lemma pow2_Z : forall n, (0 <= n)%Z -> pow2 n == inject_Z (2 ^ n).
Proof. intros n H. unfold pow2. rewrite Zpower_Qpower by assumption. reflexivity. Qed.

Lemma div_le : forall a b u, 0 < u -> a <= b -> a / u <= b / u.
Proof.
  intros a b u Hu H. unfold Qdiv. apply Qmult_le_compat_r; [assumption|].
  apply Qinv_le_0_compat. apply Qlt_le_weak. assumption.
Qed.

Lemma log2_bounds : forall n, (0 < n)%Z ->
    pow2 (Z.log2 n) <= inject_Z n /\ inject_Z n < pow2 (Z.log2 n + 1).
Proof.
  intros n Hn. destruct (Z.log2_spec n Hn) as [Hlo Hhi].
  pose proof (Z.log2_nonneg n) as H0.
  rewrite !pow2_Z by lia. rewrite <- Zle_Qle, <- Zlt_Qlt.
  split; [assumption|]. replace (Z.log2 n + 1)%Z with (Z.succ (Z.log2 n)) by lia. assumption.
Qed.

Lemma exponent_spec : forall x,
    0 < x -> pow2 (exponent x) <= x /\ x < pow2 (exponent x + 1).
Proof.
  intros [n d] Hx.
  assert (Hn : (0 < n)%Z).
  { unfold Qlt in Hx. simpl in Hx. lia. }
  destruct (log2_bounds n Hn) as [Hn1 Hn2].
  destruct (log2_bounds (Zpos d) eq_refl) as [Hd1 Hd2].
  set (ln := Z.log2 n) in *. set (ld := Z.log2 (Zpos d)) in *.
  assert (Hxd : (n # d) * inject_Z (Zpos d) == inject_Z n).
  { rewrite (Qmake_Qdiv n d). field. discriminate. }
  assert (HD : 0 < inject_Z (Zpos d)) by reflexivity.
  assert (Hhi : n # d < pow2 (ln - ld + 1)).
  { apply (Qmult_lt_r _ _ (inject_Z (Zpos d)) HD). rewrite Hxd.
    apply Qlt_le_trans with (pow2 (ln + 1)); [assumption|].
    replace (ln + 1)%Z with ((ln - ld + 1) + ld)%Z by lia. rewrite pow2_add.
    apply Qmult_le_l; [apply pow2_pos | assumption]. }
  assert (Hlo : pow2 (ln - ld - 1) <= n # d).
  { apply Qlt_le_weak.
    apply (Qmult_lt_r _ _ (pow2 (ld + 1)) (pow2_pos _)).
    rewrite <- pow2_add. replace (ln - ld - 1 + (ld + 1))%Z with ln by lia.
    apply Qle_lt_trans with (inject_Z n); [assumption|]. rewrite <- Hxd.
    apply Qmult_lt_l; assumption. }
  unfold exponent. cbn [Qnum Qden]. fold ln ld.
  destruct (Qle_bool (pow2 (ln - ld)) (n # d)) eqn:E.
  - apply Qle_bool_iff in E. split; assumption.
  - split; [assumption|]. replace (ln - ld - 1 + 1)%Z with (ln - ld)%Z by lia.
    apply Qnot_le_lt. intros H. apply Qle_bool_iff in H. congruence.
Qed.

Lemma exponent_le : forall x y, 0 < x -> x <= y -> (exponent x <= exponent y)%Z.
Proof.
  intros x y Hx Hxy.
  destruct (exponent_spec x Hx) as [Hlo _].
  destruct (exponent_spec y (Qlt_le_trans _ _ _ Hx Hxy)) as [_ Hhi].
  assert (H : pow2 (exponent x) < pow2 (exponent y + 1)).
  { apply Qle_lt_trans with x; [assumption|]. apply Qle_lt_trans with y; assumption. }
  apply pow2_lt_inv in H. lia.
Qed.

Lemma nearestEven_Z : forall z, nearestEven (inject_Z z) = z.
Proof.
  intros z. unfold nearestEven. rewrite Qfloor_Z.
  destruct (Qcompare_spec (inject_Z z - inject_Z z) (1 # 2)) as [H | H | H];
    [exfalso; lra | reflexivity | exfalso; lra].
Qed.

Lemma nearestEven_bounds : forall m,
    (Qfloor m <= nearestEven m <= Qfloor m + 1)%Z.
Proof.
  intros m. unfold nearestEven.
  destruct (m - inject_Z (Qfloor m) ?= 1 # 2); [destruct (Z.even (Qfloor m))| |]; lia.
Qed.

Lemma nearestEven_le : forall m1 m2, m1 <= m2 -> (nearestEven m1 <= nearestEven m2)%Z.
Proof.
  intros m1 m2 H. pose proof (Qfloor_resp_le _ _ H) as Hq.
  destruct (Z.eq_dec (Qfloor m1) (Qfloor m2)) as [E | E].
  - unfold nearestEven. rewrite <- E.
    destruct (Qcompare_spec (m1 - inject_Z (Qfloor m1)) (1 # 2)) as [H1 | H1 | H1];
      destruct (Qcompare_spec (m2 - inject_Z (Qfloor m1)) (1 # 2)) as [H2 | H2 | H2];
      try destruct (Z.even (Qfloor m1)); try lia; exfalso; lra.
  - pose proof (nearestEven_bounds m1). pose proof (nearestEven_bounds m2). lia.
Qed.

Lemma nearestEven_comp : forall m1 m2, m1 == m2 -> nearestEven m1 = nearestEven m2.
Proof.
  intros m1 m2 H. apply Z.le_antisymm; apply nearestEven_le; rewrite H; apply Qle_refl.
Qed.

Lemma ulp_pos : forall x, 0 < ulp x.
Proof. intros x. apply pow2_pos. Qed.

Lemma magnitude_nonneg : forall x, 0 < x -> 0 <= magnitude x.
Proof.
  intros x Hx. unfold magnitude.
  apply Qmult_le_0_compat; [|apply Qlt_le_weak, ulp_pos].
  change 0 with (inject_Z 0). rewrite <- Zle_Qle.
  rewrite <- (nearestEven_Z 0). apply nearestEven_le.
  apply Qle_shift_div_l; [apply ulp_pos|]. rewrite Qmult_0_l. apply Qlt_le_weak. assumption.
Qed.

Lemma magnitude_le : forall x y, 0 < x -> x <= y -> magnitude x <= magnitude y.
Proof.
  intros x y Hx Hxy.
  assert (Hy : 0 < y) by (apply Qlt_le_trans with x; assumption).
  pose proof (exponent_le x y Hx Hxy) as He.
  destruct (exponent_spec x Hx) as [_ Hxhi].
  destruct (exponent_spec y Hy) as [Hylo _].
  unfold magnitude, ulp.
  set (ex := exponent x) in *. set (ey := exponent y) in *.
  destruct (Z.eq_dec (Z.max ex (-1022)) (Z.max ey (-1022))) as [E | E].
  - rewrite E. set (u := pow2 (Z.max ey (-1022) - 52)).
    apply Qmult_le_compat_r; [|apply Qlt_le_weak, pow2_pos].
    rewrite <- Zle_Qle. apply nearestEven_le. apply div_le; [apply pow2_pos | assumption].
  - assert (Hey : Z.max ey (-1022) = ey) by lia. rewrite Hey.
    set (tx := (Z.max ex (-1022) - 52)%Z).
    assert (Htx : (tx + 52 < ey)%Z) by (unfold tx; lia).
    apply Qle_trans with (pow2 ey).
    + assert (Hn : (nearestEven (x / pow2 tx) <= 2 ^ (ey - tx))%Z).
      { rewrite <- (nearestEven_Z (2 ^ (ey - tx))). apply nearestEven_le.
        rewrite <- pow2_Z by lia. unfold pow2 at 2. rewrite Qpower_minus by discriminate.
        fold (pow2 ey) (pow2 tx). apply div_le; [apply pow2_pos|].
        apply Qlt_le_weak. apply Qlt_le_trans with (pow2 (ex + 1)); [assumption|].
        apply pow2_le. lia. }
      rewrite Zle_Qle in Hn. rewrite <- pow2_Z in Hn by lia.
      apply Qle_trans with (pow2 (ey - tx) * pow2 tx).
      * apply Qmult_le_compat_r; [assumption | apply Qlt_le_weak, pow2_pos].
      * rewrite <- pow2_add. replace (ey - tx + tx)%Z with ey by lia. apply Qle_refl.
    + assert (Hn : (2 ^ 52 <= nearestEven (y / pow2 (ey - 52)))%Z).
      { rewrite <- (nearestEven_Z (2 ^ 52)) at 1. apply nearestEven_le.
        rewrite <- pow2_Z by lia.
        replace 52%Z with (ey - (ey - 52))%Z at 1 by lia.
        unfold pow2 at 1. rewrite Qpower_minus by discriminate.
        fold (pow2 ey) (pow2 (ey - 52)). apply div_le; [apply pow2_pos | assumption]. }
      rewrite Zle_Qle in Hn. rewrite <- pow2_Z in Hn by lia.
      apply Qle_trans with (pow2 52 * pow2 (ey - 52)).
      * rewrite <- pow2_add. replace (52 + (ey - 52))%Z with ey by lia. apply Qle_refl.
      * apply Qmult_le_compat_r; [assumption | apply Qlt_le_weak, pow2_pos].
Qed.

(** Rounding keeps the order. *)
Lemma double_le : forall x y, x <= y -> double x <= double y.
Proof.
  intros x y H. unfold double.
  destruct (Qcompare_spec x 0) as [Hx | Hx | Hx];
    destruct (Qcompare_spec y 0) as [Hy | Hy | Hy]; try (exfalso; lra).
  - apply Qle_refl.
  - apply magnitude_nonneg. assumption.
  - pose proof (magnitude_nonneg (- x)). lra.
  - assert (0 <= magnitude (- x)) by (apply magnitude_nonneg; lra).
    assert (0 <= magnitude (- y)) by (apply magnitude_nonneg; lra).
    assert (magnitude (- y) <= magnitude (- x)) by (apply magnitude_le; lra).
    lra.
  - pose proof (magnitude_nonneg (- x)). pose proof (magnitude_nonneg y). lra.
  - apply magnitude_le; assumption.
Qed.

Lemma double_comp : forall x y, x == y -> double x == double y.
Proof.
  intros x y H. apply Qle_antisym; apply double_le; rewrite H; apply Qle_refl.
Qed.

Lemma magnitude_dyadic : forall z s,
    (0 < z < 2 ^ 53)%Z -> (-1074 <= s)%Z ->
    magnitude (inject_Z z * pow2 s) == inject_Z z * pow2 s.
Proof.
  intros z s [Hz0 Hz1] Hs.
  assert (Hz : 0 < inject_Z z) by (change 0 with (inject_Z 0); rewrite <- Zlt_Qlt; assumption).
  assert (Hx : 0 < inject_Z z * pow2 s).
  { apply Qmult_lt_0_compat; [assumption | apply pow2_pos]. }
  destruct (exponent_spec _ Hx) as [Hlo _].
  assert (He : (exponent (inject_Z z * pow2 s) < 53 + s)%Z).
  { apply pow2_lt_inv. apply Qle_lt_trans with (inject_Z z * pow2 s); [assumption|].
    rewrite pow2_add. apply Qmult_lt_r; [apply pow2_pos|].
    rewrite pow2_Z by lia. rewrite <- Zlt_Qlt. assumption. }
  unfold magnitude, ulp.
  set (t := (Z.max (exponent (inject_Z z * pow2 s)) (-1022) - 52)%Z).
  assert (Ht : (t <= s)%Z) by (unfold t; lia).
  assert (Hm : inject_Z z * pow2 s / pow2 t == inject_Z (z * 2 ^ (s - t))).
  { rewrite inject_Z_mult, <- pow2_Z by lia.
    unfold pow2 at 3. rewrite Qpower_minus by discriminate. fold (pow2 s) (pow2 t).
    field. intros E. pose proof (pow2_pos t) as Hp. rewrite E in Hp. discriminate Hp. }
  rewrite (nearestEven_comp _ _ Hm), nearestEven_Z.
  rewrite inject_Z_mult, <- pow2_Z by lia.
  rewrite <- Qmult_assoc, <- pow2_add. replace (s - t + t)%Z with s by lia.
  reflexivity.
Qed.

(** A number with a mantissa of 53 bits and an exponent in range is a
    double. *)
Lemma double_dyadic : forall x z s,
    x == inject_Z z * pow2 s -> (Z.abs z < 2 ^ 53)%Z -> (-1074 <= s)%Z ->
    double x == x.
Proof.
  intros x z s Hx Hz Hs. rewrite (double_comp _ _ Hx), Hx. unfold double.
  pose proof (pow2_pos s) as Hp.
  destruct (Qcompare_spec (inject_Z z * pow2 s) 0) as [H | H | H].
  - symmetry. assumption.
  - assert (Hn : (0 < - z)%Z).
    { destruct (Z_lt_ge_dec z 0) as [Hl | Hl]; [lia|]. exfalso.
      assert (0 <= inject_Z z) by (change 0 with (inject_Z 0); rewrite <- Zle_Qle; lia).
      assert (0 <= inject_Z z * pow2 s) by (apply Qmult_le_0_compat; lra).
      lra. }
    assert (E : - (inject_Z z * pow2 s) == inject_Z (- z) * pow2 s).
    { rewrite inject_Z_opp. ring. }
    assert (Hm : magnitude (- (inject_Z z * pow2 s)) == magnitude (inject_Z (- z) * pow2 s)).
    { apply Qle_antisym; apply magnitude_le; lra. }
    rewrite Hm, magnitude_dyadic by lia. rewrite inject_Z_opp. ring.
  - assert (Hn : (0 < z)%Z).
    { destruct (Z_lt_ge_dec 0 z) as [Hl | Hl]; [lia|]. exfalso.
      assert (inject_Z z <= 0) by (change 0 with (inject_Z 0); rewrite <- Zle_Qle; lia).
      assert (0 <= - inject_Z z * pow2 s) by (apply Qmult_le_0_compat; lra).
      lra. }
    apply magnitude_dyadic; lia.
Qed.

(** A multiple of a quarter below 2^51 in absolute value is a double. *)
Lemma double_quarter : forall z,
    (Z.abs z < 2 ^ 53)%Z -> double (z # 4) == z # 4.
Proof.
  intros z Hz. apply (double_dyadic _ z (-2)); [|assumption | lia].
  rewrite (Qmake_Qdiv z 4). reflexivity.
Qed.

(** An integer up to 2^53 in absolute value is a double. *)
Lemma double_Z : forall z, (Z.abs z <= 2 ^ 53)%Z -> double (inject_Z z) == inject_Z z.
Proof.
  intros z Hz. destruct (Z.eq_dec (Z.abs z) (2 ^ 53)) as [E | E].
  - apply (double_dyadic _ (z / 2) 1); [| | lia].
    + assert (Hz2 : z = (2 * (z / 2))%Z).
      { destruct (Z.abs_eq_or_opp z) as [H | H]; rewrite H in E.
        - rewrite E. reflexivity.
        - assert (z = (- 2 ^ 53)%Z) by lia. subst z. reflexivity. }
      rewrite Hz2 at 1. rewrite inject_Z_mult. change (pow2 1) with 2. ring.
    + destruct (Z.abs_eq_or_opp z) as [H | H]; rewrite H in E.
      * rewrite E. reflexivity.
      * assert (z = (- 2 ^ 53)%Z) by lia. subst z. reflexivity.
  - apply (double_dyadic _ z 0); [| lia | lia]. change (pow2 0) with 1. ring.
Qed.

Lemma nearestEven_close : forall m,
    m - (1 # 2) <= inject_Z (nearestEven m) /\ inject_Z (nearestEven m) <= m + (1 # 2).
Proof.
  intros m. unfold nearestEven.
  pose proof (Qfloor_le m) as Hlo. pose proof (Qlt_floor m) as Hhi.
  rewrite inject_Z_plus in Hhi. change (inject_Z 1) with 1 in Hhi.
  destruct (Qcompare_spec (m - inject_Z (Qfloor m)) (1 # 2)) as [H | H | H];
    [destruct (Z.even (Qfloor m))| |];
    rewrite ?inject_Z_plus; change (inject_Z 1) with 1; split; lra.
Qed.

(** The relative error of rounding a number of the normal range is at
    most 2^-53. *)
Lemma magnitude_close : forall x,
    pow2 (-1022) <= x ->
    x * (1 - pow2 (-53)) <= magnitude x /\ magnitude x <= x * (1 + pow2 (-53)).
Proof.
  intros x Hx.
  assert (Hpos : 0 < x) by (apply Qlt_le_trans with (pow2 (-1022)); [apply pow2_pos | assumption]).
  destruct (exponent_spec x Hpos) as [Hlo Hhi].
  assert (He : (-1022 <= exponent x)%Z).
  { assert (H : pow2 (-1022) < pow2 (exponent x + 1))
      by (apply Qle_lt_trans with x; assumption).
    apply pow2_lt_inv in H. lia. }
  unfold magnitude, ulp. rewrite Z.max_l by lia.
  set (e := exponent x) in *. set (u := pow2 (e - 52)).
  assert (Hu : 0 < u) by apply pow2_pos.
  assert (Hux : u <= x * pow2 (-52)).
  { unfold u. replace (e - 52)%Z with (e + -52)%Z by lia. rewrite pow2_add.
    apply Qmult_le_compat_r; [assumption | apply Qlt_le_weak, pow2_pos]. }
  destruct (nearestEven_close (x / u)) as [H1 H2].
  assert (Hm : x / u * u == x) by (field; lra).
  set (n := inject_Z (nearestEven (x / u))) in *.
  assert (Ha : x - u * (1 # 2) <= n * u).
  { rewrite <- Hm at 1. setoid_replace (x / u * u - u * (1 # 2)) with ((x / u - (1 # 2)) * u) by ring.
    apply Qmult_le_compat_r; lra. }
  assert (Hb : n * u <= x + u * (1 # 2)).
  { rewrite <- Hm at 1. setoid_replace (x / u * u + u * (1 # 2)) with ((x / u + (1 # 2)) * u) by ring.
    apply Qmult_le_compat_r; lra. }
  assert (E53 : pow2 (-53) == pow2 (-52) * (1 # 2)) by reflexivity.
  rewrite E53. split; nra.
Qed.

Lemma double_close : forall x,
    pow2 (-1022) <= x ->
    x * (1 - pow2 (-53)) <= double x /\ double x <= x * (1 + pow2 (-53)).
Proof.
  intros x Hx.
  assert (Hpos : 0 < x) by (apply Qlt_le_trans with (pow2 (-1022)); [apply pow2_pos | assumption]).
  unfold double. destruct (Qcompare_spec x 0) as [H | H | H]; try (exfalso; lra).
  apply magnitude_close. assumption.
Qed.

End FloatFacts.

(** * The zoom handler *)

Section ZoomFacts.

Import Zoom.

Lemma scaleOpacity_nonneg : forall os zk, (0 <= scaleOpacity os zk)%Q.
Proof. intros. unfold scaleOpacity. apply Q.le_max_r. Qed.

Lemma scaleOpacity_mono : forall os k1 k2,
    (0 <= os)%Q -> (k1 <= k2)%Q -> (scaleOpacity os k1 <= scaleOpacity os k2)%Q.
Proof.
  intros os k1 k2 Hos Hk. unfold scaleOpacity. cbv zeta.
  apply Q.max_le_compat_r. apply double_le.
  apply div_le; [reflexivity|]. apply double_le.
  apply Qplus_le_compat; [|apply Qle_refl].
  apply double_le. apply Qmult_le_compat_r; assumption.
Qed.

Lemma scaleOpacity_le_1 : forall os zk,
    (zk * os <= 19 # 4)%Q -> (scaleOpacity os zk <= 1)%Q.
Proof.
  intros os zk H. unfold scaleOpacity. cbv zeta.
  apply Q.max_lub; [|discriminate].
  assert (H1 : (Float.double (zk * os) <= 19 # 4)%Q).
  { rewrite <- (double_quarter 19) by (simpl; lia). apply double_le. assumption. }
  assert (H2 : (Float.double (Float.double (zk * os) - 1) <= 15 # 4)%Q).
  { rewrite <- (double_quarter 15) by (simpl; lia). apply double_le. lra. }
  apply Qle_trans with (Float.double 1).
  - apply double_le. apply Qle_shift_div_r; [reflexivity|]. lra.
  - rewrite (double_Z 1) by (simpl; lia). apply Qle_refl.
Qed.

Lemma activeNodes_includes : forall st h,
    existsb (Nat.eqb h) (map label (filter active (nodeRenderData st))) = true <->
    labelOfActive st h.
Proof.
  intros st h. rewrite existsb_exists. unfold labelOfActive. split.
  - intros [x [Hx He]]. apply Nat.eqb_eq in He. subst x.
    apply in_map_iff in Hx. destruct Hx as [n [Hn Hf]]. apply filter_In in Hf.
    exists n. tauto.
  - intros [n [Hn [Ha Hl]]]. exists h. split; [|apply Nat.eqb_refl].
    apply in_map_iff. exists n. split; [assumption|]. apply filter_In. auto.
Qed.

(** C9 (amended): the handler takes the scale [k] of the transform it is
    handed as the scale of the stage, which is within [0.25, 4] when [k]
    is (to keep it there is the work of d3-zoom, configured with
    [scaleExtent]); the label opacity
    [max((k * opacityScale - 1) / 3.75, 0)], computed in doubles, is never
    negative, does not decrease when the scale grows (for an
    [opacityScale] that is not negative), and is at most 1 whenever
    [k * opacityScale <= 4.75], hence for every scale up to 4 when
    [0 <= opacityScale <= 1.1875]; every label of an active node keeps its
    opacity and every other label gets the new one. *)
Theorem zoom_scale_and_label_opacity :
  forall cfg transform st,
    let st' := onZoom cfg transform st in
    let zk := k transform in
    let os := Index.opacityScale cfg in
    (currentTransform st' = transform /\ stageScale st' = (zk, zk) /\
     ((fst scaleExtent <= zk)%Q /\ (zk <= snd scaleExtent)%Q ->
      (1 # 4 <= fst (stageScale st'))%Q /\ (fst (stageScale st') <= 4 # 1)%Q /\
      (1 # 4 <= snd (stageScale st'))%Q /\ (snd (stageScale st') <= 4 # 1)%Q)) /\
    (0 <= scaleOpacity os zk)%Q /\
    ((zk * os <= 19 # 4)%Q -> (scaleOpacity os zk <= 1)%Q) /\
    ((zk <= snd scaleExtent)%Q -> (0 <= os)%Q -> (os <= 19 # 16)%Q ->
     (scaleOpacity os zk <= 1)%Q) /\
    (forall k1 k2, (0 <= os)%Q -> (k1 <= k2)%Q ->
                   (scaleOpacity os k1 <= scaleOpacity os k2)%Q) /\
    map handle (children st') = map handle (children st) /\
    nodeRenderData st' = nodeRenderData st /\
    (forall l', In l' (children st') ->
       exists l, In l (children st) /\ handle l' = handle l /\
                 (labelOfActive st (handle l) -> alpha l' = alpha l) /\
                 (~ labelOfActive st (handle l) -> alpha l' = scaleOpacity os zk)).
Proof.
  intros cfg transform st st' zk os. subst st' zk os. unfold onZoom.
  cbn [currentTransform k stageScale children nodeRenderData].
  split; [|split; [|split; [|split; [|split; [|split; [|split]]]]]].
  - split; [reflexivity|]. split; [reflexivity|].
    unfold scaleExtent. cbn [fst snd]. tauto.
  - apply scaleOpacity_nonneg.
  - apply scaleOpacity_le_1.
  - intros Hk H0 H1. apply scaleOpacity_le_1.
    unfold scaleExtent in Hk. cbn [snd] in Hk.
    apply Qle_trans with (4 * Index.opacityScale cfg)%Q.
    + apply Qmult_le_compat_r; assumption.
    + lra.
  - intros k1 k2. apply scaleOpacity_mono.
  - rewrite map_map. reflexivity.
  - reflexivity.
  - intros l' Hl'. apply in_map_iff in Hl'. destruct Hl' as [l [<- Hl]].
    exists l. split; [assumption|]. split; [reflexivity|]. cbn [alpha handle].
    destruct (existsb (Nat.eqb (handle l)) _) eqn:E.
    + split; [reflexivity|]. intros Hn. exfalso. apply Hn.
      apply activeNodes_includes. assumption.
    + split; [|reflexivity]. intros Ha. apply activeNodes_includes in Ha. congruence.
Qed.

End ZoomFacts.

(** * The theorems on small inputs *)

Section OnExamples.

Import Index Examples.

Lemma markerFreeb_ok : forall links,
    Reach.markerFreeb links = true -> Reach.markerFree links.
Proof.
  intros links H l Hl. unfold Reach.markerFreeb in H.
  rewrite forallb_forall in H. specialize (H l Hl).
  apply andb_true_iff in H. destruct H as [Hs Ht].
  apply negb_true_iff in Hs, Ht. apply String.eqb_neq in Hs, Ht. auto.
Qed.

Lemma rendered_links_in_neighbourhood_witness :
  exists nb g,
    Neighbourhood.computeNeighbourhood keepSlug (config 1 true) abc "A" = Some nb /\
    Graph.buildGraph keepSlug (config 1 true) abc "A" = Some (Some g) /\
    forall l, In l (Graph.links g) ->
              In (Graph.id (Graph.source l)) nb /\ In (Graph.id (Graph.target l)) nb.
Proof.
  destruct (rendered_links_in_neighbourhood keepSlug (config 1 true) abc "A")
    as [nb [g [Hnb [Hg [_ Hl]]]]].
  exists nb, g. split; [exact Hnb|]. split; [exact Hg|].
  intros l H. destruct (Hl l H) as [Hs [Ht _]]. split; assumption.
Defined.

(** C6, the claim as stated fails: a page under [Concept/Model/] has
    the model flag and the concept flag. *)
Lemma nested_topic_has_two_flags :
  Graph.hasSegment "Model" "Topics/Concept/Model/bert.md" /\
  ~ Graph.onlyModelTopic (Graph.mkNode nested "bert").
Proof.
  split.
  - exists "Topics/Concept/", "bert.md". split; [reflexivity|].
    right. exists "Topics/Concept". reflexivity.
  - intros [_ [H _]]. vm_compute in H. discriminate H.
Qed.

Lemma model_flag_and_tag_nodes_witness :
  Graph.hasSegment "Model" "Topics/Model/B.md" /\
  Graph.isModelTopicNode (Graph.mkNode abc "B") = true /\
  Graph.isTagNode (Graph.mkNode abc "tags/x") = true.
Proof.
  assert (H : Graph.hasSegment "Model" "Topics/Model/B.md").
  { exists "Topics/", "B.md". split; [reflexivity|]. right. exists "Topics". reflexivity. }
  split; [exact H|]. split.
  - apply (proj1 model_flag_and_tag_nodes abc "B"
                 (page ["A"; "C"] [] "Topics/Model/B.md") "Topics/Model/B.md");
      [reflexivity | reflexivity | exact H].
  - apply (proj2 model_flag_and_tag_nodes abc "tags/x"). reflexivity.
Defined.

(** C5, the claim as stated fails: hovering [A] with the one link
    [A -> B] flags [A] as well, which is at the far end of no link. *)
Lemma hovered_node_is_flagged :
  ~ (forall n,
        In n (Hover.nodeRenderData (Hover.updateHoverInfo (Some "A") pair)) ->
        (Hover.active n = true <->
         exists l, In l (Hover.linkRenderData pair) /\
                   Hover.touches "A" (Hover.simulationData l) = true /\
                   Graph.id (Hover.simulationData n) =
                   Hover.otherEnd "A" (Hover.simulationData l))).
Proof.
  intros H.
  specialize (H (Hover.mkRender nodeA "gray" 1%Q true) (or_introl eq_refl)).
  destruct (proj1 H eq_refl) as [l [Hl [_ Ho]]].
  destruct Hl as [<- | []]. vm_compute in Ho. discriminate Ho.
Qed.

Lemma hover_flags_witness :
  In (Hover.mkRender nodeB "gray" 1%Q false)
     (Hover.nodeRenderData (Hover.updateHoverInfo None pair)) /\
  Hover.active (Hover.mkRender nodeB "gray" 1%Q false) = false.
Proof.
  assert (H : In (Hover.mkRender nodeB "gray" 1%Q false)
                 (Hover.nodeRenderData (Hover.updateHoverInfo None pair)))
    by (right; left; reflexivity).
  split; [exact H|].
  exact (proj2 (proj2 (proj2 (proj2 (proj2 (proj2 (hover_flags pair "A")))))) _ H).
Defined.

(** C7, the claim as stated fails: two calls of the teardown call
    [app.destroy()] twice. *)
Lemma teardown_twice_destroys_twice :
  ~ (Runtime.destroyCalls (Runtime.cleanup (Runtime.cleanup Runtime.mountedInstance)) <= 1).
Proof. vm_compute. lia. Qed.

Lemma cleanup_twice_witness :
  Runtime.frameRequests Runtime.mounted <> 0 /\
  Runtime.animationRunning
    (Runtime.frame 16 0%Q (1 # 1000)%Q
       (Runtime.loop (Runtime.cleanup (Runtime.cleanup Runtime.mountedInstance)))) = false.
Proof.
  assert (H : Runtime.frameRequests Runtime.mounted <> 0) by discriminate.
  split; [exact H|].
  apply (proj2 (proj2 (proj2 (proj2 (proj2 (proj2 (proj2
           (cleanup_twice Runtime.mountedInstance))))))) 16 0%Q (1 # 1000)%Q).
  exact H.
Defined.

(** C8, the claim as stated fails: a response with status 404 that
    is HTML and has a preview element is mounted. *)
Lemma not_found_page_is_mounted :
  Runtime.ok notFound = false /\
  Runtime.showGraphPopover "/B" (Runtime.FetchResolved notFound) noPopovers =
  Runtime.Returned
    (Runtime.mkPopovers None None (Some "graph-popover-/B") ["graph-popover-/B"]).
Proof. split; reflexivity. Qed.

Lemma popover_aborts_silently_witness :
  Js.startsWith (Runtime.contentTypeOf plainText) "text/html" = false /\
  Runtime.showGraphPopover "/B" (Runtime.FetchResolved plainText) noPopovers =
  Runtime.Returned noPopovers.
Proof.
  assert (H : Js.startsWith (Runtime.contentTypeOf plainText) "text/html" = false)
    by reflexivity.
  split; [exact H|].
  apply (popover_aborts_silently "/B" (Runtime.FetchResolved plainText) noPopovers).
  - reflexivity.
  - right. exists plainText. split; [reflexivity | left; exact H].
Defined.

(** C9, the claim as stated fails: with [opacityScale = 2] the
    opacity at scale 4, which is within the extent, is the double nearest
    to 28/15. *)
Lemma zoom_opacity_above_one :
  (fst Zoom.scaleExtent <= 4 <= snd Zoom.scaleExtent)%Q /\
  exists l,
    In l (Zoom.children (Zoom.onZoom wideOpacity (Zoom.mkTransform 4%Q 0%Q 0%Q) twoLabels)) /\
    (Zoom.alpha l == 4203359652212463 # 2251799813685248)%Q /\
    ~ (Zoom.alpha l <= 1)%Q.
Proof.
  split; [split; discriminate|].
  eexists. split; [right; left; reflexivity|]. split.
  - vm_compute. reflexivity.
  - intros H. vm_compute in H. apply H. reflexivity.
Qed.

Lemma zoom_scale_and_label_opacity_witness :
  (3 * opacityScale (config 1 false) <= 19 # 4)%Q /\
  (Zoom.scaleOpacity (opacityScale (config 1 false)) 3 <= 1)%Q.
Proof.
  assert (H : (3 * opacityScale (config 1 false) <= 19 # 4)%Q) by discriminate.
  split; [exact H|].
  apply (proj1 (proj2 (proj2
           (zoom_scale_and_label_opacity (config 1 false) (Zoom.mkTransform 3%Q 0%Q 0%Q)
                                         twoLabels)))).
  exact H.
Defined.

End OnExamples.

(** * More on the link list and the neighbourhood *)

Section LinkListMore.

Import Index Neighbourhood Reach LinkSpec.

Variable simplifySlug : string -> string.
Variable cfg : D3Config.

Lemma addEntry_links : forall vl acc e l,
    In l (accLinks (addEntry simplifySlug cfg vl acc e)) <->
    In l (accLinks acc) \/ fromEntry simplifySlug cfg vl e l.
Proof.
  intros vl acc [src details] l. unfold addEntry, fromEntry. cbn [fst snd].
  assert (Hcontent :
            In l (map (fun dest => mkLink src dest)
                      (filter (fun dest => Js.mem dest vl)
                              (match links details with Some l1 => l1 | None => [] end))) <->
            source l = src /\
            exists outgoing, links details = Some outgoing /\
                             In (target l) outgoing /\ In (target l) vl).
  { rewrite in_map_iff. split.
    - intros [dest [<- Hd]]. apply filter_In in Hd. destruct Hd as [Hd Hm].
      apply mem_In in Hm. cbn [source target]. split; [reflexivity|].
      destruct (links details) as [ls|]; [|destruct Hd]. exists ls. auto.
    - intros [Hs [ls [Hls [Hin Hk]]]]. exists (target l). split.
      + destruct l as [s t]. cbn [source target] in *. congruence.
      + rewrite Hls. apply filter_In. split; [assumption | apply mem_In; assumption]. }
  assert (Htag :
            In l (map (fun tag => mkLink src tag) (localTags simplifySlug cfg details)) <->
            source l = src /\ In (target l) (localTags simplifySlug cfg details)).
  { rewrite in_map_iff. split.
    - intros [tag [<- Ht]]. auto.
    - intros [Hs Ht]. exists (target l). split; [|assumption].
      destruct l as [s t]. cbn [source target] in *. congruence. }
  destruct (showTags cfg); cbn [accLinks].
  - rewrite !in_app_iff, Hcontent, Htag. intuition congruence.
  - rewrite in_app_iff, Hcontent. intuition congruence.
Qed.

Lemma fold_addEntry_links : forall vl entries acc l,
    In l (accLinks (fold_left (addEntry simplifySlug cfg vl) entries acc)) <->
    In l (accLinks acc) \/
    exists e, In e entries /\ fromEntry simplifySlug cfg vl e l.
Proof.
  intros vl. induction entries as [|e entries IH]; intros acc l; simpl.
  - split; [auto | intros [H | [e [[] _]]]; assumption].
  - rewrite IH, addEntry_links. split.
    + intros [[H | H] | [e' [He' H]]]; auto.
      * right. exists e. auto.
      * right. exists e'. auto.
    + intros [H | [e' [[<- | He'] H]]]; auto.
      right. exists e'. auto.
Qed.

(** X1: the link list holds, for every page, one link to each of its
    link targets that is a key of the index and, when tags are shown, one
    to each of its drawn tags, and nothing else: a link to a slug that is
    not in the index is dropped. *)
Theorem links_are_the_pages_links :
  forall data l,
    In l (accLinks (buildLinks simplifySlug cfg data)) <->
    exists entry, In entry data /\
                  fromEntry simplifySlug cfg (map fst data) entry l.
Proof.
  intros data l. unfold buildLinks. rewrite fold_addEntry_links. cbn [accLinks].
  split.
  - intros [[] | [e [He [Hs H]]]]. exists e. split; [assumption|]. split; [assumption|].
    destruct H as [[ls [H1 [H2 H3]]] | H]; [left | right; assumption].
    exists ls. unfold validLinks in H3. rewrite set_of_In in H3. auto.
  - intros [e [He [Hs H]]]. right. exists e. split; [assumption|]. split; [assumption|].
    destruct H as [[ls [H1 [H2 H3]]] | H]; [left | right; assumption].
    exists ls. unfold validLinks. rewrite set_of_In. auto.
Qed.

Lemma buildLinks_withDepth : forall d data,
    buildLinks simplifySlug (withDepth d cfg) data = buildLinks simplifySlug cfg data.
Proof. intros d data. reflexivity. Qed.

End LinkListMore.

Section SetsMore.

Lemma set_add_NoDup : forall x s, NoDup s -> NoDup (Js.set_add x s).
Proof.
  intros x s H. unfold Js.set_add. destruct (Js.mem x s) eqn:E; [assumption|].
  apply mem_false in E. apply NoDup_app; [assumption | repeat constructor; intros [] |].
  intros y Hy [<- | []]. contradiction.
Qed.

Lemma set_add_all_NoDup : forall xs s, NoDup s -> NoDup (Js.set_add_all xs s).
Proof.
  unfold Js.set_add_all. induction xs as [|x xs IH]; intros s H; simpl; [assumption|].
  apply IH. apply set_add_NoDup. assumption.
Qed.

Lemma set_add_all_fresh : forall xs s,
    NoDup (s ++ xs) -> Js.set_add_all xs s = s ++ xs.
Proof.
  unfold Js.set_add_all. induction xs as [|x xs IH]; intros s H; simpl.
  - symmetry. apply app_nil_r.
  - assert (Hx : ~ In x s).
    { apply NoDup_remove_2 in H. intros Hin. apply H. apply in_app_iff. now left. }
    unfold Js.set_add at 2. apply mem_false in Hx. rewrite Hx.
    rewrite IH; rewrite <- app_assoc; [reflexivity | assumption].
Qed.

Lemma set_of_NoDup : forall xs, NoDup xs -> Js.set_of xs = xs.
Proof. intros xs H. unfold Js.set_of. apply (set_add_all_fresh xs []). assumption. Qed.


End SetsMore.

Section NeighbourhoodMore.

Import Index Neighbourhood Reach LinkSpec.

Variable links : list SimpleLinkData.


(** What every iteration keeps is true at loop exit. *)
Lemma bfs_run_keeps : forall (P : BfsState -> Prop),
    (forall st st', bfs_step links st = Some st' -> P st -> P st') ->
    forall f st fin, bfs_run f links st = Some fin -> P st -> P fin.
Proof.
  intros P Hstep. induction f as [|f IH]; intros st fin H HP; simpl in H;
    destruct (bfs_step links st) eqn:E; try discriminate.
  - inversion H; subst. assumption.
  - apply (IH _ _ H). apply (Hstep _ _ E HP).
  - inversion H; subst. assumption.
Qed.

Lemma bfs_step_cases : forall st st',
    bfs_step links st = Some st' ->
    (0 <= bfsDepth st)%Z /\
    exists cur rest, wl st = cur :: rest /\
      ((cur = SENTINEL /\ st' = mkBfs (bfsDepth st - 1) (rest ++ [SENTINEL]) (neighbourhood st)) \/
       (cur <> SENTINEL /\
        st' = mkBfs (bfsDepth st) (rest ++ pushed links cur) (Js.set_add cur (neighbourhood st)))).
Proof.
  intros st st' H. unfold bfs_step in H.
  destruct (0 <=? bfsDepth st)%Z eqn:Ed; [|discriminate]. apply Z.leb_le in Ed.
  split; [assumption|].
  destruct (wl st) as [|cur rest]; [discriminate|]. exists cur, rest. split; [reflexivity|].
  destruct (String.eqb cur SENTINEL) eqn:Ec; inversion H; subst.
  - left. apply String.eqb_eq in Ec. auto.
  - right. apply String.eqb_neq in Ec. auto.
Qed.

Lemma bfs_step_NoDup : forall st st',
    bfs_step links st = Some st' -> NoDup (neighbourhood st) -> NoDup (neighbourhood st').
Proof.
  intros st st' H Hn. destruct (bfs_step_cases st st' H) as [_ [cur [rest [_ [[_ ->] | [_ ->]]]]]];
    simpl; [assumption | apply set_add_NoDup; assumption].
Qed.


Lemma pushed_endpoint : forall cur x, In x (pushed links cur) -> endpoint links x.
Proof.
  intros cur x H. apply pushed_adjacent in H. destruct H as [l [Hl [[_ Ht] | [_ Hs]]]];
    exists l; auto.
Qed.

Lemma bfs_step_fromLinks : forall slug st st',
    bfs_step links st = Some st' -> fromLinks links slug st -> fromLinks links slug st'.
Proof.
  intros slug st st' H [Hw Hn].
  destruct (bfs_step_cases st st' H) as [_ [cur [rest [Hwl [[_ ->] | [Hc ->]]]]]];
    unfold fromLinks; simpl; rewrite Hwl in Hw.
  - split; [|assumption]. intros x Hx. apply in_app_iff in Hx.
    destruct Hx as [Hx | [<- | []]]; [apply Hw; now right | auto].
  - split.
    + intros x Hx. apply in_app_iff in Hx. destruct Hx as [Hx | Hx].
      * apply Hw. now right.
      * right. right. apply (pushed_endpoint cur). assumption.
    + intros x Hx. apply set_add_In in Hx. destruct Hx as [-> | Hx]; [|apply Hn; assumption].
      split; [assumption|]. destruct (Hw cur (or_introl eq_refl)) as [E | [E | E]]; auto.
      contradiction.
Qed.

End NeighbourhoodMore.

Section NeighbourhoodExtras.

Import Index Neighbourhood Reach LinkSpec Graph.

Lemma computeNeighbourhood_exit : forall simplifySlug cfg data slug nb,
    (0 <= depth cfg)%Z ->
    computeNeighbourhood simplifySlug cfg data slug = Some nb ->
    exists f fin,
      bfs_run f (accLinks (buildLinks simplifySlug cfg data)) (bfs_init slug (depth cfg)) =
      Some fin /\ nb = neighbourhood fin.
Proof.
  intros ss cfg data slug nb Hd H.
  destruct (computeNeighbourhood_loop ss cfg data slug Hd) as [fin [Hrun Hnb]].
  exists (bfs_fuel (accLinks (buildLinks ss cfg data)) (depth cfg)), fin.
  split; [assumption | congruence].
Qed.

Lemma computeNeighbourhood_NoDup : forall simplifySlug cfg data slug nb,
    computeNeighbourhood simplifySlug cfg data slug = Some nb -> NoDup nb.
Proof.
  intros ss cfg data slug nb H. destruct (Z_lt_ge_dec (depth cfg) 0) as [Hneg | Hpos].
  - unfold computeNeighbourhood in H.
    destruct (0 <=? depth cfg)%Z eqn:E; [apply Z.leb_le in E; lia|].
    inversion H; subst. destruct (showTags cfg); repeat apply set_add_all_NoDup; constructor.
  - destruct (computeNeighbourhood_exit ss cfg data slug nb) as [f [fin [Hrun ->]]];
      [lia | assumption |].
    apply (bfs_run_keeps _ (fun st => NoDup (neighbourhood st))
                         (bfs_step_NoDup _) f _ fin Hrun).
    constructor.
Qed.

Lemma buildGraph_nodes : forall simplifySlug cfg data slug g,
    buildGraph simplifySlug cfg data slug = Some (Some g) ->
    exists nb, computeNeighbourhood simplifySlug cfg data slug = Some nb /\
               nodes g = map (mkNode data) nb.
Proof.
  intros ss cfg data slug g H. unfold buildGraph in H.
  destruct (computeNeighbourhood ss cfg data slug) as [nb|]; [|discriminate].
  exists nb. split; [reflexivity|]. simpl in H. rewrite graphData_built in H.
  inversion H; subst. reflexivity.
Qed.

(** X3: the nodes of the graph have pairwise distinct ids, and looking
    the id of a node up in [nodeMap] gives that node back. *)
Theorem node_ids_are_distinct :
  forall (simplifySlug : string -> string) cfg data slug g,
    buildGraph simplifySlug cfg data slug = Some (Some g) ->
    NoDup (map id (nodes g)) /\
    forall n, In n (nodes g) -> nodeMap_get (nodes g) (id n) = Some n.
Proof.
  intros ss cfg data slug g H.
  destruct (buildGraph_nodes ss cfg data slug g H) as [nb [Hnb Hn]]. rewrite Hn. split.
  - rewrite map_map. rewrite (map_ext _ (fun x => x)); [|reflexivity]. rewrite map_id.
    apply (computeNeighbourhood_NoDup ss cfg data slug nb Hnb).
  - intros n Hin. apply in_map_iff in Hin. destruct Hin as [u [<- Hu]].
    apply nodeMap_get_node. assumption.
Qed.

(** X5: a slug of the neighbourhood is the focal slug, a key of the
    index or a drawn tag; at depth >= 0 the marker of the worklist is never
    among them. *)
Theorem neighbourhood_members :
  forall (simplifySlug : string -> string) cfg data slug nb,
    computeNeighbourhood simplifySlug cfg data slug = Some nb ->
    (forall x, In x nb ->
               x = slug \/ In x (map fst data) \/
               (showTags cfg = true /\ drawnTag simplifySlug cfg data x)) /\
    ((0 <= depth cfg)%Z -> ~ In SENTINEL nb).
Proof.
  intros ss cfg data slug nb H. destruct (Z_lt_ge_dec (depth cfg) 0) as [Hneg | Hpos].
  - split; [|lia]. intros x Hx.
    destruct (computeNeighbourhood_all ss cfg data slug Hneg) as [nb' [Hnb' Hall]].
    assert (nb' = nb) by congruence. subst nb'. right. apply Hall. assumption.
  - destruct (computeNeighbourhood_exit ss cfg data slug nb) as [f [fin [Hrun ->]]];
      [lia | assumption |].
    assert (HP : fromLinks (accLinks (buildLinks ss cfg data)) slug fin).
    { apply (bfs_run_keeps _ _ (bfs_step_fromLinks _ slug) f _ fin Hrun).
      split; simpl.
      - intros x [<- | [<- | []]]; auto.
      - intros x []. }
    destruct HP as [_ Hn]. split.
    + intros x Hx. destruct (Hn x Hx) as [_ [-> | [l [Hl He]]]]; [now left|].
      right. destruct (buildLinks_endpoints ss cfg data l Hl) as [Hs [Ht | Ht]].
      * left. destruct He; congruence.
      * destruct He as [<- | <-]; [now left|]. right. apply accTags_drawn. assumption.
    + intros _ Hin. destruct (Hn _ Hin) as [E _]. congruence.
Qed.

(** X6: with the marker kept apart, a greater depth never loses a
    slug: the neighbourhood at depth [d] is within the one at any depth
    [d' >= d]. *)
Theorem neighbourhood_grows_with_depth :
  forall (simplifySlug : string -> string) cfg data slug d d' nb nb',
    slug <> SENTINEL ->
    markerFree (accLinks (buildLinks simplifySlug cfg data)) ->
    (0 <= d)%Z -> (d <= d')%Z ->
    computeNeighbourhood simplifySlug (withDepth d cfg) data slug = Some nb ->
    computeNeighbourhood simplifySlug (withDepth d' cfg) data slug = Some nb' ->
    incl nb nb'.
Proof.
  intros ss cfg data slug d d' nb nb' Hslug Hfree Hd Hdd H H'.
  assert (Hlay : forall e n, (0 <= e)%Z ->
             computeNeighbourhood ss (withDepth e cfg) data slug = Some n ->
             n = Js.set_of (layers (accLinks (buildLinks ss cfg data))
                                   (Z.to_nat (e + 1)) [slug])).
  { intros e n He Hn.
    destruct (computeNeighbourhood_exit ss (withDepth e cfg) data slug n) as [f [fin [Hrun ->]]];
      [assumption | assumption |].
    rewrite buildLinks_withDepth in Hrun. cbn [depth withDepth] in Hrun.
    apply (bfs_init_layers _ slug e fin f He); [|assumption].
    intros k _. apply markerFree_layerAt; [assumption|]. intros [E | []]. congruence. }
  rewrite (Hlay d nb Hd H), (Hlay d' nb' ltac:(lia) H').
  intros x Hx. rewrite set_of_In in *. rewrite layers_In in *.
  destruct Hx as [k [Hk Hin]]. exists k. split; [lia | assumption].
Qed.

End NeighbourhoodExtras.

(** * The loop on doubles *)

Section DoubleDepth.

Import Neighbourhood.

Lemma nearest_safe : forall x, (0 <= x <= Doubles.safe)%Z -> Doubles.nearest x = x.
Proof.
  intros x [H0 H1]. unfold Doubles.safe in H1. unfold Doubles.nearest.
  rewrite (Qfloor_comp _ _ (double_Z x ltac:(lia))). apply Qfloor_Z.
Qed.

Lemma nearest_negative : forall x, (x < 0)%Z -> (Doubles.nearest x < 0)%Z.
Proof.
  intros x Hx. unfold Doubles.nearest.
  assert (H : (Float.double (inject_Z x) <= inject_Z (-1))%Q).
  { rewrite <- (double_Z (-1)) by (simpl; lia).
    apply double_le. rewrite <- Zle_Qle. lia. }
  apply Qfloor_resp_le in H. rewrite Qfloor_Z in H. lia.
Qed.

Lemma decrement_exact : forall d,
    (0 <= d <= Doubles.safe)%Z -> Doubles.decrement d = (d - 1)%Z.
Proof.
  intros d [H0 H1]. unfold Doubles.safe in H1. unfold Doubles.decrement.
  assert (E : (inject_Z d - 1 == inject_Z (d - 1))%Q).
  { unfold Z.sub. rewrite inject_Z_plus. reflexivity. }
  rewrite (Qfloor_comp _ _ (double_comp _ _ E)).
  rewrite (Qfloor_comp _ _ (double_Z (d - 1) ltac:(lia))). apply Qfloor_Z.
Qed.

(** At 2^54 the decrement is lost: the odd number below is no double and
    the tie goes back up. *)
Lemma decrement_lost : Doubles.decrement (2 ^ 54) = (2 ^ 54)%Z.
Proof. vm_compute. reflexivity. Qed.

Variable links : list SimpleLinkData.

Lemma double_step_agrees : forall st,
    (bfsDepth st <= Doubles.safe)%Z -> Doubles.bfs_step links st = bfs_step links st.
Proof.
  intros st H. unfold Doubles.bfs_step, bfs_step.
  destruct (0 <=? bfsDepth st)%Z eqn:E; [|reflexivity].
  apply Z.leb_le in E. rewrite decrement_exact by lia. reflexivity.
Qed.

Lemma bfs_step_depth : forall st st',
    bfs_step links st = Some st' -> (bfsDepth st' <= bfsDepth st)%Z.
Proof.
  intros st st' H. unfold bfs_step in H.
  destruct (0 <=? bfsDepth st)%Z; [|discriminate].
  destruct (wl st) as [|c rest]; [discriminate|].
  destruct (String.eqb c SENTINEL); inversion H; subst; simpl; lia.
Qed.

Lemma double_run_agrees : forall f st,
    (bfsDepth st <= Doubles.safe)%Z -> Doubles.bfs_run f links st = bfs_run f links st.
Proof.
  induction f as [|f IH]; intros st H; simpl; rewrite (double_step_agrees st H).
  - reflexivity.
  - destruct (bfs_step links st) as [st'|] eqn:E; [|reflexivity].
    apply IH. pose proof (bfs_step_depth st st' E). lia.
Qed.


Lemma double_run_unfold : forall f st,
    Doubles.bfs_run f links st =
    match Doubles.bfs_step links st with
    | None => Some st
    | Some st' => match f with O => None | S f' => Doubles.bfs_run f' links st' end
    end.
Proof. intros [|f] st; reflexivity. Qed.

(** A state that an iteration leaves as it is: the loop never ends. *)
Lemma double_run_stuck : forall st,
    Doubles.bfs_step links st = Some st ->
    forall f, Doubles.bfs_run f links st = None.
Proof.
  intros st H. induction f as [|f IH]; rewrite double_run_unfold, H; [reflexivity | assumption].
Qed.

(** From a focal slug on no link, at depth 2^54, no number of iterations
    ends the loop. *)
Lemma double_run_never_ends : forall slug,
    slug <> SENTINEL -> pushed links slug = [] ->
    forall f, Doubles.bfs_run f links (bfs_init slug (2 ^ 54)) = None.
Proof.
  intros slug Hs Hp f.
  assert (Hstep : Doubles.bfs_step links (bfs_init slug (2 ^ 54)) =
                  Some (mkBfs (2 ^ 54) [SENTINEL] [slug])).
  { unfold Doubles.bfs_step, bfs_init. cbn [bfsDepth wl neighbourhood].
    apply String.eqb_neq in Hs. rewrite Hs, Hp. reflexivity. }
  assert (Hloop : Doubles.bfs_step links (mkBfs (2 ^ 54) [SENTINEL] [slug]) =
                  Some (mkBfs (2 ^ 54) [SENTINEL] [slug])).
  { unfold Doubles.bfs_step. cbn [bfsDepth wl neighbourhood].
    rewrite String.eqb_refl, decrement_lost. reflexivity. }
  rewrite double_run_unfold, Hstep. destruct f as [|f]; [reflexivity|].
  apply double_run_stuck. exact Hloop.
Qed.

End DoubleDepth.

(** * The neighbourhood and the graph from a depth held in a double *)

Section DepthAsDouble.

Import Index Neighbourhood Reach LinkSpec Graph.

Lemma double_neighbourhood_agrees : forall simplifySlug cfg data slug,
    (depth cfg <= Doubles.safe)%Z ->
    Doubles.computeNeighbourhood simplifySlug cfg data slug =
    computeNeighbourhood simplifySlug cfg data slug.
Proof.
  intros ss cfg data slug H. unfold Doubles.computeNeighbourhood, computeNeighbourhood.
  destruct (Z_lt_ge_dec (depth cfg) 0) as [Hneg | Hpos].
  - pose proof (nearest_negative _ Hneg) as Hn.
    destruct (0 <=? Doubles.nearest (depth cfg))%Z eqn:E1; [apply Z.leb_le in E1; lia|].
    destruct (0 <=? depth cfg)%Z eqn:E2; [apply Z.leb_le in E2; lia|].
    reflexivity.
  - rewrite nearest_safe by lia.
    destruct (0 <=? depth cfg)%Z; [|reflexivity].
    rewrite double_run_agrees; [reflexivity | simpl; assumption].
Qed.

Lemma double_build_agrees : forall simplifySlug cfg data slug,
    (depth cfg <= Doubles.safe)%Z ->
    Doubles.buildGraph simplifySlug cfg data slug = buildGraph simplifySlug cfg data slug.
Proof.
  intros ss cfg data slug H. unfold Doubles.buildGraph, buildGraph.
  rewrite double_neighbourhood_agrees by assumption. reflexivity.
Qed.






(** C3 (amended): for a focal slug that is no key of the index, is not
    the worklist marker and is not the slug of a drawn tag, at an integer
    depth from 0 to 2^53 the graph has exactly one node, the focal slug
    itself, and no link. *)
Theorem missing_focal_single_node :
  forall (simplifySlug : string -> string) cfg data slug,
    ~ In slug (map fst data) ->
    slug <> SENTINEL ->
    (0 <= depth cfg <= Doubles.safe)%Z ->
    ~ (showTags cfg = true /\ drawnTag simplifySlug cfg data slug) ->
    Doubles.buildGraph simplifySlug cfg data slug =
    Some (Some (mkGraphData [mkNode data slug] [])).
Proof.
  intros ss cfg data slug Hkey Hslug [Hd Hsafe] Htag.
  rewrite double_build_agrees by assumption.
  destruct (stranger_pushes_nothing ss cfg data slug Hkey Htag) as [Hpush Hsrc].
  destruct (computeNeighbourhood_loop ss cfg data slug Hd) as [fin [Hrun Hnb]].
  assert (Hfin : neighbourhood fin = [slug]).
  { rewrite (bfs_init_layers _ slug (depth cfg) fin _ Hd) with (2 := Hrun).
    - replace (Z.to_nat (depth cfg + 1)) with (S (Z.to_nat (depth cfg))) by lia.
      rewrite layers_alone; [reflexivity | assumption].
    - intros k _. apply layerAt_alone; assumption. }
  unfold buildGraph. rewrite Hnb, Hfin. simpl option_map.
  rewrite graphData_built. simpl map at 1.
  rewrite keptLinks_none; [reflexivity | assumption].
Qed.

(** X2: the [tags] array built along with the link list holds exactly
    the slugs of the tags of the pages that [removeTags] does not list
    when [showTags] is set, and nothing when it is not; the array is read
    at depth < 0 only, where every tag of it is added to the neighbourhood
    and so gets a node. *)
Theorem tags_are_the_drawn_tags :
  forall (simplifySlug : string -> string) cfg data,
    (forall t, In t (accTags (buildLinks simplifySlug cfg data)) <->
               showTags cfg = true /\ drawnTag simplifySlug cfg data t) /\
    (showTags cfg = false -> accTags (buildLinks simplifySlug cfg data) = []) /\
    ((depth cfg < 0)%Z ->
     forall slug, exists g,
       Doubles.buildGraph simplifySlug cfg data slug = Some (Some g) /\
       forall t, In t (accTags (buildLinks simplifySlug cfg data)) ->
                 In (mkNode data t) (nodes g)).
Proof.
  intros ss cfg data. split; [|split].
  - intros t. apply accTags_drawn.
  - intros Hs. destruct (accTags (buildLinks ss cfg data)) as [|x xs] eqn:E; [reflexivity|].
    assert (H : In x (accTags (buildLinks ss cfg data))) by (rewrite E; now left).
    apply accTags_drawn in H. destruct H as [H _]. congruence.
  - intros Hd slug.
    rewrite double_build_agrees by (unfold Doubles.safe; lia).
    destruct (computeNeighbourhood_all ss cfg data slug Hd) as [nb [Hnb Hall]].
    unfold buildGraph. rewrite Hnb. simpl option_map. rewrite graphData_built.
    eexists. split; [reflexivity|]. cbn [nodes].
    intros t Ht. apply in_map. apply Hall. right. apply accTags_drawn. assumption.
Qed.


End DepthAsDouble.

Section OnDoubles.

Import Index Examples.

Lemma abc_links_at_any_depth : forall d,
    Neighbourhood.accLinks (Neighbourhood.buildLinks keepSlug (config d false) abc) = abcLinks.
Proof. intros d. reflexivity. Qed.

Lemma stranger_never_ends : forall f,
    Doubles.bfs_run f abcLinks (Neighbourhood.bfs_init "Z" (2 ^ 54)) = None.
Proof. apply double_run_never_ends; [discriminate | reflexivity]. Qed.

Lemma stranger_has_no_neighbourhood :
  Doubles.computeNeighbourhood keepSlug (config (2 ^ 54) false) abc "Z" = None.
Proof.
  unfold Doubles.computeNeighbourhood.
  replace (Doubles.nearest (depth (config (2 ^ 54) false))) with (2 ^ 54)%Z
    by (vm_compute; reflexivity).
  rewrite abc_links_at_any_depth.
  replace (0 <=? 2 ^ 54)%Z with true by reflexivity.
  cbv zeta. rewrite stranger_never_ends. reflexivity.
Qed.





(** C3, the claim as stated fails: for the focal slug ["Z"], which is
    no key of the index, the graph at depth 1 is not empty; and at depth
    2^54 the loop does not end, so that no graph is built. *)
Lemma missing_focal_graph_not_empty :
  ~ In "Z" (map fst abc) /\
  ~ (exists g,
        Doubles.buildGraph keepSlug (config 1 false) abc "Z" = Some (Some g) /\
        Graph.nodes g = [] /\ Graph.links g = []) /\
  (forall f, Doubles.bfs_run f abcLinks (Neighbourhood.bfs_init "Z" (2 ^ 54)) = None) /\
  Doubles.buildGraph keepSlug (config (2 ^ 54) false) abc "Z" = None.
Proof.
  split; [|split; [|split]].
  - simpl. intros [H | [H | [H | []]]]; discriminate H.
  - intros [g [H [Hn _]]]. vm_compute in H. inversion H; subst. discriminate Hn.
  - exact stranger_never_ends.
  - unfold Doubles.buildGraph. rewrite stranger_has_no_neighbourhood. reflexivity.
Qed.

Lemma missing_focal_single_node_witness :
  ~ In "Z" (map fst abc) /\
  (0 <= depth (config 1 false) <= Doubles.safe)%Z /\
  Doubles.buildGraph keepSlug (config 1 false) abc "Z" =
  Some (Some (Graph.mkGraphData [Graph.mkNode abc "Z"] [])).
Proof.
  assert (H : ~ In "Z" (map fst abc)).
  { simpl. intros [H | [H | [H | []]]]; discriminate H. }
  assert (Hd : (0 <= depth (config 1 false) <= Doubles.safe)%Z)
    by (split; vm_compute; discriminate).
  split; [exact H|]. split; [exact Hd|].
  apply (missing_focal_single_node keepSlug (config 1 false) abc "Z" H).
  - discriminate.
  - exact Hd.
  - intros [Hs _]. discriminate Hs.
Defined.

(** At depth 0 the array is not consulted: the tag of [A] is in it and
    the graph of [B] has the node of [B] alone. *)
Lemma array_tag_without_node :
  In "tags/x" (Neighbourhood.accTags
                 (Neighbourhood.buildLinks keepSlug (config 0 true) abc)) /\
  Doubles.buildGraph keepSlug (config 0 true) abc "B" =
  Some (Some (Graph.mkGraphData [Graph.mkNode abc "B"] [])).
Proof. split; [left; reflexivity | vm_compute; reflexivity]. Qed.

Lemma tags_are_the_drawn_tags_witness :
  (depth (config (-1) true) < 0)%Z /\
  exists g,
    Doubles.buildGraph keepSlug (config (-1) true) abc "A" = Some (Some g) /\
    In (Graph.mkNode abc "tags/x") (Graph.nodes g).
Proof.
  assert (H : (depth (config (-1) true) < 0)%Z) by reflexivity.
  split; [exact H|].
  destruct (proj2 (proj2 (tags_are_the_drawn_tags keepSlug (config (-1) true) abc)) H "A")
    as [g [Hg Ht]].
  exists g. split; [exact Hg|]. apply Ht. vm_compute. left. reflexivity.
Defined.


End OnDoubles.

(** * Link counts *)

Section CountsFacts.

Import Graph Counts.

Lemma has_key : forall key (m : list (string * nat)),
    existsb (fun e => String.eqb (fst e) key) m = true <-> In key (map fst m).
Proof.
  intros key m. rewrite existsb_exists, in_map_iff. split.
  - intros [e [He Hk]]. apply String.eqb_eq in Hk. exists e. auto.
  - intros [e [Hk He]]. exists e. split; [assumption | apply String.eqb_eq; assumption].
Qed.

Lemma get_head : forall k n m key,
    get ((k, n) :: m) key = if String.eqb k key then n else get m key.
Proof. intros. unfold get. simpl. destruct (String.eqb k key); reflexivity. Qed.

Lemma get_replaced : forall key v m key',
    get (map (fun e => if String.eqb (fst e) key then (key, v) else e) m) key' =
    if String.eqb key' key
    then (if existsb (fun e => String.eqb (fst e) key) m then v else 0)
    else get m key'.
Proof.
  intros key v m key'. induction m as [|[k n] m IH]; cbn [map existsb fst].
  - unfold get. simpl. destruct (String.eqb key' key); reflexivity.
  - destruct (String.eqb k key) eqn:Ek; cbv iota; cbn [orb]; rewrite !get_head, IH.
    + apply String.eqb_eq in Ek. subst k. rewrite (String.eqb_sym key key').
      destruct (String.eqb key' key); reflexivity.
    + destruct (String.eqb k key') eqn:Ek'; [|reflexivity].
      apply String.eqb_eq in Ek'. subst k. rewrite Ek. reflexivity.
Qed.

Lemma get_appended : forall key v m key',
    existsb (fun e => String.eqb (fst e) key) m = false ->
    get (m ++ [(key, v)]) key' = if String.eqb key' key then v else get m key'.
Proof.
  intros key v m key' H. induction m as [|[k n] m IH]; cbn [app].
  - rewrite get_head, (String.eqb_sym key key'). destruct (String.eqb key' key); reflexivity.
  - cbn [existsb fst] in H. apply orb_false_iff in H. destruct H as [Hk H].
    rewrite !get_head, (IH H). destruct (String.eqb k key') eqn:Ek'; [|reflexivity].
    apply String.eqb_eq in Ek'. subst k. rewrite Hk. reflexivity.
Qed.

(** Lookup after an update. *)
Lemma get_set : forall key v m key',
    get (set key v m) key' = if String.eqb key' key then v else get m key'.
Proof.
  intros key v m key'. unfold set.
  destruct (existsb (fun e => String.eqb (fst e) key) m) eqn:Ex.
  - rewrite get_replaced, Ex. reflexivity.
  - apply get_appended. assumption.
Qed.

Lemma total_app : forall a b, total (a ++ b) = total a + total b.
Proof. induction a as [|e a IH]; intros b; simpl; [reflexivity | rewrite IH; lia]. Qed.

Lemma set_keys : forall key v m,
    map fst (set key v m) =
    if existsb (fun e => String.eqb (fst e) key) m then map fst m else map fst m ++ [key].
Proof.
  intros key v m. unfold set.
  destruct (existsb (fun e => String.eqb (fst e) key) m).
  - rewrite map_map. apply map_ext. intros [k n]. simpl.
    destruct (String.eqb k key) eqn:E; [apply String.eqb_eq in E; now subst | reflexivity].
  - rewrite map_app. reflexivity.
Qed.

Lemma set_NoDup : forall key v m, NoDup (map fst m) -> NoDup (map fst (set key v m)).
Proof.
  intros key v m H. rewrite set_keys.
  destruct (existsb (fun e => String.eqb (fst e) key) m) eqn:Ex; [assumption|].
  apply NoDup_app; [assumption | repeat constructor; intros [] |].
  intros k Hk [<- | []]. apply has_key in Hk. congruence.
Qed.

Lemma total_replaced : forall key v m,
    NoDup (map fst m) -> In key (map fst m) ->
    total (map (fun e => if String.eqb (fst e) key then (key, v) else e) m) + get m key =
    total m + v.
Proof.
  intros key v. induction m as [|[k n] m IH]; intros Hnd Hin; [destruct Hin|].
  cbn [map fst] in *. inversion Hnd as [|? ? Hk Hm]; subst.
  rewrite get_head. destruct (String.eqb k key) eqn:Ek.
  - apply String.eqb_eq in Ek. subst k.
    replace (map (fun e => if String.eqb (fst e) key then (key, v) else e) m) with m.
    + simpl. lia.
    + clear IH Hnd Hin Hm. induction m as [|[k' n'] m IH]; [reflexivity|].
      simpl in *. destruct (String.eqb k' key) eqn:E.
      * apply String.eqb_eq in E. exfalso. apply Hk. now left.
      * f_equal. apply IH. intros H. apply Hk. now right.
  - destruct Hin as [E | Hin]; [subst; rewrite String.eqb_refl in Ek; discriminate|].
    specialize (IH Hm Hin). simpl. simpl in IH. lia.
Qed.

Lemma total_set : forall key v m,
    NoDup (map fst m) -> total (set key v m) + get m key = total m + v.
Proof.
  intros key v m H. unfold set.
  destruct (existsb (fun e => String.eqb (fst e) key) m) eqn:Ex.
  - apply total_replaced; [assumption | apply has_key; assumption].
  - rewrite total_app. simpl.
    assert (get m key = 0).
    { unfold get. clear H. induction m as [|[k n] m IH]; [reflexivity|].
      simpl in *. apply orb_false_iff in Ex. destruct Ex as [Hk Ex]. rewrite Hk. auto. }
    lia.
Qed.

Lemma countLink_total : forall m l,
    NoDup (map fst m) ->
    NoDup (map fst (countLink m l)) /\ total (countLink m l) = total m + 2.
Proof.
  intros m l H. unfold countLink.
  set (m1 := set (id (source l)) (get m (id (source l)) + 1) m).
  assert (H1 : NoDup (map fst m1)) by (apply set_NoDup; assumption).
  split; [apply set_NoDup; assumption|].
  pose proof (total_set (id (target l)) (get m1 (id (target l)) + 1) m1 H1) as T2.
  pose proof (total_set (id (source l)) (get m (id (source l)) + 1) m H) as T1.
  fold m1 in T1. lia.
Qed.

Lemma countLink_get : forall m l key,
    get (countLink m l) key =
    get m key + (if String.eqb (id (source l)) key then 1 else 0)
              + (if String.eqb (id (target l)) key then 1 else 0).
Proof.
  intros m l key. unfold countLink. rewrite !get_set.
  generalize (id (source l)) (id (target l)). intros s t.
  destruct (String.eqb key t) eqn:Et; destruct (String.eqb key s) eqn:Es;
    destruct (String.eqb t s) eqn:Ets; destruct (String.eqb s key) eqn:Es';
    destruct (String.eqb t key) eqn:Et';
    repeat match goal with
           | H : String.eqb _ _ = true |- _ => apply String.eqb_eq in H
           | H : String.eqb _ _ = false |- _ => apply String.eqb_neq in H
           end;
    subst; try congruence; lia.
Qed.

Lemma fold_countLink : forall ls m key,
    NoDup (map fst m) ->
    NoDup (map fst (fold_left countLink ls m)) /\
    total (fold_left countLink ls m) = total m + 2 * List.length ls /\
    get (fold_left countLink ls m) key = get m key + degree ls key.
Proof.
  induction ls as [|l ls IH]; intros m key H; simpl.
  - unfold degree. simpl. repeat split; [assumption | lia | lia].
  - destruct (countLink_total m l H) as [H1 T1].
    destruct (IH (countLink m l) key H1) as [Hn [Ht Hg]].
    split; [assumption|]. split; [lia|].
    rewrite Hg, countLink_get. unfold degree. simpl.
    destruct (String.eqb (id (source l)) key); destruct (String.eqb (id (target l)) key);
      simpl; lia.
Qed.

(** X7: [linkCounts] gives every node the number of rendered links
    that leave it plus the number that arrive at it (a link from a node to
    itself counts twice, a node on no link has no entry and counts 0), and
    the counts add up to twice the number of links. *)
Theorem link_counts_are_degrees :
  forall ls key,
    get (linkCounts ls) key = degree ls key /\
    total (linkCounts ls) = 2 * List.length ls /\
    NoDup (map fst (linkCounts ls)).
Proof.
  intros ls key. unfold linkCounts.
  destruct (fold_countLink ls [] key) as [Hn [Ht Hg]]; [constructor|].
  simpl in Ht. unfold get at 2 in Hg. simpl in Hg. auto.
Qed.

(** X8: the collision force runs 1, 2 or 3 iterations, and never more
    on a graph with more nodes. *)
Theorem collide_iterations_shrink :
  forall n m,
    1 <= collideIterations n <= 3 /\
    (n <= m -> collideIterations m <= collideIterations n).
Proof.
  intros n m. unfold collideIterations.
  destruct (Nat.ltb 500 n) eqn:E1; destruct (Nat.ltb 200 n) eqn:E2;
    destruct (Nat.ltb 500 m) eqn:E3; destruct (Nat.ltb 200 m) eqn:E4;
    repeat match goal with
           | H : Nat.ltb _ _ = true |- _ => apply Nat.ltb_lt in H
           | H : Nat.ltb _ _ = false |- _ => apply Nat.ltb_ge in H
           end;
    lia.
Qed.

End CountsFacts.

(** * The visited set *)

Section VisitedFacts.

Import Visited.

Lemma getVisited_NoDup : forall store, NoDup (getVisited store).
Proof. intros store. unfold getVisited, Js.set_of. apply set_add_all_NoDup. constructor. Qed.

(** X9: after [addToVisited slug] the slug is visited, every slug
    visited before still is and no other slug is, the stored array has no
    duplicates, and adding the slug again changes nothing. *)
Theorem visited_only_grows :
  forall slug store,
    let store' := addToVisited slug store in
    (forall x, In x (getVisited store') <-> x = slug \/ In x (getVisited store)) /\
    NoDup (getVisited store') /\
    store' = Some (getVisited store') /\
    addToVisited slug store' = store'.
Proof.
  intros slug store store'. subst store'.
  assert (Hn : NoDup (Js.set_add slug (getVisited store)))
    by (apply set_add_NoDup, getVisited_NoDup).
  assert (Hg : getVisited (addToVisited slug store) = Js.set_add slug (getVisited store)).
  { unfold addToVisited. unfold getVisited at 1. apply set_of_NoDup. assumption. }
  split; [|split; [|split]].
  - intros x. rewrite Hg. apply set_add_In.
  - rewrite Hg. assumption.
  - rewrite Hg. reflexivity.
  - unfold addToVisited at 1. rewrite Hg. unfold addToVisited. f_equal.
    unfold Js.set_add at 1.
    assert (Hin : Js.mem slug (Js.set_add slug (getVisited store)) = true).
    { apply mem_In. apply set_add_In. now left. }
    rewrite Hin. reflexivity.
Qed.

End VisitedFacts.

(** * What a hover asks of the tweens *)

Section HighlightFacts.

Import Graph Hover Highlight.

(** X10: after a hover on a node with a non-empty id, the links at
    that node get alpha 1 and the colour of active links, all others alpha
    0.2 and the colour of inactive links; with [focusOnHover] the nodes on
    such a link get alpha 1 and all others 0.2, the hovered node too when
    no link touches it; without [focusOnHover] every node gets alpha 1. *)
Theorem hover_targets :
  forall st a gray lightgray,
    a <> EmptyString ->
    let st' := updateHoverInfo (Some a) st in
    (forall l, In l (linkRenderData st') ->
               (touches a (simulationData l) = true ->
                linkAlpha st' l = 1%Q /\ linkColor gray lightgray l = gray) /\
               (touches a (simulationData l) = false ->
                linkAlpha st' l = (2 # 10)%Q /\ linkColor gray lightgray l = lightgray)) /\
    (forall n, In n (nodeRenderData st') ->
               nodeAlpha false st' n = 1%Q /\
               (besideHovered a (id (simulationData n)) (linkRenderData st) ->
                nodeAlpha true st' n = 1%Q) /\
               (~ besideHovered a (id (simulationData n)) (linkRenderData st) ->
                nodeAlpha true st' n = (2 # 10)%Q)) /\
    (~ onLink a (linkRenderData st) ->
     forall n, In n (nodeRenderData st') -> nodeAlpha true st' n = (2 # 10)%Q).
Proof.
  intros st a gray lightgray Ha st'. subst st'.
  assert (Htruthy : truthy (Some a) = true).
  { simpl. apply negb_true_iff. apply String.eqb_neq. assumption. }
  assert (Hnodes : forall n,
             In n (nodeRenderData (updateHoverInfo (Some a) st)) ->
             (active n = true <->
              besideHovered a (id (simulationData n)) (linkRenderData st))).
  { intros n Hn. simpl in Hn. apply in_map_iff in Hn. destruct Hn as [n0 [<- _]]. simpl.
    rewrite mem_In. apply collectNeighbours_In. }
  split; [|split].
  - intros l Hl. simpl in Hl. apply in_map_iff in Hl. destruct Hl as [l0 [<- _]].
    unfold linkAlpha, linkColor. cbn [hoveredNodeId updateHoverInfo]. rewrite Htruthy.
    simpl. split; intros ->; split; reflexivity.
  - intros n Hn. specialize (Hnodes n Hn). unfold nodeAlpha. cbn [hoveredNodeId updateHoverInfo].
    split; [reflexivity|]. simpl. split.
    + intros Hb. apply Hnodes in Hb. rewrite Hb. reflexivity.
    + intros Hb. destruct (active n) eqn:E; [|reflexivity].
      exfalso. apply Hb. apply Hnodes. reflexivity.
  - intros Hno n Hn. specialize (Hnodes n Hn). unfold nodeAlpha.
    cbn [hoveredNodeId updateHoverInfo]. simpl.
    destruct (active n) eqn:E; [|reflexivity].
    exfalso. apply Hno. destruct (proj1 Hnodes eq_refl) as [l [Hl [Ht _]]].
    exists l. auto.
Qed.

(** X11: once the pointer has left, [renderLinks] and [renderNodes]
    send every link and every node back to alpha 1, and every link takes
    the colour of inactive links; a hover followed by a leave ends in the
    state that the leave alone gives, so a hover leaves no trace. *)
Theorem leave_targets :
  forall st focusOnHover gray lightgray,
    let st' := updateHoverInfo None st in
    (forall l, In l (linkRenderData st') ->
               linkAlpha st' l = 1%Q /\ linkColor gray lightgray l = lightgray) /\
    (forall n, In n (nodeRenderData st') -> nodeAlpha focusOnHover st' n = 1%Q) /\
    (forall h, updateHoverInfo None (updateHoverInfo h st) = st').
Proof.
  intros st focus gray lightgray st'. subst st'. split; [|split].
  - intros l Hl. simpl in Hl. apply in_map_iff in Hl. destruct Hl as [l0 [<- _]].
    split; reflexivity.
  - intros n Hn. reflexivity.
  - intros [a|]; unfold updateHoverInfo; cbn [linkRenderData nodeRenderData];
      rewrite !map_map; f_equal; apply map_ext; intros r; reflexivity.
Qed.

End HighlightFacts.

(** * The events of one mounted graph *)

Section SessionFacts.

Import Runtime Session.

Lemma frame_oneChain : forall time alpha alphaMin st,
    oneChain st -> oneChain (frame time alpha alphaMin st).
Proof.
  intros time alpha alphaMin st H. unfold oneChain in H. unfold frame.
  destruct (animationRunning st) eqn:Er; rewrite H; [|unfold oneChain; rewrite Er; assumption].
  unfold animate, oneChain. cbn [stopAnimation animationRunning frameRequests tweens].
  destruct (stopAnimation st); [reflexivity|].
  destruct (cooled alpha alphaMin && _); reflexivity.
Qed.

Lemma ensureAnimating_oneChain : forall st, oneChain st -> oneChain (ensureAnimating st).
Proof.
  intros st H. unfold oneChain in *. unfold ensureAnimating.
  destruct (animationRunning st) eqn:Er; destruct (stopAnimation st) eqn:Es;
    cbn [negb andb]; rewrite ?Er; try assumption.
  cbn [frameRequests animationRunning]. rewrite H. reflexivity.
Qed.

Lemma onHoverChange_oneChain : forall now n l st,
    oneChain st -> oneChain (onHoverChange now n l st).
Proof.
  intros now n l st H. unfold onHoverChange. destruct (dragging st); [assumption|].
  unfold renderPixiFromD3. apply ensureAnimating_oneChain.
  destruct (render_flags now n l st) as [Hr [_ [Hf _]]].
  unfold oneChain in *. rewrite Hr, Hf. assumption.
Qed.

Lemma handle_oneChain : forall ev i, oneChain (loop i) -> oneChain (loop (handle ev i)).
Proof.
  intros ev i H. destruct ev; cbn [handle onLoop loop cleanup].
  - apply frame_oneChain. assumption.
  - apply onHoverChange_oneChain. assumption.
  - apply ensureAnimating_oneChain. assumption.
  - exact H.
  - exact H.
  - exact H.
Qed.

Lemma run_oneChain : forall evs i, oneChain (loop i) -> oneChain (loop (run evs i)).
Proof.
  unfold run. induction evs as [|ev evs IH]; intros i Hi; simpl; [assumption|].
  apply IH. apply handle_oneChain. assumption.
Qed.

(** X12: whatever the events, a frame is requested exactly while
    [animationRunning] is set, and never more than one: two chains of
    frames never run side by side. *)
Theorem one_frame_chain :
  forall evs,
    let i := run evs mountedInstance in
    frameRequests (loop i) = (if animationRunning (loop i) then 1 else 0) /\
    frameRequests (loop i) <= 1.
Proof.
  intros evs i. subst i.
  assert (H : oneChain (loop (run evs mountedInstance)))
    by (apply run_oneChain; reflexivity).
  unfold oneChain in H. split; [assumption|].
  rewrite H. destruct (animationRunning _); lia.
Qed.

Lemma handle_halted : forall ev i,
    halted i ->
    halted (handle ev i) /\
    frameRequests (loop (handle ev i)) <= frameRequests (loop i) /\
    (isFrame ev = true -> frameRequests (loop (handle ev i)) = 0 /\
                          animationRunning (loop (handle ev i)) = false).
Proof.
  intros ev i [Hs Hc]. split; [split; [|apply handle_oneChain; assumption]|].
  - destruct ev; cbn [handle onLoop loop cleanup stopAnimation]; try reflexivity; try assumption.
    + unfold frame. destruct (frameRequests (loop i)); [assumption|].
      unfold animate. cbn [stopAnimation]. rewrite Hs. reflexivity.
    + unfold onHoverChange. destruct (dragging (loop i)); [assumption|].
      destruct (renderPixiFromD3_flags now nodeCount linkCount (loop i)) as [H _].
      rewrite H. assumption.
    + unfold ensureAnimating. rewrite Hs, andb_false_r. assumption.
  - unfold oneChain in Hc. destruct ev; cbn [handle onLoop loop cleanup frameRequests isFrame].
    + assert (Hf : frameRequests (frame time alpha alphaMin (loop i)) = 0 /\
                   animationRunning (frame time alpha alphaMin (loop i)) = false).
      { unfold frame. destruct (animationRunning (loop i)) eqn:Er; rewrite Hc.
        - unfold animate. cbn [stopAnimation]. rewrite Hs. split; reflexivity.
        - rewrite Er. auto. }
      destruct Hf as [Hf1 Hf2]. rewrite Hf1. split; [lia | auto].
    + split; [|discriminate]. unfold onHoverChange. destruct (dragging (loop i)); [lia|].
      destruct (renderPixiFromD3_flags now nodeCount linkCount (loop i)) as [_ [_ [_ H]]].
      rewrite H, Hs, andb_false_r. lia.
    + split; [|discriminate]. unfold ensureAnimating. rewrite Hs, andb_false_r. lia.
    + unfold setDragging. cbn [frameRequests]. split; [lia | discriminate].
    + unfold setDragging. cbn [frameRequests]. split; [lia | discriminate].
    + split; [lia | discriminate].
Qed.

Lemma run_halted : forall evs i,
    halted i ->
    halted (run evs i) /\
    frameRequests (loop (run evs i)) <= frameRequests (loop i) /\
    (existsb isFrame evs = true ->
     frameRequests (loop (run evs i)) = 0 /\ animationRunning (loop (run evs i)) = false).
Proof.
  unfold run. induction evs as [|ev evs IH]; intros i Hi; simpl.
  - split; [assumption|]. split; [lia | discriminate].
  - destruct (handle_halted ev i Hi) as [Hh [Hle Hfr]].
    destruct (IH (handle ev i) Hh) as [Hh' [Hle' Hfr']].
    split; [assumption|]. split; [lia|].
    intros Hex. apply orb_true_iff in Hex. destruct Hex as [Hev | Hex]; [|auto].
    destruct (Hfr Hev) as [H0 _].
    assert (Hz : frameRequests (loop (fold_left (fun s e => handle e s) evs (handle ev i))) = 0)
      by lia.
    split; [assumption|].
    destruct Hh' as [_ Hc]. unfold oneChain in Hc. rewrite Hz in Hc.
    destruct (animationRunning
                (loop (fold_left (fun s e => handle e s) evs (handle ev i)))) eqn:E;
      [discriminate | reflexivity].
Qed.

(** X13: after the teardown no event requests a frame: the one frame
    that may still be requested returns without rescheduling, and from then
    on the loop is idle whatever hovers, zooms and ticks follow. *)
Theorem teardown_ends_the_loop :
  forall before after,
    let i := run (before ++ Teardown :: after) mountedInstance in
    stopAnimation (loop i) = true /\
    frameRequests (loop i) <= 1 /\
    (existsb isFrame after = true ->
     frameRequests (loop i) = 0 /\ animationRunning (loop i) = false).
Proof.
  intros before after i. subst i. unfold run. rewrite fold_left_app. cbn [fold_left].
  fold (run before mountedInstance).
  set (i0 := run before mountedInstance).
  assert (H0 : oneChain (loop i0)) by (apply run_oneChain; reflexivity).
  assert (Hh : halted (handle Teardown i0)).
  { split; [reflexivity | exact H0]. }
  destruct (run_halted after (handle Teardown i0) Hh) as [[Hs Hc] [Hle Hfr]].
  unfold run in *. split; [assumption|]. split; [|assumption].
  unfold oneChain in Hc. rewrite Hc. destruct (animationRunning _); lia.
Qed.

End SessionFacts.

(** * More on the popover *)

Section PopoverMore.

Import Runtime Header.

Lemma prefix_empty : forall s, String.prefix EmptyString s = true.
Proof. intros [|c s]; reflexivity. Qed.

Lemma prefix_firstField : forall p h,
    plain p = true -> String.prefix p (firstField h) = String.prefix p h.
Proof.
  induction p as [|c p IH]; intros h Hp.
  - rewrite !prefix_empty. reflexivity.
  - cbn [plain] in Hp. apply andb_true_iff in Hp. destruct Hp as [Hc Hp].
    apply negb_true_iff in Hc.
    destruct h as [|c' h]; [reflexivity|]. cbn [firstField].
    destruct (Ascii.eqb c' ";") eqn:E.
    + apply Ascii.eqb_eq in E. subst c'. simpl.
      destruct (ascii_dec c ";") as [->|Hn]; [|reflexivity].
      rewrite Ascii.eqb_refl in Hc. discriminate.
    + simpl. destruct (ascii_dec c c'); [apply IH; assumption | reflexivity].
Qed.

(** X15: whether a response is previewed depends on the start of its
    [Content-Type] header alone: what follows a semicolon plays no part,
    and a response without the header is not previewed. *)
Theorem content_type_parameters_are_ignored :
  forall code header elts,
    Js.startsWith (contentTypeOf (mkResponse code (Some header) elts)) "text/html" =
    Js.startsWith header "text/html" /\
    Js.startsWith (contentTypeOf (mkResponse code None elts)) "text/html" = false.
Proof.
  intros code header elts. split; [|reflexivity].
  unfold contentTypeOf, Js.startsWith. cbn [contentTypeHeader].
  apply prefix_firstField. reflexivity.
Qed.

End PopoverMore.

(** * The popover, its timers and its fetch *)

Section AsyncFacts.

Import Async.

Lemma clearTimeout_In : forall t l h a,
    In (h, a) (clearTimeout t l) <-> In (h, a) l /\ t <> Some h.
Proof.
  intros t l h a. unfold clearTimeout. destruct t as [h0|].
  - rewrite filter_In. cbn [fst]. rewrite negb_true_iff, Nat.eqb_neq.
    split; intros [H1 H2]; (split; [assumption|]); congruence.
  - split; [intros H; split; [assumption | discriminate] | tauto].
Qed.

Lemma filter_handles_NoDup : forall (A B : Type) (key : A -> B) (f : A -> bool) l,
    NoDup (map key l) -> NoDup (map key (filter f l)).
Proof.
  intros A B key f. induction l as [|e l IH]; intros H; simpl; [constructor|].
  inversion H as [|? ? Hn Hl]; subst. destruct (f e); simpl; [|auto].
  constructor; [|auto]. intros Hin. apply Hn.
  apply in_map_iff in Hin. destruct Hin as [e' [He' Hf]]. apply filter_In in Hf.
  apply in_map_iff. exists e'. tauto.
Qed.

Lemma clearTimeout_NoDup : forall t l, NoDup (map fst l) -> NoDup (map fst (clearTimeout t l)).
Proof.
  intros t l H. unfold clearTimeout. destruct t; [apply filter_handles_NoDup|]; assumption.
Qed.

(** *** The timers *)

Lemma clear_tracked : forall st, tracked st -> live (clearGraphPopover st) = [].
Proof.
  intros st [Hheld _]. unfold clearGraphPopover. cbn [live].
  destruct (clearTimeout _ _) as [|[h a] rest] eqn:E; [reflexivity|].
  assert (Hin : In (h, a) (clearTimeout (hideTimeout st)
                             (clearTimeout (popoverTimeout st) (live st))))
    by (rewrite E; now left).
  apply clearTimeout_In in Hin. destruct Hin as [Hin Hh].
  apply clearTimeout_In in Hin. destruct Hin as [Hin Hp].
  destruct (Hheld h a Hin) as [[H _] | [H _]]; contradiction.
Qed.

Lemma tracked_idle : forall p h a b n o c, tracked (mkState p h a b [] n o c).
Proof.
  intros. split; [intros ? ? []|]. split; [constructor | intros ? ? []].
Qed.

Lemma clearGraphPopover_tracked : forall st, tracked st -> tracked (clearGraphPopover st).
Proof.
  intros st H. pose proof (clear_tracked st H) as E.
  unfold clearGraphPopover in *. cbn [live] in E. rewrite E. apply tracked_idle.
Qed.

Lemma scheduleShow_tracked : forall st, tracked st -> tracked (scheduleShow st).
Proof.
  intros st H. unfold scheduleShow. rewrite (clear_tracked st H).
  split; [|split]; cbn [live popoverTimeout map fst nextTimer clearGraphPopover].
  - intros h a [E | []]. inversion E; subst. left. split; reflexivity.
  - repeat constructor. intros [].
  - intros h a [E | []]. inversion E; subst. lia.
Qed.

Lemma scheduleHidePopover_tracked : forall st, tracked st -> tracked (scheduleHidePopover st).
Proof.
  intros st [Hheld [Hnd Hlt]]. unfold scheduleHidePopover.
  split; [|split]; cbn [live popoverTimeout hideTimeout nextTimer map fst].
  - intros h a [E | Hin].
    + inversion E; subst. right. auto.
    + apply clearTimeout_In in Hin. destruct Hin as [Hin Hh].
      destruct (Hheld h a Hin) as [H | [H _]]; [left; assumption | contradiction].
  - constructor; [|apply clearTimeout_NoDup; assumption].
    intros Hin. apply in_map_iff in Hin. destruct Hin as [[h a] [Hh Hin]]. cbn [fst] in Hh.
    apply clearTimeout_In in Hin. destruct Hin as [Hin _].
    specialize (Hlt h a Hin). lia.
  - intros h a [E | Hin].
    + inversion E; subst. lia.
    + apply clearTimeout_In in Hin. destruct Hin as [Hin _]. specialize (Hlt h a Hin). lia.
Qed.

Lemma cancelHidePopover_tracked : forall st, tracked st -> tracked (cancelHidePopover st).
Proof.
  intros st [Hheld [Hnd Hlt]]. unfold cancelHidePopover.
  split; [|split]; cbn [live popoverTimeout hideTimeout nextTimer].
  - intros h a Hin. apply clearTimeout_In in Hin. destruct Hin as [Hin Hh].
    destruct (Hheld h a Hin) as [H | [H _]]; [left; assumption | contradiction].
  - apply clearTimeout_NoDup. assumption.
  - intros h a Hin. apply clearTimeout_In in Hin. destruct Hin as [Hin _]. eauto.
Qed.

Lemma fired_tracked : forall h st,
    tracked st ->
    tracked (mkState (popoverTimeout st) (hideTimeout st) (activePopover st) (body st)
                     (filter (fun e => negb (Nat.eqb (fst e) h)) (live st))
                     (nextTimer st) (nextObject st) (inFlight st)).
Proof.
  intros h st [Hheld [Hnd Hlt]]. split; [|split]; cbn [live popoverTimeout hideTimeout nextTimer].
  - intros h' a Hin. apply filter_In in Hin. destruct Hin as [Hin _]. auto.
  - apply filter_handles_NoDup. assumption.
  - intros h' a Hin. apply filter_In in Hin. destruct Hin as [Hin _]. eauto.
Qed.

Lemma showStart_live : forall target st, live (showStart target st) = live (clearGraphPopover st).
Proof.
  intros target st. unfold showStart. destruct target as [p|]; [|reflexivity].
  destruct (getElementById _ _); reflexivity.
Qed.

Lemma showStart_tracked : forall target st, tracked st -> tracked (showStart target st).
Proof.
  intros target st H. pose proof (clear_tracked st H) as E.
  unfold showStart. destruct target as [p|]; [|apply clearGraphPopover_tracked; assumption].
  destruct (getElementById _ _); rewrite E; apply tracked_idle.
Qed.

Lemma showFinish_timers : forall pathname fetched st,
    live (showFinish pathname fetched st) = live st /\
    popoverTimeout (showFinish pathname fetched st) = popoverTimeout st /\
    hideTimeout (showFinish pathname fetched st) = hideTimeout st /\
    nextTimer (showFinish pathname fetched st) = nextTimer st.
Proof.
  intros pathname fetched st. unfold showFinish.
  destruct (Js.mem pathname (inFlight st)); [destruct (previewable fetched)|]; auto.
Qed.

Lemma showFinish_tracked : forall pathname fetched st,
    tracked st -> tracked (showFinish pathname fetched st).
Proof.
  intros pathname fetched st H.
  destruct (showFinish_timers pathname fetched st) as [E1 [E2 [E3 E4]]].
  unfold tracked. rewrite E1, E2, E3, E4. exact H.
Qed.

Lemma handle_tracked : forall ev st, tracked st -> tracked (handle ev st).
Proof.
  intros ev st H. destruct ev; cbn [handle].
  - destruct altKeyDown; [apply scheduleShow_tracked|]; assumption.
  - apply scheduleHidePopover_tracked. assumption.
  - destruct onNode; [|assumption].
    destruct (activePopover st); [assumption | apply scheduleShow_tracked; assumption].
  - apply cancelHidePopover_tracked. assumption.
  - apply scheduleHidePopover_tracked. assumption.
  - destruct (actionOf h (live st)) as [act|]; [|assumption].
    pose proof (fired_tracked h st H) as H1.
    destruct act; [apply clearGraphPopover_tracked | apply showStart_tracked]; assumption.
  - apply showFinish_tracked. assumption.
  - apply clearGraphPopover_tracked. assumption.
  - exact H.
Qed.

Lemma run_tracked : forall evs st, tracked st -> tracked (run evs st).
Proof.
  unfold run. induction evs as [|ev evs IH]; intros st H; simpl; [assumption|].
  apply IH. apply handle_tracked. assumption.
Qed.

Lemma tracked_length : forall st, tracked st -> List.length (live st) <= 2.
Proof.
  intros st [Hheld [Hnd _]].
  set (held := (match popoverTimeout st with Some h => [h] | None => [] end) ++
               (match hideTimeout st with Some h => [h] | None => [] end)).
  rewrite <- (length_map fst).
  apply Nat.le_trans with (List.length held).
  - apply NoDup_incl_length; [assumption|].
    intros h Hin. apply in_map_iff in Hin. destruct Hin as [[h' a] [<- Hin]]. cbn [fst].
    unfold held. apply in_app_iff.
    destruct (Hheld h' a Hin) as [[E _] | [E _]]; rewrite E; [left | right]; now left.
  - unfold held. rewrite length_app.
    destruct (popoverTimeout st); destruct (hideTimeout st); simpl; lia.
Qed.

Lemma answers_set_no_timer : forall evs st,
    (forall ev, In ev evs -> isAnswer ev) -> live (run evs st) = live st.
Proof.
  unfold run. induction evs as [|ev evs IH]; intros st H; simpl; [reflexivity|].
  rewrite IH by (intros ev' Hev'; apply H; now right).
  assert (Ha : isAnswer ev) by (apply H; now left).
  destruct ev; try contradiction. cbn [handle].
  apply (showFinish_timers pathname fetched st).
Qed.

(** X14: whatever the pointer, key and timer events, the answers of
    the fetches and the changes other code makes to the document, in
    whatever order, every timer still to fire is the one held in
    [popoverTimeout] (a show) or in [hideTimeout] (a hide), so at most two
    are pending, one of each kind; the teardown leaves none pending, both
    variables and the active popover null, and the answers that come after
    it set no timer. *)
Theorem popover_timers_do_not_pile_up :
  forall evs,
    let st := run evs start in
    (forall h a, In (h, a) (live st) ->
                 (popoverTimeout st = Some h /\ a = Show) \/
                 (hideTimeout st = Some h /\ a = Hide)) /\
    NoDup (map fst (live st)) /\
    List.length (live st) <= 2 /\
    live (handle Teardown st) = [] /\
    popoverTimeout (handle Teardown st) = None /\
    hideTimeout (handle Teardown st) = None /\
    activePopover (handle Teardown st) = None /\
    (forall answers, (forall ev, In ev answers -> isAnswer ev) ->
                     live (run answers (handle Teardown st)) = []).
Proof.
  intros evs st.
  assert (H : tracked st) by (apply run_tracked; apply tracked_idle).
  pose proof (tracked_length st H) as Hlen.
  pose proof (clear_tracked st H) as Hclear.
  destruct H as [Hheld [Hnd Hlt]].
  split; [assumption|]. split; [assumption|]. split; [assumption|].
  split; [assumption|]. split; [reflexivity|]. split; [reflexivity|].
  split; [reflexivity|].
  intros answers Ha. rewrite answers_set_no_timer by assumption. assumption.
Qed.

(** *** The elements *)

Lemma previewable_html : forall code header elts,
    Js.startsWith header "text/html" = true -> elts <> [] ->
    previewable (Runtime.FetchResolved (Runtime.mkResponse code (Some header) (Some elts)))
    = true.
Proof.
  intros code header elts Hct Helts. unfold previewable.
  unfold Runtime.contentTypeOf, Js.startsWith in *. cbn [Runtime.contentTypeHeader].
  rewrite prefix_firstField, Hct by reflexivity. cbn [Runtime.hints andb].
  destruct elts as [|e elts]; [congruence | reflexivity].
Qed.

(** X16: when the fetch of a waiting call is answered by a response,
    of any status, whose [Content-Type] starts with [text/html] and whose
    body has an element of class [popover-hint], one new element with the
    id of the target is appended to the document and becomes the active
    popover, whatever has happened since the call started: the timers and
    their variables are left as they are, and neither the pointer nor the
    teardown is asked about. When nothing happens between the call and
    the answer and no element has the id, the document has the elements
    left by [clearGraphPopover] and the new one, and no timer is set. *)
Theorem popover_is_mounted :
  forall pathname code header elts st,
    Js.startsWith header "text/html" = true ->
    elts <> [] ->
    let fetched :=
      Runtime.FetchResolved (Runtime.mkResponse code (Some header) (Some elts)) in
    let new := mkElement (nextObject st) (popoverId pathname) in
    (In pathname (inFlight st) ->
     showFinish pathname fetched st =
     mkState (popoverTimeout st) (hideTimeout st) (Some (object new)) (body st ++ [new])
             (live st) (nextTimer st) (S (nextObject st))
             (answered pathname (inFlight st))) /\
    (getElementById (popoverId pathname) (body (clearGraphPopover st)) = None ->
     let st' := showFinish pathname fetched (showStart (Some pathname) st) in
     body st' = body (clearGraphPopover st) ++ [new] /\
     activePopover st' = Some (object new) /\
     popoverTimeout st' = None /\ hideTimeout st' = None).
Proof.
  intros pathname code header elts st Hct Helts fetched new. subst fetched new.
  pose proof (previewable_html code header elts Hct Helts) as Hp.
  split.
  - intros Hin. unfold showFinish. apply mem_In in Hin. rewrite Hin, Hp. reflexivity.
  - intros Hnone. cbv zeta. unfold showStart. rewrite Hnone. unfold showFinish.
    cbn [inFlight]. rewrite Hp.
    assert (Hin : Js.mem pathname (inFlight (clearGraphPopover st) ++ [pathname]) = true).
    { apply mem_In. apply in_app_iff. right. now left. }
    rewrite Hin. cbn [body activePopover popoverTimeout hideTimeout nextObject object
                      clearGraphPopover].
    repeat split; reflexivity.
Qed.

(** X17: a call of [showGraphPopover] first clears both timers and
    removes the active popover from the document; if the document then
    has an element with the id of the target, the first such element
    becomes the active popover and nothing is fetched or added;
    otherwise no popover is active while the call waits for its fetch. *)
Theorem existing_popover_is_reused :
  forall pathname st,
    let cleared := clearGraphPopover st in
    let st' := showStart (Some pathname) st in
    popoverTimeout st' = None /\ hideTimeout st' = None /\
    body st' = body cleared /\ live st' = live cleared /\
    (forall existing rest,
        getElementById (popoverId pathname) (body cleared) = Some existing ->
        activePopover st' = Some (object existing) /\
        In existing (body st') /\ elementId existing = popoverId pathname /\
        inFlight st' = inFlight st /\
        (forall before e, body cleared = before ++ existing :: rest -> In e before ->
                          ~ In existing before -> elementId e <> popoverId pathname)) /\
    (getElementById (popoverId pathname) (body cleared) = None ->
     activePopover st' = None /\ inFlight st' = inFlight st ++ [pathname] /\
     forall e, In e (body st') -> elementId e <> popoverId pathname).
Proof.
  intros pathname st cleared st'. subst cleared st'. unfold showStart.
  destruct (getElementById (popoverId pathname) (body (clearGraphPopover st)))
    as [found|] eqn:E.
  - repeat (split; [reflexivity|]). split; [|discriminate].
    intros existing rest He. inversion He; subst found. cbn [activePopover body inFlight].
    unfold getElementById in E. pose proof (find_some _ _ E) as [Hin Hid].
    apply String.eqb_eq in Hid.
    split; [reflexivity|]. split; [assumption|]. split; [assumption|].
    split; [reflexivity|].
    intros before e Hb He' Hnot Heq. rewrite Hb in E.
    clear - E He' Hnot Heq. induction before as [|b before IH]; [destruct He'|].
    simpl in E. destruct (String.eqb (elementId b) (popoverId pathname)) eqn:Eb.
    + inversion E; subst. apply Hnot. now left.
    + destruct He' as [-> | He'].
      * apply String.eqb_neq in Eb. contradiction.
      * apply IH; [assumption | assumption | intros H; apply Hnot; now right].
  - repeat (split; [reflexivity|]). split; [discriminate|].
    intros _. cbn [activePopover body inFlight]. split; [reflexivity|].
    split; [reflexivity|].
    intros e He Heq. unfold getElementById in E.
    apply (find_none _ _ E) in He. apply String.eqb_neq in He. contradiction.
Qed.

End AsyncFacts.

(** * Placing the popover *)

Section PlaceFacts.

Import Place.

Lemma round_le : forall x, (inject_Z (round x) <= x + (1 # 2))%Q.
Proof. intros x. unfold round. apply Qfloor_le. Qed.

(** A number equal to an integer up to 2^53 is left as it is. *)
Lemma double_integer : forall q z,
    (q == inject_Z z)%Q -> (Z.abs z <= 2 ^ 53)%Z -> (Float.double q == q)%Q.
Proof.
  intros q z Hq Hz. rewrite (double_comp _ _ Hq), Hq. apply double_Z. assumption.
Qed.

(** An integer and a half, up to 2^51, is a double. *)
Lemma double_half : forall z,
    (Z.abs z <= 2 ^ 51)%Z ->
    (Float.double (inject_Z z + (1 # 2)) == inject_Z z + (1 # 2))%Q.
Proof.
  intros z Hz. apply (double_dyadic _ (2 * z + 1) (-1)); [| lia | lia].
  rewrite inject_Z_plus, inject_Z_mult. change (Float.pow2 (-1)) with (1 # 2)%Q.
  change (inject_Z 2) with 2%Q. change (inject_Z 1) with 1%Q. ring.
Qed.

(** Along one axis: a popover of [size] put [margin] after the pointer,
    or, when that passes [limit], [size + margin] before it. *)
Lemma fits_after : forall (limit size : Z) (x : Q),
    (Z.abs limit <= 2 ^ 50)%Z ->
    overflows x (inject_Z size) limit = false ->
    (round x + size <= limit)%Z.
Proof.
  intros limit size x Hl H. unfold overflows in H. apply negb_false_iff in H.
  apply Qle_bool_iff in H.
  destruct (Z_le_gt_dec (round x + size) limit) as [Hle | Hgt]; [assumption|]. exfalso.
  pose proof (round_le x) as Hr.
  assert (Hz : (limit + 1 + - size <= round x)%Z) by lia.
  rewrite Zle_Qle in Hz.
  rewrite !inject_Z_plus, inject_Z_opp in Hz. change (inject_Z 1) with 1%Q in Hz.
  assert (Hx : (inject_Z limit + (1 # 2) <= x + inject_Z size)%Q) by lra.
  apply double_le in Hx. rewrite double_half in Hx by lia. lra.
Qed.

Lemma fits_before : forall (limit size margin : Z) (c : Q),
    (Z.abs limit <= 2 ^ 50)%Z -> (0 <= size <= 2 ^ 50)%Z -> (1 <= margin <= 2 ^ 50)%Z ->
    (c <= inject_Z limit)%Q ->
    (round (Float.double (Float.double (c - inject_Z size) - inject_Z margin)) + size
     <= limit)%Z.
Proof.
  intros limit size margin c Hl Hs Hm Hc.
  assert (H1 : (Float.double (c - inject_Z size) <= inject_Z limit - inject_Z size)%Q).
  { rewrite <- (double_integer (inject_Z limit - inject_Z size) (limit - size)).
    - apply double_le. lra.
    - unfold Z.sub. rewrite inject_Z_plus, inject_Z_opp. reflexivity.
    - lia. }
  assert (H2 : (Float.double (Float.double (c - inject_Z size) - inject_Z margin)
                <= inject_Z limit - inject_Z size - inject_Z margin)%Q).
  { rewrite <- (double_integer (inject_Z limit - inject_Z size - inject_Z margin)
                               (limit - size - margin)).
    - apply double_le. lra.
    - unfold Z.sub. rewrite !inject_Z_plus, !inject_Z_opp. reflexivity.
    - lia. }
  pose proof (round_le (Float.double (Float.double (c - inject_Z size) - inject_Z margin)))
    as Hr.
  set (r := round _) in *.
  assert (Hm1 : (1 <= inject_Z margin)%Q)
    by (change 1%Q with (inject_Z 1); rewrite <- Zle_Qle; lia).
  assert (H : (inject_Z (r + size) < inject_Z (limit + 1))%Q).
  { rewrite !inject_Z_plus. change (inject_Z 1) with 1%Q. lra. }
  rewrite <- Zlt_Qlt in H. lia.
Qed.

Lemma stays_after : forall (limit size margin : Z) (c : Q),
    (Z.abs limit <= 2 ^ 50)%Z -> (0 <= size <= 2 ^ 50)%Z -> (0 <= margin <= 2 ^ 50)%Z ->
    (c + inject_Z margin + inject_Z size <= inject_Z limit)%Q ->
    overflows (Float.double (c + inject_Z margin)) (inject_Z size) limit = false.
Proof.
  intros limit size margin c Hl Hs Hm Hc. unfold overflows.
  apply negb_false_iff. apply Qle_bool_iff.
  assert (H1 : (Float.double (c + inject_Z margin) <= inject_Z limit - inject_Z size)%Q).
  { rewrite <- (double_integer (inject_Z limit - inject_Z size) (limit - size)).
    - apply double_le. lra.
    - unfold Z.sub. rewrite inject_Z_plus, inject_Z_opp. reflexivity.
    - lia. }
  rewrite <- (double_integer (inject_Z limit) limit); [|reflexivity | lia].
  apply double_le. lra.
Qed.

(** X18: in a window of at most 2^50 pixels a side and for a pointer
    inside it, the popover, 400 wide and at most 300 high, never passes
    the right or the bottom edge of the window: it is put 10 right of and
    below the pointer when that fits, and left of or above the pointer
    otherwise. *)
Theorem popover_stays_inside :
  forall innerWidth innerHeight clientX clientY,
    (Z.abs innerWidth <= 2 ^ 50)%Z -> (Z.abs innerHeight <= 2 ^ 50)%Z ->
    (clientX <= inject_Z innerWidth)%Q -> (clientY <= inject_Z innerHeight)%Q ->
    let p := positionGraphPopover innerWidth innerHeight clientX clientY in
    (fst p + 400 <= innerWidth)%Z /\ (snd p + 300 <= innerHeight)%Z /\
    ((clientX + 410 <= inject_Z innerWidth)%Q ->
     fst p = round (Float.double (clientX + 10))%Q) /\
    ((clientY + 310 <= inject_Z innerHeight)%Q ->
     snd p = round (Float.double (clientY + 10))%Q).
Proof.
  intros W H cx cy HW HH Hx Hy p. subst p. unfold positionGraphPopover. cbn [fst snd].
  change 400%Q with (inject_Z 400). change 300%Q with (inject_Z 300).
  change 10%Q with (inject_Z 10).
  split; [|split; [|split]].
  - destruct (overflows (Float.double (cx + inject_Z 10)) (inject_Z 400) W) eqn:E.
    + apply fits_before; try assumption; lia.
    + apply fits_after; assumption.
  - destruct (overflows (Float.double (cy + inject_Z 10)) (inject_Z 300) H) eqn:E.
    + apply fits_before; try assumption; lia.
    + apply fits_after; assumption.
  - intros Hfit. rewrite stays_after; [reflexivity | assumption | lia | lia |].
    change (inject_Z 400) with 400%Q. change (inject_Z 10) with 10%Q. lra.
  - intros Hfit. rewrite stays_after; [reflexivity | assumption | lia | lia |].
    change (inject_Z 300) with 300%Q. change (inject_Z 10) with 10%Q. lra.
Qed.

End PlaceFacts.

(** * More on the zoom *)

Section ZoomMore.

Import Zoom.

Lemma onZoom_labels : forall cfg t st,
    map handle (children (onZoom cfg t st)) = map handle (children st).
Proof. intros. unfold onZoom. cbn [children]. rewrite map_map. reflexivity. Qed.

Local Open Scope Q_scope.

Lemma inverse_close : forall p,
    Float.pow2 (-1000) <= p -> p <= Float.pow2 1000 ->
    1 - Float.pow2 (-51) <= Float.double (1 / Float.double p) * p /\
    Float.double (1 / Float.double p) * p <= 1 + Float.pow2 (-51).
Proof.
  intros p Hlo Hhi.
  assert (Hp : 0 < p) by (apply Qlt_le_trans with (Float.pow2 (-1000)); [apply pow2_pos | assumption]).
  assert (Hn : Float.pow2 (-1022) <= p).
  { apply Qle_trans with (Float.pow2 (-1000)); [apply pow2_le; lia | assumption]. }
  destruct (double_close p Hn) as [Hd1 Hd2].
  set (d := Float.double p) in *.
  change (Float.pow2 (-53)) with (1 # 9007199254740992) in Hd1, Hd2.
  assert (Hd : 0 < d) by nra.
  set (q := 1 / d).
  assert (Hq : q * d == 1) by (unfold q; field; lra).
  assert (Hq0 : 0 < q).
  { unfold q. apply Qlt_shift_div_l; [assumption|]. lra. }
  assert (Hqn : Float.pow2 (-1022) <= q).
  { apply Qle_trans with (Float.pow2 (-1001)); [apply pow2_le; lia|].
    apply (Qmult_le_r _ _ d Hd). rewrite Hq.
    apply Qle_trans with (Float.pow2 (-1001) * Float.pow2 1001).
    - apply Qmult_le_l; [apply pow2_pos|].
      apply Qle_trans with (p * 2); [nra|].
      change (Float.pow2 1001) with (Float.pow2 1000 * 2). nra.
    - rewrite <- pow2_add. discriminate. }
  destruct (double_close q Hqn) as [Hl1 Hl2].
  set (ls := Float.double q) in *.
  change (Float.pow2 (-53)) with (1 # 9007199254740992) in Hl1, Hl2.
  change (Float.pow2 (-51)) with (1 # 2251799813685248).
  pose proof (proj2 (Qmult_le_l _ _ q Hq0) Hd1) as Ha1.
  pose proof (proj2 (Qmult_le_l _ _ q Hq0) Hd2) as Ha2.
  pose proof (proj2 (Qmult_le_r _ _ p Hp) Hl1) as Hb1.
  pose proof (proj2 (Qmult_le_r _ _ p Hp) Hl2) as Hb2.
  split; nra.
Qed.

Local Close Scope Q_scope.

(** X19: after a zoom the scale of every label times the scale of the
    stage is [1 / scale] up to the rounding of the two operations: times
    [scale] it is within 2^-51 of 1, for a product [scale * k] between
    2^-1000 and 2^1000. *)
Theorem labels_keep_their_size :
  forall cfg transform st l,
    (Float.pow2 (-1000) <= Index.scale cfg * k transform)%Q ->
    (Index.scale cfg * k transform <= Float.pow2 1000)%Q ->
    In l (children (onZoom cfg transform st)) ->
    (1 - Float.pow2 (-51) <=
     labelScale l * fst (stageScale (onZoom cfg transform st)) * Index.scale cfg)%Q /\
    (labelScale l * fst (stageScale (onZoom cfg transform st)) * Index.scale cfg <=
     1 + Float.pow2 (-51))%Q.
Proof.
  intros cfg transform st l Hlo Hhi Hl.
  unfold onZoom in *. cbn [children stageScale fst] in *.
  apply in_map_iff in Hl. destruct Hl as [l0 [<- _]]. cbn [labelScale].
  destruct (inverse_close _ Hlo Hhi) as [H1 H2].
  set (ls := Float.double (1 / Float.double (Index.scale cfg * k transform))%Q) in *.
  split; [apply Qle_trans with (1 := H1) | apply Qle_trans with (2 := H2)];
    (setoid_replace (ls * k transform * Index.scale cfg)%Q
       with (ls * (Index.scale cfg * k transform))%Q by ring); apply Qle_refl.
Qed.

(** X20: of two zoom events in a row the second decides: the state is
    the one the second event alone would give, labels of active nodes
    keeping the opacity they had before both. *)
Theorem last_zoom_wins :
  forall cfg t1 t2 st, onZoom cfg t2 (onZoom cfg t1 st) = onZoom cfg t2 st.
Proof.
  intros cfg t1 t2 st. unfold onZoom. cbn [children nodeRenderData].
  f_equal. rewrite map_map. apply map_ext. intros l. cbn [handle alpha].
  destruct (existsb (Nat.eqb (handle l)) (map label (filter active (nodeRenderData st))));
    reflexivity.
Qed.

End ZoomMore.

(** * The registries *)

Section RegistryFacts.

Import Registry.

Lemma accounted_moved : forall st st',
    accounted st -> Permutation (everywhere st) (everywhere st') ->
    nextCallback st' = nextCallback st -> accounted st'.
Proof.
  intros st st' [Hnd Hin] Hp En. split.
  - apply (Permutation_NoDup Hp). assumption.
  - intros c. rewrite En, <- Hin. split; apply Permutation_in;
      [apply Permutation_sym|]; assumption.
Qed.

Lemma accounted_made : forall st st',
    accounted st ->
    Permutation (nextCallback st :: everywhere st) (everywhere st') ->
    nextCallback st' = S (nextCallback st) -> accounted st'.
Proof.
  intros st st' [Hnd Hin] Hp En. split.
  - apply (Permutation_NoDup Hp). constructor; [|assumption].
    intros H. apply Hin in H. lia.
  - intros c. rewrite En. split.
    + intros H. apply (Permutation_in _ (Permutation_sym Hp)) in H.
      destruct H as [<- | H]; [lia|]. apply Hin in H. lia.
    + intros H. apply (Permutation_in _ Hp).
      destruct (Nat.eq_dec c (nextCallback st)) as [-> | Hn]; [now left|].
      right. apply Hin. lia.
Qed.

Lemma cleanupLocalGraphs_accounted : forall st,
    accounted st -> accounted (cleanupLocalGraphs st).
Proof.
  intros st H. apply (accounted_moved st); [assumption | | reflexivity].
  unfold everywhere, cleanupLocalGraphs.
  cbn [localGraphCleanups globalGraphCleanups lost calls app].
  replace (globalGraphCleanups st ++ lost st ++ calls st ++ localGraphCleanups st)
    with ((globalGraphCleanups st ++ lost st ++ calls st) ++ localGraphCleanups st)
    by (rewrite <- !app_assoc; reflexivity).
  apply Permutation_app_comm.
Qed.

Lemma cleanupGlobalGraphs_accounted : forall st,
    accounted st -> accounted (cleanupGlobalGraphs st).
Proof.
  intros st H. apply (accounted_moved st); [assumption | | reflexivity].
  unfold everywhere, cleanupGlobalGraphs.
  cbn [localGraphCleanups globalGraphCleanups lost calls app].
  apply Permutation_app_head.
  replace (lost st ++ calls st ++ globalGraphCleanups st)
    with ((lost st ++ calls st) ++ globalGraphCleanups st)
    by (rewrite <- !app_assoc; reflexivity).
  apply Permutation_app_comm.
Qed.

Lemma same_callbacks_accounted : forall st st',
    accounted st -> everywhere st' = everywhere st ->
    nextCallback st' = nextCallback st -> accounted st'.
Proof.
  intros st st' H E En. apply (accounted_moved st); [assumption | | assumption].
  rewrite E. apply Permutation_refl.
Qed.

Lemma renderLocalGraph_accounted : forall containers st,
    accounted st -> accounted (renderLocalGraph containers st).
Proof.
  intros containers st H. apply cleanupLocalGraphs_accounted in H.
  unfold renderLocalGraph. destruct containers; [assumption|].
  apply (same_callbacks_accounted _ _ H); reflexivity.
Qed.

Lemma renderGlobalGraph_accounted : forall containers st,
    accounted st -> accounted (renderGlobalGraph containers st).
Proof.
  intros containers st H. unfold renderGlobalGraph. destruct containers; [assumption|].
  apply (same_callbacks_accounted _ _ H); reflexivity.
Qed.

Lemma localRendered_accounted : forall i st, accounted st -> accounted (localRendered i st).
Proof.
  intros i st H. unfold localRendered.
  destruct (nth_error (localRenders st) i) as [[array more]|]; [|assumption].
  destruct (Nat.eqb array (localArray st)).
  - apply (accounted_made st); [assumption | | reflexivity].
    unfold everywhere. cbn [localGraphCleanups globalGraphCleanups lost calls].
    rewrite <- app_assoc. apply Permutation_middle.
  - apply (accounted_made st); [assumption | | reflexivity].
    unfold everywhere. cbn [localGraphCleanups globalGraphCleanups lost calls].
    replace (localGraphCleanups st ++ globalGraphCleanups st ++
             (lost st ++ [nextCallback st]) ++ calls st)
      with ((localGraphCleanups st ++ globalGraphCleanups st ++ lost st) ++
            nextCallback st :: calls st)
      by (rewrite <- !app_assoc; reflexivity).
    replace (localGraphCleanups st ++ globalGraphCleanups st ++ lost st ++ calls st)
      with ((localGraphCleanups st ++ globalGraphCleanups st ++ lost st) ++ calls st)
      by (rewrite <- !app_assoc; reflexivity).
    apply Permutation_middle.
Qed.

Lemma globalRendered_accounted : forall i st, accounted st -> accounted (globalRendered i st).
Proof.
  intros i st H. unfold globalRendered.
  destruct (nth_error (globalRenders st) i) as [[array more]|]; [|assumption].
  destruct (Nat.eqb array (globalArray st)).
  - apply (accounted_made st); [assumption | | reflexivity].
    unfold everywhere. cbn [localGraphCleanups globalGraphCleanups lost calls].
    replace (localGraphCleanups st ++ (globalGraphCleanups st ++ [nextCallback st]) ++
             lost st ++ calls st)
      with ((localGraphCleanups st ++ globalGraphCleanups st) ++
            nextCallback st :: lost st ++ calls st)
      by (rewrite <- !app_assoc; reflexivity).
    replace (localGraphCleanups st ++ globalGraphCleanups st ++ lost st ++ calls st)
      with ((localGraphCleanups st ++ globalGraphCleanups st) ++ lost st ++ calls st)
      by (rewrite <- !app_assoc; reflexivity).
    apply Permutation_middle.
  - apply (accounted_made st); [assumption | | reflexivity].
    unfold everywhere. cbn [localGraphCleanups globalGraphCleanups lost calls].
    replace (localGraphCleanups st ++ globalGraphCleanups st ++
             (lost st ++ [nextCallback st]) ++ calls st)
      with ((localGraphCleanups st ++ globalGraphCleanups st ++ lost st) ++
            nextCallback st :: calls st)
      by (rewrite <- !app_assoc; reflexivity).
    replace (localGraphCleanups st ++ globalGraphCleanups st ++ lost st ++ calls st)
      with ((localGraphCleanups st ++ globalGraphCleanups st ++ lost st) ++ calls st)
      by (rewrite <- !app_assoc; reflexivity).
    apply Permutation_middle.
Qed.

Lemma handle_accounted : forall ev st, accounted st -> accounted (handle ev st).
Proof.
  intros ev st H. destruct ev; cbn [handle].
  - apply renderLocalGraph_accounted. assumption.
  - apply renderGlobalGraph_accounted. assumption.
  - apply cleanupGlobalGraphs_accounted. assumption.
  - apply localRendered_accounted. assumption.
  - apply globalRendered_accounted. assumption.
  - apply cleanupGlobalGraphs_accounted, cleanupLocalGraphs_accounted. assumption.
Qed.

Lemma run_accounted : forall evs st, accounted st -> accounted (run evs st).
Proof.
  unfold run. induction evs as [|ev evs IH]; intros st H; simpl; [assumption|].
  apply IH. apply handle_accounted. assumption.
Qed.

Lemma start_accounted : accounted start.
Proof.
  split; [constructor|]. intros c. cbn. split; [intros [] | lia].
Qed.

(** X21: whatever the order in which renders are started and come to
    their end, the global graph is hidden and the page is left, every
    teardown callback made is in one place and one only: in
    [localGraphCleanups], in [globalGraphCleanups], called, or pushed to
    an array that its variable no longer refers to, where nothing calls
    it; so no callback is called twice. Leaving the page calls the
    callbacks of both registries and empties them, and leaving it again
    calls nothing. *)
Theorem every_teardown_is_called_at_most_once :
  forall evs,
    let st := run evs start in
    NoDup (calls st) /\
    NoDup (localGraphCleanups st ++ globalGraphCleanups st ++ lost st ++ calls st) /\
    (forall c, c < nextCallback st <->
               In c (localGraphCleanups st) \/ In c (globalGraphCleanups st) \/
               In c (lost st) \/ In c (calls st)) /\
    calls (leavePage st) = calls st ++ localGraphCleanups st ++ globalGraphCleanups st /\
    localGraphCleanups (leavePage st) = [] /\
    globalGraphCleanups (leavePage st) = [] /\
    lost (leavePage st) = lost st /\
    calls (leavePage (leavePage st)) = calls (leavePage st).
Proof.
  intros evs st.
  destruct (run_accounted evs start start_accounted) as [Hnd Hin]. fold st in Hnd, Hin.
  unfold everywhere in Hnd, Hin.
  split; [|split; [assumption|split]].
  - repeat apply NoDup_app_remove_l in Hnd. assumption.
  - intros c. rewrite <- Hin, !in_app_iff. tauto.
  - unfold leavePage, cleanupGlobalGraphs, cleanupLocalGraphs.
    cbn [calls localGraphCleanups globalGraphCleanups lost].
    rewrite <- app_assoc, !app_nil_r. repeat split; reflexivity.
Qed.

End RegistryFacts.

(** * Nodes and the index *)

Section NodeFacts.

Import Index Graph NodeSpec.

Lemma get_none : forall data url, Index.get data url = None <-> ~ In url (map fst data).
Proof.
  intros data url. unfold Index.get. induction data as [|[k d] data IH]; simpl.
  - split; [intros _ [] | reflexivity].
  - destruct (String.eqb k url) eqn:E; simpl.
    + apply String.eqb_eq in E. split; [discriminate | intros H; exfalso; apply H; now left].
    + apply String.eqb_neq in E. rewrite IH. split; [intros H [H' | H']; auto | auto].
Qed.

(** X22: a slug the index does not have, a tag for instance, still
    gets a node: labelled with the slug, or with [#] and the tag name when
    the slug starts with ["tags/"], without tags, without a path and with
    none of the seven flags. *)
Theorem node_without_details :
  forall data url,
    ~ In url (map fst data) -> mkNode data url = bareNode url.
Proof.
  intros data url H. apply get_none in H. unfold mkNode, bareNode. rewrite H. reflexivity.
Qed.

Lemma flag_filedUnder : forall data url dir,
    underFolder dir
      (match Index.get data url with Some d => filePath d | None => None end) = true <->
    filedUnder data url dir.
Proof.
  intros data url dir. unfold filedUnder. destruct (Index.get data url) as [d|].
  - destruct (filePath d) as [p|] eqn:Ep.
    + rewrite underFolder_segment. split.
      * intros H. exists d, p. auto.
      * intros [d' [p' [Hd [Hp Hs]]]]. inversion Hd; subst d'.
        assert (p' = p) by congruence. subst p'. assumption.
    + split; [discriminate|]. intros [d' [p' [Hd [Hp _]]]]. inversion Hd; subst d'. congruence.
  - split; [discriminate|]. intros [d' [p' [Hd _]]]. discriminate.
Qed.

(** X23: each of the seven flags of a node is set exactly when the
    index has the slug with a path that has the folder of the flag at its
    start or after a slash; the flags do not exclude one another. *)
Theorem flags_follow_the_folders :
  forall data url,
    let n := mkNode data url in
    (isContentNode n = true <-> filedUnder data url "contents") /\
    (isConceptTopicNode n = true <-> filedUnder data url "Concept") /\
    (isDatasetTopicNode n = true <-> filedUnder data url "Dataset") /\
    (isLibraryTopicNode n = true <-> filedUnder data url "Library") /\
    (isModelTopicNode n = true <-> filedUnder data url "Model") /\
    (isPlatformTopicNode n = true <-> filedUnder data url "Platform") /\
    (isToolTopicNode n = true <-> filedUnder data url "Tool").
Proof.
  intros data url n. subst n. unfold mkNode.
  cbn [isContentNode isConceptTopicNode isDatasetTopicNode isLibraryTopicNode
       isModelTopicNode isPlatformTopicNode isToolTopicNode].
  repeat split; apply flag_filedUnder.
Qed.

End NodeFacts.

(** * Fonts *)

Section FontFacts.

Import Fonts.

Lemma append_cancel : forall a s : string, (a ++ s)%string = a -> s = EmptyString.
Proof.
  induction a as [|c a IH]; intros s H; simpl in H; [assumption|].
  inversion H. auto.
Qed.

Lemma features_none : forall type spec,
    features type spec = [] <->
    italicOf type spec = false /\ List.length (weightsOf type spec) <= 1.
Proof.
  intros type spec. unfold features. destruct (italicOf type spec).
  - split; [discriminate | intros [H _]; discriminate].
  - destruct (Nat.ltb 1 (List.length (weightsOf type spec))) eqn:E; simpl.
    + apply Nat.ltb_lt in E. split; [discriminate | intros [_ H]; lia].
    + apply Nat.ltb_ge in E. split; auto.
Qed.

(** X24: the family string of a font starts with the name of the
    font, and it is the name alone exactly when the font is not italic and
    has at most one weight: a single weight is never written. *)
Theorem font_family_string :
  forall type spec,
    Js.startsWith (formatFontSpecification type spec) (getFontSpecificationName spec) = true /\
    (formatFontSpecification type spec = getFontSpecificationName spec <->
     italicOf type spec = false /\ List.length (weightsOf type spec) <= 1).
Proof.
  intros type spec. unfold formatFontSpecification.
  destruct (features type spec) as [|f fs] eqn:E.
  - cbn [List.length Nat.ltb Nat.leb]. split.
    + unfold Js.startsWith. apply prefix_append. exists EmptyString.
      symmetry. apply append_nil_r.
    + rewrite <- features_none, E. tauto.
  - cbn [List.length Nat.ltb Nat.leb]. split.
    + unfold Js.startsWith. apply prefix_append. eexists. reflexivity.
    + rewrite <- features_none, E. split; [|discriminate].
      intros H. apply append_cancel in H. discriminate.
Qed.

(** X25: fonts given by name alone get the default weights: 400 and
    700 for the header, 400 and 600 for body and code, with the italics of
    both weights for the body only. *)
Theorem google_font_href_of_names :
  forall headerName bodyName codeName,
    googleFontHref (FontName headerName) (FontName bodyName) (FontName codeName) =
    ("https://fonts.googleapis.com/css2?family=" ++
     headerName ++ ":wght@400;700&family=" ++
     bodyName ++ ":ital,wght@0,400;0,600;1,400;1,600&family=" ++
     codeName ++ ":wght@400;600&display=swap")%string.
Proof.
  intros h b c. unfold googleFontHref.
  change (formatFontSpecification header (FontName h)) with (h ++ ":wght@400;700")%string.
  change (formatFontSpecification body (FontName b))
    with (b ++ ":ital,wght@0,400;0,600;1,400;1,600")%string.
  change (formatFontSpecification code (FontName c)) with (c ++ ":wght@400;600")%string.
  rewrite !append_assoc. reflexivity.
Qed.

End FontFacts.

(** * The further theorems on small inputs *)

Section OnSamples.

Import Index Examples Samples.

Lemma links_are_the_pages_links_witness :
  In aToB (Neighbourhood.accLinks (Neighbourhood.buildLinks keepSlug (config 1 false) abc)).
Proof.
  apply (proj2 (links_are_the_pages_links keepSlug (config 1 false) abc aToB)).
  exists ("A", page ["B"] ["x"] "contents/A.md"). split; [left; reflexivity|].
  split; [reflexivity|]. left. exists ["B"]. split; [reflexivity|].
  split; [left; reflexivity | right; left; reflexivity].
Defined.

Lemma node_ids_are_distinct_witness :
  exists g,
    Graph.buildGraph keepSlug (config 1 false) abc "A" = Some (Some g) /\
    NoDup (map Graph.id (Graph.nodes g)).
Proof.
  eexists. split; [vm_compute; reflexivity|].
  apply (node_ids_are_distinct keepSlug (config 1 false) abc "A"). vm_compute. reflexivity.
Defined.

Lemma neighbourhood_members_witness :
  Neighbourhood.computeNeighbourhood keepSlug (config 1 false) abc "A" = Some ["A"; "B"] /\
  ~ In Neighbourhood.SENTINEL ["A"; "B"].
Proof.
  assert (H : Neighbourhood.computeNeighbourhood keepSlug (config 1 false) abc "A" =
              Some ["A"; "B"]) by (vm_compute; reflexivity).
  split; [exact H|].
  apply (proj2 (neighbourhood_members keepSlug (config 1 false) abc "A" ["A"; "B"] H)).
  simpl. lia.
Defined.

Lemma neighbourhood_grows_with_depth_witness :
  "A" <> Neighbourhood.SENTINEL /\ incl ["A"; "B"] ["A"; "B"; "C"].
Proof.
  assert (H1 : "A" <> Neighbourhood.SENTINEL) by discriminate.
  split; [exact H1|].
  apply (neighbourhood_grows_with_depth keepSlug (config 0 false) abc "A" 1 2).
  - exact H1.
  - apply markerFreeb_ok. reflexivity.
  - lia.
  - lia.
  - vm_compute. reflexivity.
  - vm_compute. reflexivity.
Defined.

Lemma collide_iterations_shrink_witness :
  300 <= 700 /\ Counts.collideIterations 700 <= Counts.collideIterations 300.
Proof.
  assert (H : 300 <= 700) by lia.
  split; [exact H|]. apply (proj2 (collide_iterations_shrink 300 700) H).
Defined.

Lemma visited_only_grows_witness :
  In "A" (Visited.getVisited (Visited.addToVisited "A" None)).
Proof.
  apply (proj1 (visited_only_grows "A" None) "A"). left. reflexivity.
Defined.

Lemma hover_targets_witness :
  "Z" <> EmptyString /\
  ~ Highlight.onLink "Z" (Hover.linkRenderData pair) /\
  Highlight.nodeAlpha true (Hover.updateHoverInfo (Some "Z") pair)
    (Hover.mkRender nodeA "gray" 1%Q false) = (2 # 10)%Q.
Proof.
  assert (H1 : "Z" <> EmptyString) by discriminate.
  assert (H2 : ~ Highlight.onLink "Z" (Hover.linkRenderData pair)).
  { intros [l [[<- | []] Ht]]. vm_compute in Ht. discriminate Ht. }
  split; [exact H1|]. split; [exact H2|].
  apply (proj2 (proj2 (hover_targets pair "Z" "gray" "lightgray" H1)) H2).
  left. reflexivity.
Defined.

Lemma leave_targets_witness :
  Highlight.nodeAlpha true (Hover.updateHoverInfo None pair)
    (Hover.mkRender nodeA "gray" 1%Q false) = 1%Q.
Proof.
  apply (proj1 (proj2 (leave_targets pair true "gray" "lightgray"))). left. reflexivity.
Defined.

Lemma teardown_ends_the_loop_witness :
  Runtime.frameRequests
    (Runtime.loop
       (Session.run ([Session.HoverChange 0 2 1] ++
                     Session.Teardown :: [Session.Frame 16 0%Q (1 # 1000)%Q])
                    Runtime.mountedInstance)) = 0.
Proof.
  apply (proj2 (proj2 (teardown_ends_the_loop
                         [Session.HoverChange 0 2 1] [Session.Frame 16 0%Q (1 # 1000)%Q]))).
  reflexivity.
Defined.

Lemma node_without_details_witness :
  ~ In "tags/x" (map fst abc) /\
  Graph.mkNode abc "tags/x" = NodeSpec.bareNode "tags/x".
Proof.
  assert (H : ~ In "tags/x" (map fst abc)).
  { simpl. intros [E | [E | [E | []]]]; discriminate E. }
  split; [exact H|]. apply (node_without_details abc "tags/x" H).
Defined.

Lemma flags_follow_the_folders_witness : NodeSpec.filedUnder abc "B" "Model".
Proof.
  apply (proj1 (proj1 (proj2 (proj2 (proj2 (proj2 (flags_follow_the_folders abc "B"))))))).
  reflexivity.
Defined.

Lemma font_family_string_witness :
  Fonts.formatFontSpecification Fonts.header (Fonts.FontObject "Inter" (Some [700]) None) =
  "Inter".
Proof.
  apply (proj2 (proj2 (font_family_string Fonts.header
                         (Fonts.FontObject "Inter" (Some [700]) None)))).
  split; [reflexivity | simpl; lia].
Defined.

Lemma hover_restarts_one_chain_witness :
  Runtime.animationRunning idleLoop = false /\
  Runtime.frameRequests (Runtime.onHoverChange 20 2 1 (Runtime.onHoverChange 10 2 1 idleLoop)) = 1.
Proof.
  split; [reflexivity|].
  apply (proj2 (proj2 (hover_restarts_one_chain 10 20 2 1 idleLoop
                         eq_refl eq_refl eq_refl))).
Defined.

Lemma popover_stays_inside_witness :
  (Z.abs 1000 <= 2 ^ 50)%Z /\ (Z.abs 800 <= 2 ^ 50)%Z /\
  (900 <= inject_Z 1000)%Q /\ (100 <= inject_Z 800)%Q /\
  (fst (Place.positionGraphPopover 1000 800 900%Q 100%Q) + 400 <= 1000)%Z.
Proof.
  assert (H1 : (900 <= inject_Z 1000)%Q) by (vm_compute; discriminate).
  assert (H2 : (100 <= inject_Z 800)%Q) by (vm_compute; discriminate).
  assert (H3 : (Z.abs 1000 <= 2 ^ 50)%Z) by (vm_compute; discriminate).
  assert (H4 : (Z.abs 800 <= 2 ^ 50)%Z) by (vm_compute; discriminate).
  split; [exact H3|]. split; [exact H4|]. split; [exact H1|]. split; [exact H2|].
  apply (popover_stays_inside 1000 800 900%Q 100%Q H3 H4 H1 H2).
Defined.

Lemma popover_timers_do_not_pile_up_witness :
  In (2, Async.Hide)
     (Async.live (Async.run [Async.PointerOver true; Async.PointerLeave] Async.start)) /\
  List.length
    (Async.live (Async.run [Async.PointerOver true; Async.PointerLeave] Async.start)) <= 2.
Proof.
  split; [left; reflexivity|].
  apply (popover_timers_do_not_pile_up [Async.PointerOver true; Async.PointerLeave]).
Defined.

Lemma popover_is_mounted_witness :
  Js.startsWith "text/html; charset=utf-8" "text/html" = true /\
  ["<article>"] <> [] /\
  In "/B" (Async.inFlight tornDownInFlight) /\
  Async.body
    (Async.showFinish "/B"
       (Runtime.FetchResolved
          (Runtime.mkResponse 404 (Some "text/html; charset=utf-8") (Some ["<article>"])))
       tornDownInFlight) =
  [Async.mkElement 0 "graph-popover-/B"].
Proof.
  assert (H1 : Js.startsWith "text/html; charset=utf-8" "text/html" = true) by reflexivity.
  assert (H2 : ["<article>"] <> ([] : list string)) by discriminate.
  assert (H3 : In "/B" (Async.inFlight tornDownInFlight)) by (left; reflexivity).
  split; [exact H1|]. split; [exact H2|]. split; [exact H3|].
  pose proof (proj1 (popover_is_mounted "/B" 404 "text/html; charset=utf-8" ["<article>"]
                       tornDownInFlight H1 H2) H3) as E.
  rewrite E. reflexivity.
Defined.

Lemma existing_popover_is_reused_witness :
  Async.getElementById (Async.popoverId "/B")
    (Async.body (Async.clearGraphPopover leftInDocument)) =
  Some (Async.mkElement 7 "graph-popover-/B") /\
  Async.activePopover (Async.showStart (Some "/B") leftInDocument) = Some 7 /\
  Async.inFlight (Async.showStart (Some "/B") leftInDocument) = [].
Proof.
  assert (H : Async.getElementById (Async.popoverId "/B")
                (Async.body (Async.clearGraphPopover leftInDocument)) =
              Some (Async.mkElement 7 "graph-popover-/B")) by reflexivity.
  split; [exact H|].
  destruct (proj1 (proj2 (proj2 (proj2 (proj2
              (existing_popover_is_reused "/B" leftInDocument)))))
              (Async.mkElement 7 "graph-popover-/B") [] H)
    as [Ha [_ [_ [Hf _]]]].
  split; [exact Ha | exact Hf].
Defined.

(** A local render that comes to its end after a theme change has
    replaced the registry: its callback is pushed to the old array, and
    leaving the page does not call it. *)
Lemma overtaken_render_is_lost :
  Registry.lost
    (Registry.run [Registry.Render 1; Registry.Render 1; Registry.LocalRendered 0;
                   Registry.LocalRendered 0; Registry.LeavePage] Registry.start) = [0] /\
  Registry.calls
    (Registry.run [Registry.Render 1; Registry.Render 1; Registry.LocalRendered 0;
                   Registry.LocalRendered 0; Registry.LeavePage] Registry.start) = [1].
Proof. split; reflexivity. Qed.

Lemma every_teardown_is_called_at_most_once_witness :
  Registry.calls
    (Registry.run [Registry.Render 1; Registry.LocalRendered 0; Registry.OpenGlobal 1;
                   Registry.GlobalRendered 0; Registry.Render 1] Registry.start) = [0] /\
  NoDup (Registry.calls
           (Registry.run [Registry.Render 1; Registry.LocalRendered 0; Registry.OpenGlobal 1;
                          Registry.GlobalRendered 0; Registry.Render 1] Registry.start)).
Proof.
  split; [reflexivity|].
  apply (every_teardown_is_called_at_most_once
           [Registry.Render 1; Registry.LocalRendered 0; Registry.OpenGlobal 1;
            Registry.GlobalRendered 0; Registry.Render 1]).
Defined.

Lemma labels_keep_their_size_witness :
  (Float.pow2 (-1000) <= scale (config 1 false) * 3)%Q /\
  (scale (config 1 false) * 3 <= Float.pow2 1000)%Q /\
  (1 - Float.pow2 (-51) <=
   Zoom.labelScale (Zoom.mkText 0 1%Q (Float.double (1 / Float.double (1 * 3)))%Q) *
   fst (Zoom.stageScale (Zoom.onZoom (config 1 false) (Zoom.mkTransform 3%Q 0%Q 0%Q)
                                     twoLabels)) *
   scale (config 1 false))%Q.
Proof.
  assert (H1 : (Float.pow2 (-1000) <= scale (config 1 false) * 3)%Q)
    by (vm_compute; discriminate).
  assert (H2 : (scale (config 1 false) * 3 <= Float.pow2 1000)%Q)
    by (vm_compute; discriminate).
  split; [exact H1|]. split; [exact H2|].
  apply (labels_keep_their_size (config 1 false) (Zoom.mkTransform 3%Q 0%Q 0%Q) twoLabels
           (Zoom.mkText 0 1%Q (Float.double (1 / Float.double (1 * 3)))%Q) H1 H2).
  left. reflexivity.
Defined.

End OnSamples.
